(** * Map helpers of auspice: demes and transmissions

    A shallow embedding of [src/components/map/mapHelpersLatLong.js] and
    the properties of its build and update paths.

    Conventions of the embedding.
    - JavaScript numbers are exact rationals ([Q]) extended with [NaN];
      rounding of IEEE doubles is not modelled.  [undefined] used as a
      number is [NaN] (every such use in the source is arithmetic).
      Where rounding alone decides a property (the dates along a
      curve), the same source lines are read in binary64 as well, in
      the module [Binary64].
    - Plain objects used as dictionaries are insertion-ordered association
      lists; [Object.entries] and [Object.keys] list array-index keys
      first, in ascending order, then the other keys in insertion order.
      Properties inherited from [Object.prototype] are not modelled.
    - Objects are values: the updaters return the patched collection; the
      sharing of entries between the old and the new array is not
      represented.
    - The values a trait can take are [undefined], [null], booleans,
      integers and strings.
    - The helpers imported from the application, and d3's [pie], are
      parameters, gathered in the class [Externals]; the leaflet map is
      an argument, as in the source; d3's [interpolateNumber] and
      lodash's [minBy] are written out. *)

From Stdlib Require Import QArith Qabs Ascii Lqa.
From Stdlib Require Floats.
From stdpp Require Import base option list strings gmap pretty sorting.

#[local] Open Scope Z_scope.
#[local] Open Scope nat_scope.
#[local] Open Scope string_scope.
#[local] Open Scope list_scope.

(** ** JavaScript values and numbers *)

Inductive JsVal :=
  | JUndefined
  | JNull
  | JBool (b : bool)
  | JNum (z : Z)
  | JStr (s : string).

#[global] Instance JsVal_eq_dec : EqDecision JsVal.
Proof. solve_decision. Defined.

(** ToBoolean *)
Definition truthy (v : JsVal) : bool :=
  match v with
  | JUndefined | JNull => false
  | JBool b => b
  | JNum z => negb (z =? 0)%Z
  | JStr EmptyString => false
  | JStr (String _ _) => true
  end.

(** ToString, which is also ToPropertyKey on these primitives. *)
Definition ToString (v : JsVal) : string :=
  match v with
  | JUndefined => "undefined"
  | JNull => "null"
  | JBool true => "true"
  | JBool false => "false"
  | JNum z => pretty z
  | JStr s => s
  end.

(** [a !== b] *)
Definition strict_ne (a b : JsVal) : bool := bool_decide (a ≠ b).

Inductive number :=
  | Num (q : Q)
  | NaN.

Definition Qltb (a b : Q) : bool := negb (Qle_bool b a).

Definition num_lt (a b : number) : bool :=
  match a, b with
  | Num x, Num y => Qltb x y
  | _, _ => false
  end.

Definition num_gt (a b : number) : bool := num_lt b a.

Definition num_add (a b : number) : number :=
  match a, b with
  | Num x, Num y => Num (x + y)
  | _, _ => NaN
  end.

Definition num_sub (a b : number) : number :=
  match a, b with
  | Num x, Num y => Num (x - y)
  | _, _ => NaN
  end.

Definition num_mul (a b : number) : number :=
  match a, b with
  | Num x, Num y => Num (x * y)
  | _, _ => NaN
  end.

(** Division.  [0 / 0] is [NaN]; the source never divides a non-zero
    number by zero (the only divisors that can vanish are a sum that
    contains the dividend and [length - 1] under index [0]), so the
    infinities are not represented. *)
Definition num_div (a b : number) : number :=
  match a, b with
  | Num x, Num y => if Qeq_bool y 0 then NaN else Num (x / y)
  | _, _ => NaN
  end.

Definition num_abs (a : number) : number :=
  match a with
  | Num x => Num (Qabs x)
  | NaN => NaN
  end.

Definition num_of_nat (n : nat) : number := Num (inject_Z (Z.of_nat n)).

(** [Math.PI], the double nearest to pi. *)
Definition Math_PI : Q := 884279719003555 # 281474976710656.

(** ** Plain objects as ordered dictionaries *)

Definition Obj (V : Type) : Type := list (string * V).

Fixpoint obj_get {V} (o : Obj V) (k : string) : option V :=
  match o with
  | [] => None
  | (k', v) :: o' => if String.eqb k k' then Some v else obj_get o' k
  end.

(** [o[k] = v]: an existing key keeps its place, a new one goes last. *)
Fixpoint obj_set {V} (o : Obj V) (k : string) (v : V) : Obj V :=
  match o with
  | [] => [(k, v)]
  | (k', v') :: o' =>
      if String.eqb k k' then (k', v) :: o' else (k', v') :: obj_set o' k v
  end.

Definition digit_of (a : ascii) : option N :=
  let n := N_of_ascii a in
  if ((48 <=? n) && (n <=? 57))%N then Some (n - 48)%N else None.

Fixpoint parse_digits (s : string) (acc : N) : option N :=
  match s with
  | EmptyString => Some acc
  | String a s' =>
      match digit_of a with
      | Some d => parse_digits s' (10 * acc + d)%N
      | None => None
      end
  end.

(** The array index a property key denotes, if it is one: a canonical
    decimal numeral below [2^32 - 1]. *)
Definition array_index (k : string) : option N :=
  match k with
  | EmptyString => None
  | String a rest =>
      if (N_of_ascii a =? 48)%N then
        match rest with EmptyString => Some 0%N | _ => None end
      else
        match parse_digits k 0 with
        | Some n => if (n <? 4294967295)%N then Some n else None
        | None => None
        end
  end.

Definition key_le (a b : string) : bool :=
  match array_index a, array_index b with
  | Some m, Some n => (m <=? n)%N
  | Some _, None => true
  | None, Some _ => false
  | None, None => true
  end.

Fixpoint insert_entry {V} (e : string * V) (l : list (string * V))
  : list (string * V) :=
  match l with
  | [] => [e]
  | e' :: l' =>
      if key_le e.1 e'.1 then e :: l else e' :: insert_entry e l'
  end.

(** [Object.entries(o)] *)
Definition entries {V} (o : Obj V) : list (string * V) :=
  foldr insert_entry [] o.

(** [Object.keys(o)] *)
Definition keys {V} (o : Obj V) : list string := (entries o).*1.

(** A [Set], in insertion order. *)
Definition set_add (v : JsVal) (s : list JsVal) : list JsVal :=
  if bool_decide (v ∈ s) then s else s ++ [v].

(** ** Console output and exceptions *)

Inductive Diag :=
  | Warn (args : list string)     (* console.warn *)
  | Error (args : list string).   (* console.error *)

Inductive Completion (A : Type) :=
  | Normal (a : A)
  | Throw (e : string).
Arguments Normal {A} a.
Arguments Throw {A} e.

(** A computation: what it printed, and how it completed. *)
Definition Eff (A : Type) : Type := list Diag * Completion A.

Definition ret {A} (a : A) : Eff A := ([], Normal a).
Definition throw {A} (e : string) : Eff A := ([], Throw e).
Definition console_warn (args : list string) : Eff unit := ([Warn args], Normal tt).
Definition console_error (args : list string) : Eff unit := ([Error args], Normal tt).

Definition bind {A B} (m : Eff A) (f : A -> Eff B) : Eff B :=
  match m with
  | (out, Normal a) => let '(out', r) := f a in (out ++ out', r)
  | (out, Throw e) => (out, Throw e)
  end.

Notation "'let*' x := m 'in' k" := (bind m (fun x => k))
  (at level 10, x name, m at level 100, k at level 200).

(** [l.forEach] with an accumulated state. *)
Fixpoint forEachM {A St} (f : St -> A -> Eff St) (l : list A) (s : St) : Eff St :=
  match l with
  | [] => ret s
  | x :: l' => let* s' := f s x in forEachM f l' s'
  end.

Definition TypeError : string := "TypeError".

(** ** Data model *)

#[local] Unset Elimination Schemes.
Inductive Node := mkNode {
  arrayIdx : nat;
  num_date : Q;                    (* node.num_date.value *)
  node_attrs : Obj JsVal;          (* read by getTraitFromNode only *)
  children : option (list Node)    (* undefined on tips *)
}.
#[local] Set Elimination Schemes.

Record Point := mkPoint { x : Q; y : Q }.

Record LatLong := mkLatLong { latitude : Q; longitude : Q }.

Record Metadata := mkMetadata {
  geographicInfo : gmap string (gmap string LatLong)
}.

(** The leaflet map: its method [latLngToLayerPoint] on [new L.LatLng(lat, long)]. *)
Record LeafletMap := mkMap {
  latLngToLayerPoint : number -> number -> Point
}.

Record ColorCount := mkColorCount { nVisible : nat; nTotal : nat }.

(** A slice as d3's [pie()] returns it, with the fields the build adds. *)
Module Arc.
Record t := mk {
  data : nat;
  value : nat;
  index : nat;
  startAngle : number;
  endAngle : number;
  padAngle : number;
  color : option string;
  innerRadius : option Q;
  demeDataIdx : option nat
}.
End Arc.

Module Deme.
Record t := mk {
  name : string;
  count : nat;
  latitude : Q;
  longitude : Q;
  coords : Point;
  arcs : option (list Arc.t);
  color : option string
}.
End Deme.

Module Transmission.
Record t := mk {
  id : string;
  originNode : Node;
  destinationNode : Node;
  bezierCurve : list Point;
  bezierDates : list number;
  originName : JsVal;
  destinationName : JsVal;
  originCoords : Point;
  destinationCoords : Point;
  originLatitude : number;
  destinationLatitude : number;
  originLongitude : number;
  destinationLongitude : number;
  originNumDate : Q;
  destinationNumDate : Q;
  color : option string;
  visible : string;
  extend : nat
}.
End Transmission.

(** What the module imports. *)
Class Externals := {
  (* util/treeMiscHelpers *)
  getTraitFromNode : Node -> string -> JsVal;
  (* util/globals *)
  NODE_NOT_VISIBLE : nat;
  (* ./transmissionBezier *)
  bezier : Point -> Point -> nat -> list Point;
  (* d3-shape: pie()(values) *)
  pie : list nat -> list Arc.t;
  (* util/colorHelpers *)
  averageColorsDict : Obj ColorCount -> string
}.

(** d3-interpolate: [interpolateNumber(a, b)(t)]. *)
Definition interpolateNumber (a b : Q) (t : number) : number :=
  num_add (num_mul (Num a) (num_sub (Num 1) t)) (num_mul (Num b) t).

(** *** Double precision

    The numbers of the program are IEEE 754 binary64 values.  The lines
    that compute the dates along a curve, read in that arithmetic. *)
Module Binary64.
Import Floats.

(** A small natural number as a double. *)
Definition of_nat (n : nat) : float :=
  PrimFloat.of_uint63 (Uint63.of_Z (Z.of_nat n)).

(** d3-interpolate: [interpolateNumber(a, b)(t)]. *)
Definition interpolateNumber (a b t : float) : float :=
  (a * (1 - t) + b * t)%float.

(** [Bdates] of [maybeConstructTransmissionEvent], over a curve of [n]
    points: [interpolator(i / (Bcurve.length - 1))] for every index. *)
Definition bezierDates (parentDate childDate : float) (n : nat) : list float :=
  imap (fun i _ =>
          interpolateNumber parentDate childDate
            (PrimFloat.div (of_nat i) (of_nat (n - 1))))
       (replicate n tt).


End Binary64.

(** lodash [_minBy]: the first element whose key is smallest. *)
Fixpoint minBy_from {A} (f : A -> Q) (best : A) (l : list A) : A :=
  match l with
  | [] => best
  | a :: l' => minBy_from f (if Qltb (f a) (f best) then a else best) l'
  end.

Definition minBy {A} (l : list A) (f : A -> Q) : option A :=
  match l with
  | [] => None
  | a :: l' => Some (minBy_from f a l')
  end.

(** ** The module *)

Definition westBound : number := Num (-360).
Definition eastBound : number := Num 360.

Definition leafletLatLongToLayerPoint (lat long : number) (map : LeafletMap) : Point :=
  latLngToLayerPoint map lat long.

Definition maybeGetTransmissionPair
    (latOrig longOrig latDest longDest : number) (map : LeafletMap)
  : option (Point * Point) :=
  if (num_gt longOrig westBound || num_gt longDest westBound)
     && (num_lt longOrig eastBound || num_lt longDest eastBound)
     && num_lt (num_abs (num_sub longOrig longDest)) (Num 180)
  then Some (leafletLatLongToLayerPoint latOrig longOrig map,
             leafletLatLongToLayerPoint latDest longDest map)
  else None.

(** The guard of [maybeGetTransmissionPair]. *)
Definition validPair (longOrig longDest : number) : bool :=
  (num_gt longOrig westBound || num_gt longDest westBound)
  && (num_lt longOrig eastBound || num_lt longDest eastBound)
  && num_lt (num_abs (num_sub longOrig longDest)) (Num 180).

(** [nodeColors[i]] used as a property key. *)
Definition colorKey (c : option string) : string :=
  match c with
  | Some s => s
  | None => "undefined"
  end.

Definition emptyCount : ColorCount := {| nVisible := 0; nTotal := 0 |}.

Section MapHelpers.
Context `{Externals}.

(** [visibility[i] !== NODE_NOT_VISIBLE] *)
Definition isVisible (visibility : list nat) (i : nat) : bool :=
  bool_decide (visibility !! i ≠ Some NODE_NOT_VISIBLE).

(** The body of the [forEach] of [getColorsForAllDemes]. *)
Definition countTip (visibility : list nat) (geoResolution : string)
    (nodeColors : list string) (demeToColorMap : Obj (Obj ColorCount))
    (i : nat) (n : Node) : Obj (Obj ColorCount) :=
  if bool_decide (is_Some (children n)) then demeToColorMap else
  let location := getTraitFromNode n geoResolution in
  if negb (truthy location) then demeToColorMap else
  let location := ToString location in
  let colorCounts := default [] (obj_get demeToColorMap location) in
  let color := colorKey (nodeColors !! i) in
  let c := default emptyCount (obj_get colorCounts color) in
  let c := {| nVisible := nVisible c; nTotal := S (nTotal c) |} in
  let c :=
    if isVisible visibility i
    then {| nVisible := S (nVisible c); nTotal := nTotal c |}
    else c in
  obj_set demeToColorMap location (obj_set colorCounts color c).

Fixpoint forEachIdx {A St} (f : St -> nat -> A -> St) (l : list A) (i : nat) (s : St) : St :=
  match l with
  | [] => s
  | a :: l' => forEachIdx f l' (S i) (f s i a)
  end.

Definition getColorsForAllDemes (nodes : list Node) (visibility : list nat)
    (geoResolution : string) (nodeColors : list string) : Obj (Obj ColorCount) :=
  forEachIdx (countTip visibility geoResolution nodeColors) nodes 0 [].

(** [colors.reduce((acc, cv) => acc + colorCounts[cv].nVisible, 0)] over
    [Object.keys(colorCounts)].  A dictionary holds a key once, so the
    value at a listed key is the value of its entry. *)
Definition sumVisible (colorCounts : Obj ColorCount) : nat :=
  foldl (fun acc cv => acc + nVisible cv.2) 0 (entries colorCounts).

Record DemeSetup := mkDemeSetup {
  demeData : list Deme.t;
  demeIndices : gmap string (list nat)
}.

Definition offsetsOf (triplicate : bool) : list Q :=
  if triplicate then [-360; 0; 360]%Q else [0%Q].

(** [demeIndices[location]] gets one more index. *)
Definition pushIndex (indices : gmap string (list nat)) (k : string) (i : nat)
  : gmap string (list nat) :=
  match indices !! k with
  | None => <[k := [i]]> indices
  | Some l => <[k := l ++ [i]]> indices
  end.

(** The slices of one pie chart, tagged by the build. *)
Definition tagArcs (arcs : list Arc.t) (colors : list string) (demeDataIdx : nat)
  : list Arc.t :=
  imap (fun i a =>
    {| Arc.data := Arc.data a; Arc.value := Arc.value a; Arc.index := Arc.index a;
       Arc.startAngle := Arc.startAngle a; Arc.endAngle := Arc.endAngle a;
       Arc.padAngle := Arc.padAngle a;
       Arc.color := colors !! i;
       Arc.innerRadius := Some 0%Q;
       Arc.demeDataIdx := Some demeDataIdx |}) arcs.

(** The object [deme] of [setupDemeData], once its slices or its colour
    are added. *)
Definition newDeme (pieChart : bool) (location : string) (colorCounts : Obj ColorCount)
    (lat long : Q) (coords : Point) (demeDataIdx : nat) : Deme.t :=
  let colors := keys colorCounts in
  let nVisibleTipsInDeme := sumVisible colorCounts in
  if pieChart then
    let arcs := pie (List.map (fun e => nVisible e.2) (entries colorCounts)) in
    {| Deme.name := location; Deme.count := nVisibleTipsInDeme;
       Deme.latitude := lat; Deme.longitude := long; Deme.coords := coords;
       Deme.arcs := Some (tagArcs arcs colors demeDataIdx);
       Deme.color := None |}
  else
    {| Deme.name := location; Deme.count := nVisibleTipsInDeme;
       Deme.latitude := lat; Deme.longitude := long; Deme.coords := coords;
       Deme.arcs := None;
       Deme.color := Some (averageColorsDict colorCounts) |}.

(** The body of the inner loop of [setupDemeData]: one location at one
    offset.  The state is [demeData], [demeIndices] and [index]. *)
Definition setupDeme (geoResolution : string) (metadata : Metadata)
    (map : LeafletMap) (pieChart : bool) (OFFSET : Q)
    (st : list Deme.t * gmap string (list nat) * nat)
    (entry : string * Obj ColorCount)
  : Eff (list Deme.t * gmap string (list nat) * nat) :=
  let '(demeData, demeIndices, index) := st in
  let '(location, colorCounts) := entry in
  let geo := geographicInfo metadata in
  match geo !! geoResolution with
  | None => throw TypeError
  | Some table =>
    let* found :=
      match table !! location with
      | Some g => ret (latitude g, (longitude g + OFFSET)%Q, true)
      | None =>
          let* _ := console_warn ["Warning: Lat/long missing from metadata for"; location] in
          ret (0%Q, 0%Q, false)
      end in
    let '(lat, long, goodDeme) := found in
    let coords := leafletLatLongToLayerPoint (Num lat) (Num long) map in
    if num_gt (Num long) westBound && num_lt (Num long) eastBound && goodDeme then
      let demeDataIdx := length demeData in
      let deme := newDeme pieChart location colorCounts lat long coords demeDataIdx in
      ret (demeData ++ [deme], pushIndex demeIndices location index, S index)
    else ret st
  end.

Definition setupDemeData (nodes : list Node) (visibility : list nat)
    (geoResolution : string) (nodeColors : list string) (triplicate : bool)
    (metadata : Metadata) (map : LeafletMap) (pieChart : bool) : Eff DemeSetup :=
  let demeToColorMap := getColorsForAllDemes nodes visibility geoResolution nodeColors in
  let offsets := offsetsOf triplicate in
  let* st :=
    forEachM (fun st OFFSET =>
      forEachM (setupDeme geoResolution metadata map pieChart OFFSET)
               (entries demeToColorMap) st)
      offsets ([], ∅, 0) in
  ret {| demeData := st.1.1; demeIndices := st.1.2 |}.

Definition constructBcurve (originLatLongPair destinationLatLongPair : Point)
    (extend : nat) : list Point :=
  bezier originLatLongPair destinationLatLongPair extend.

(** [metadataGeoLookupTable[geoResolution][location]]; [None] where reading
    a field of the result throws. *)
Definition lookupLatLong (metadataGeoLookupTable : gmap string (gmap string LatLong))
    (geoResolution : string) (location : JsVal) : option LatLong :=
  match metadataGeoLookupTable !! geoResolution with
  | Some table => table !! ToString location
  | None => None
  end.

Definition visibleFlag (visibility : list nat) (i : nat) : string :=
  if isVisible visibility i then "visible" else "hidden".

Definition transmissionId (node child : Node) : string :=
  pretty (arrayIdx node) +:+ "-" +:+ pretty (arrayIdx child).

Definition maybeConstructTransmissionEvent (node child : Node)
    (metadataGeoLookupTable : gmap string (gmap string LatLong))
    (geoResolution : string) (nodeColors : list string) (visibility : list nat)
    (map : LeafletMap) (offsetOrig offsetDest : Q)
    (demesMissingLatLongs : list JsVal) (extend : nat)
  : option Transmission.t * list JsVal :=
  let nodeLocation := getTraitFromNode node geoResolution in
  let childLocation := getTraitFromNode child geoResolution in
  let '(latOrig, longOrig, demesMissingLatLongs) :=
    match lookupLatLong metadataGeoLookupTable geoResolution nodeLocation with
    | Some g => (Num (latitude g), Num (longitude g), demesMissingLatLongs)
    | None => (NaN, NaN, set_add nodeLocation demesMissingLatLongs)
    end in
  let '(latDest, longDest, demesMissingLatLongs) :=
    match lookupLatLong metadataGeoLookupTable geoResolution childLocation with
    | Some g => (Num (latitude g), Num (longitude g), demesMissingLatLongs)
    | None => (NaN, NaN, set_add childLocation demesMissingLatLongs)
    end in
  let validLatLongPair :=
    maybeGetTransmissionPair latOrig (num_add longOrig (Num offsetOrig))
                             latDest (num_add longDest (Num offsetDest)) map in
  match validLatLongPair with
  | Some (pairOrig, pairDest) =>
      let Bcurve := constructBcurve pairOrig pairDest extend in
      let interpolator := interpolateNumber (num_date node) (num_date child) in
      let Bdates :=
        imap (fun i _ =>
                interpolator (num_div (num_of_nat i) (num_of_nat (length Bcurve - 1))))
             Bcurve in
      (Some {|
         Transmission.id := transmissionId node child;
         Transmission.originNode := node;
         Transmission.destinationNode := child;
         Transmission.bezierCurve := Bcurve;
         Transmission.bezierDates := Bdates;
         Transmission.originName := getTraitFromNode node geoResolution;
         Transmission.destinationName := getTraitFromNode child geoResolution;
         Transmission.originCoords := pairOrig;
         Transmission.destinationCoords := pairDest;
         Transmission.originLatitude := latOrig;
         Transmission.destinationLatitude := latDest;
         Transmission.originLongitude := num_add longOrig (Num offsetOrig);
         Transmission.destinationLongitude := num_add longDest (Num offsetDest);
         Transmission.originNumDate := num_date node;
         Transmission.destinationNumDate := num_date child;
         Transmission.color := nodeColors !! arrayIdx node;
         Transmission.visible := visibleFlag visibility (arrayIdx child);
         Transmission.extend := extend |},
       demesMissingLatLongs)
  | None => (None, demesMissingLatLongs)
  end.

(** [Math.abs(event.destinationCoords.x - event.originCoords.x)] *)
Definition screenDistance (event : Transmission.t) : Q :=
  Qabs (x (Transmission.destinationCoords event) - x (Transmission.originCoords event)).

Definition maybeGetClosestTransmissionEvent (node child : Node)
    (metadataGeoLookupTable : gmap string (gmap string LatLong))
    (geoResolution : string) (nodeColors : list string) (visibility : list nat)
    (map : LeafletMap) (offsetOrig : Q)
    (demesMissingLatLongs : list JsVal) (extend : nat)
  : option Transmission.t * list JsVal :=
  let '(possibleEvents, demesMissingLatLongs) :=
    foldl (fun '(possibleEvents, missing) offsetDest =>
             let '(t, missing) :=
               maybeConstructTransmissionEvent node child metadataGeoLookupTable
                 geoResolution nodeColors visibility map offsetOrig offsetDest
                 missing extend in
             (match t with
              | Some t => possibleEvents ++ [t]
              | None => possibleEvents
              end, missing))
          ([], demesMissingLatLongs) [-360; 0; 360]%Q in
  (minBy possibleEvents screenDistance, demesMissingLatLongs).

(** The property key an array [[a, b]] is coerced to. *)
Definition pairKey (a b : JsVal) : string := ToString a +:+ "," +:+ ToString b.

Record TransmissionState := mkTransmissionState {
  ts_data : list Transmission.t;            (* transmissionData *)
  ts_counts : gmap string nat;              (* demeToDemeCounts *)
  ts_missing : list JsVal                   (* demesMissingLatLongs *)
}.

(** The [forEach] over the origin offsets, for one edge. *)
Definition pushClosestEvents (n child : Node)
    (metadataGeoLookupTable : gmap string (gmap string LatLong))
    (geoResolution : string) (nodeColors : list string) (visibility : list nat)
    (map : LeafletMap) (offsets : list Q) (extend : nat)
    (transmissionData : list Transmission.t) (demesMissingLatLongs : list JsVal)
  : list Transmission.t * list JsVal :=
  foldl (fun '(transmissionData, missing) offsetOrig =>
           let '(t, missing) :=
             maybeGetClosestTransmissionEvent n child metadataGeoLookupTable
               geoResolution nodeColors visibility map offsetOrig missing extend in
           (match t with
            | Some t => transmissionData ++ [t]
            | None => transmissionData
            end, missing))
        (transmissionData, demesMissingLatLongs) offsets.

(** The body of [n.children.forEach] in [setupTransmissionData]. *)
Definition setupEdge (n : Node)
    (metadataGeoLookupTable : gmap string (gmap string LatLong))
    (geoResolution : string) (nodeColors : list string) (visibility : list nat)
    (map : LeafletMap) (offsets : list Q)
    (st : TransmissionState) (child : Node) : TransmissionState :=
  let nodeDeme := getTraitFromNode n geoResolution in
  let childDeme := getTraitFromNode child geoResolution in
  if truthy nodeDeme && truthy childDeme && strict_ne nodeDeme childDeme then
    let demeToDemeCounts :=
      match ts_counts st !! pairKey nodeDeme childDeme with
      | Some c => <[pairKey nodeDeme childDeme := c + 1]> (ts_counts st)
      | None => <[pairKey nodeDeme childDeme := 1]> (ts_counts st)
      end in
    let extend := default 0 (demeToDemeCounts !! pairKey nodeDeme childDeme) in
    let '(transmissionData, missing) :=
      pushClosestEvents n child metadataGeoLookupTable geoResolution nodeColors
        visibility map offsets extend (ts_data st) (ts_missing st) in
    {| ts_data := transmissionData; ts_counts := demeToDemeCounts;
       ts_missing := missing |}
  else st.

Definition setupNode
    (metadataGeoLookupTable : gmap string (gmap string LatLong))
    (geoResolution : string) (nodeColors : list string) (visibility : list nat)
    (map : LeafletMap) (offsets : list Q)
    (st : TransmissionState) (n : Node) : TransmissionState :=
  match children n with
  | Some cs =>
      foldl (setupEdge n metadataGeoLookupTable geoResolution nodeColors
               visibility map offsets) st cs
  | None => st
  end.

Record TransmissionSetup := mkTransmissionSetup {
  transmissionData : list Transmission.t;
  transmissionIndices : gmap string (list nat);
  demesMissingLatLongs : list JsVal
}.

Definition indexTransmissions (transmissionData : list Transmission.t)
  : gmap string (list nat) :=
  forEachIdx (fun indices index transmission =>
                pushIndex indices (Transmission.id transmission) index)
             transmissionData 0 ∅.

Definition setupTransmissionData (nodes : list Node) (visibility : list nat)
    (geoResolution : string) (nodeColors : list string) (triplicate : bool)
    (metadata : Metadata) (map : LeafletMap) : TransmissionSetup :=
  let offsets := offsetsOf triplicate in
  let metadataGeoLookupTable := geographicInfo metadata in
  let st :=
    foldl (setupNode metadataGeoLookupTable geoResolution nodeColors visibility
             map offsets)
          {| ts_data := []; ts_counts := ∅; ts_missing := [] |} nodes in
  {| transmissionData := ts_data st;
     transmissionIndices := indexTransmissions (ts_data st);
     demesMissingLatLongs := ts_missing st |}.

Record MapData := mkMapData {
  md_demeData : list Deme.t;
  md_transmissionData : list Transmission.t;
  md_demeIndices : gmap string (list nat);
  md_transmissionIndices : gmap string (list nat);
  md_demesMissingLatLongs : list JsVal
}.

Definition createDemeAndTransmissionData (nodes : list Node) (visibility : list nat)
    (geoResolution : string) (nodeColors : list string) (triplicate : bool)
    (metadata : Metadata) (map : LeafletMap) (pieChart : bool) : Eff MapData :=
  let* demes :=
    setupDemeData nodes visibility geoResolution nodeColors triplicate metadata
      map pieChart in
  let transmissions :=
    setupTransmissionData nodes visibility geoResolution nodeColors triplicate
      metadata map in
  ret {| md_demeData := demeData demes;
         md_transmissionData := transmissionData transmissions;
         md_demeIndices := demeIndices demes;
         md_transmissionIndices := transmissionIndices transmissions;
         md_demesMissingLatLongs := demesMissingLatLongs transmissions |}.

(** *** Update of colours and visibility *)

Definition setAngles (a : Arc.t) (startAngle endAngle : number) : Arc.t :=
  {| Arc.data := Arc.data a; Arc.value := Arc.value a; Arc.index := Arc.index a;
     Arc.startAngle := startAngle; Arc.endAngle := endAngle;
     Arc.padAngle := Arc.padAngle a; Arc.color := Arc.color a;
     Arc.innerRadius := Arc.innerRadius a; Arc.demeDataIdx := Arc.demeDataIdx a |}.

(** The [forEach] over the slices of one pie chart; [i] is the index of
    the first slice of [arcs], [startAngle] the running angle. *)
Fixpoint updateArcs (colorCounts : Obj ColorCount) (colors : list string)
    (totalNumVisible : nat) (arcs : list Arc.t) (i : nat) (startAngle : number)
  : Eff (list Arc.t) :=
  match arcs with
  | [] => ret []
  | a :: arcs' =>
      let* _ :=
        if bool_decide (Arc.color a ≠ colors !! i)
        then console_error ["COLOR MISMATCH FATAL"] else ret tt in
      match obj_get colorCounts (colorKey (colors !! i)) with
      | None => throw TypeError
      | Some c =>
          let endAngle :=
            num_add startAngle
              (num_div (num_mul (num_mul (Num 2) (Num Math_PI)) (num_of_nat (nVisible c)))
                       (num_of_nat totalNumVisible)) in
          let* rest := updateArcs colorCounts colors totalNumVisible arcs' (S i) endAngle in
          ret (setAngles a startAngle endAngle :: rest)
      end
  end.

Definition setCount (d : Deme.t) (count : nat) : Deme.t :=
  {| Deme.name := Deme.name d; Deme.count := count;
     Deme.latitude := Deme.latitude d; Deme.longitude := Deme.longitude d;
     Deme.coords := Deme.coords d; Deme.arcs := Deme.arcs d;
     Deme.color := Deme.color d |}.

Definition setArcs (d : Deme.t) (arcs : list Arc.t) : Deme.t :=
  {| Deme.name := Deme.name d; Deme.count := Deme.count d;
     Deme.latitude := Deme.latitude d; Deme.longitude := Deme.longitude d;
     Deme.coords := Deme.coords d; Deme.arcs := Some arcs;
     Deme.color := Deme.color d |}.

Definition setColor (d : Deme.t) (color : string) : Deme.t :=
  {| Deme.name := Deme.name d; Deme.count := Deme.count d;
     Deme.latitude := Deme.latitude d; Deme.longitude := Deme.longitude d;
     Deme.coords := Deme.coords d; Deme.arcs := Deme.arcs d;
     Deme.color := Some color |}.

(** The body of [demeIndices[location].forEach]. *)
Definition updateDeme (pieChart : bool) (colorCounts : Obj ColorCount)
    (nVisibleTipsInDeme : nat) (demeDataCopy : list Deme.t) (index : nat)
  : Eff (list Deme.t) :=
  match demeDataCopy !! index with
  | None => throw TypeError
  | Some d =>
      let d := setCount d nVisibleTipsInDeme in
      if pieChart then
        let totalNumVisible := sumVisible colorCounts in
        let colors := keys colorCounts in
        match Deme.arcs d with
        | None => throw TypeError
        | Some arcs =>
            let* arcs := updateArcs colorCounts colors totalNumVisible arcs 0 (Num 0) in
            ret (<[index := setArcs d arcs]> demeDataCopy)
        end
      else
        ret (<[index := setColor d (averageColorsDict colorCounts)]> demeDataCopy)
  end.

(** The body of the loop over locations in [updateDemeDataColAndVis]. *)
Definition updateLocation (demeIndices : gmap string (list nat)) (pieChart : bool)
    (demeDataCopy : list Deme.t) (entry : string * Obj ColorCount) : Eff (list Deme.t) :=
  let '(location, colorCounts) := entry in
  let nVisibleTipsInDeme := sumVisible colorCounts in
  match demeIndices !! location with
  | None => throw TypeError
  | Some indices =>
      forEachM (updateDeme pieChart colorCounts nVisibleTipsInDeme) indices demeDataCopy
  end.

Definition updateDemeDataColAndVis (demeData : list Deme.t)
    (demeIndices : gmap string (list nat)) (nodes : list Node)
    (visibility : list nat) (geoResolution : string) (nodeColors : list string)
    (pieChart : bool) : Eff (list Deme.t) :=
  let demeToColorMap := getColorsForAllDemes nodes visibility geoResolution nodeColors in
  forEachM (updateLocation demeIndices pieChart) (entries demeToColorMap) demeData.

Definition setColAndVis (t : Transmission.t) (col : option string) (vis : string)
  : Transmission.t :=
  {| Transmission.id := Transmission.id t;
     Transmission.originNode := Transmission.originNode t;
     Transmission.destinationNode := Transmission.destinationNode t;
     Transmission.bezierCurve := Transmission.bezierCurve t;
     Transmission.bezierDates := Transmission.bezierDates t;
     Transmission.originName := Transmission.originName t;
     Transmission.destinationName := Transmission.destinationName t;
     Transmission.originCoords := Transmission.originCoords t;
     Transmission.destinationCoords := Transmission.destinationCoords t;
     Transmission.originLatitude := Transmission.originLatitude t;
     Transmission.destinationLatitude := Transmission.destinationLatitude t;
     Transmission.originLongitude := Transmission.originLongitude t;
     Transmission.destinationLongitude := Transmission.destinationLongitude t;
     Transmission.originNumDate := Transmission.originNumDate t;
     Transmission.destinationNumDate := Transmission.destinationNumDate t;
     Transmission.color := col;
     Transmission.visible := vis;
     Transmission.extend := Transmission.extend t |}.

(** The [try] block: the patched array, and whether the block threw
    (what was patched before the exception stays patched). *)
Fixpoint patchTransmissions (col : option string) (vis : string)
    (indices : list nat) (transmissionDataCopy : list Transmission.t)
  : list Transmission.t * bool :=
  match indices with
  | [] => (transmissionDataCopy, false)
  | index :: indices' =>
      match transmissionDataCopy !! index with
      | None => (transmissionDataCopy, true)
      | Some t =>
          patchTransmissions col vis indices'
            (<[index := setColAndVis t col vis]> transmissionDataCopy)
      end
  end.

(** The body of [node.children.forEach] in the updater. *)
Definition updateEdge (transmissionIndices : gmap string (list nat))
    (visibility : list nat) (geoResolution : string) (nodeColors : list string)
    (node : Node) (transmissionDataCopy : list Transmission.t) (child : Node)
  : Eff (list Transmission.t) :=
  let nodeLocation := getTraitFromNode node geoResolution in
  let childLocation := getTraitFromNode node geoResolution in
  if truthy nodeLocation && truthy childLocation && strict_ne nodeLocation childLocation
  then
    let id := transmissionId node child in
    let col := nodeColors !! arrayIdx node in
    let vis := visibleFlag visibility (arrayIdx child) in
    let '(copy, threw) :=
      match transmissionIndices !! id with
      | Some indices => patchTransmissions col vis indices transmissionDataCopy
      | None => (transmissionDataCopy, true)
      end in
    if (threw : bool) then
      let* _ := console_warn ["Error trying to access " +:+ id +:+
                              " in transmissionIndices. Map transmissions may be wrong."] in
      ret copy
    else ret copy
  else ret transmissionDataCopy.

Definition updateTransmissionDataColAndVis (transmissionData : list Transmission.t)
    (transmissionIndices : gmap string (list nat)) (nodes : list Node)
    (visibility : list nat) (geoResolution : string) (nodeColors : list string)
  : Eff (list Transmission.t) :=
  forEachM (fun transmissionDataCopy node =>
              match children node with
              | Some cs =>
                  forEachM (updateEdge transmissionIndices visibility geoResolution
                              nodeColors node) cs transmissionDataCopy
              | None => ret transmissionDataCopy
              end)
           nodes transmissionData.

(** [undefined] collections are [None]. *)
Definition updateDemeAndTransmissionDataColAndVis
    (demeData : option (list Deme.t)) (transmissionData : option (list Transmission.t))
    (demeIndices transmissionIndices : gmap string (list nat)) (nodes : list Node)
    (visibility : list nat) (geoResolution : string) (nodeColors : list string)
    (pieChart : bool)
  : Eff (option (list Deme.t) * option (list Transmission.t)) :=
  match demeData, transmissionData with
  | Some demeData, Some transmissionData =>
      let* newDemes :=
        updateDemeDataColAndVis demeData demeIndices nodes visibility
          geoResolution nodeColors pieChart in
      let* newTransmissions :=
        updateTransmissionDataColAndVis transmissionData transmissionIndices
          nodes visibility geoResolution nodeColors in
      ret (Some newDemes, Some newTransmissions)
  | _, _ => ret (None, None)
  end.

(** *** Zoom level change *)

Definition updateDemeDataLatLong (demeData : list Deme.t) (map : LeafletMap)
  : list Deme.t :=
  List.map (fun d =>
    {| Deme.name := Deme.name d; Deme.count := Deme.count d;
       Deme.latitude := Deme.latitude d; Deme.longitude := Deme.longitude d;
       Deme.coords :=
         leafletLatLongToLayerPoint (Num (Deme.latitude d)) (Num (Deme.longitude d)) map;
       Deme.arcs := Deme.arcs d; Deme.color := Deme.color d |}) demeData.

Definition updateTransmissionDataLatLong (transmissionData : list Transmission.t)
    (map : LeafletMap) : list Transmission.t :=
  List.map (fun transmission =>
    let originCoords :=
      leafletLatLongToLayerPoint (Transmission.originLatitude transmission)
        (Transmission.originLongitude transmission) map in
    let destinationCoords :=
      leafletLatLongToLayerPoint (Transmission.destinationLatitude transmission)
        (Transmission.destinationLongitude transmission) map in
    {| Transmission.id := Transmission.id transmission;
       Transmission.originNode := Transmission.originNode transmission;
       Transmission.destinationNode := Transmission.destinationNode transmission;
       Transmission.bezierCurve :=
         constructBcurve originCoords destinationCoords (Transmission.extend transmission);
       Transmission.bezierDates := Transmission.bezierDates transmission;
       Transmission.originName := Transmission.originName transmission;
       Transmission.destinationName := Transmission.destinationName transmission;
       Transmission.originCoords := originCoords;
       Transmission.destinationCoords := destinationCoords;
       Transmission.originLatitude := Transmission.originLatitude transmission;
       Transmission.destinationLatitude := Transmission.destinationLatitude transmission;
       Transmission.originLongitude := Transmission.originLongitude transmission;
       Transmission.destinationLongitude := Transmission.destinationLongitude transmission;
       Transmission.originNumDate := Transmission.originNumDate transmission;
       Transmission.destinationNumDate := Transmission.destinationNumDate transmission;
       Transmission.color := Transmission.color transmission;
       Transmission.visible := Transmission.visible transmission;
       Transmission.extend := Transmission.extend transmission |}) transmissionData.

Definition updateDemeAndTransmissionDataLatLong
    (demeData : option (list Deme.t)) (transmissionData : option (list Transmission.t))
    (map : LeafletMap)
  : option (list Deme.t) * option (list Transmission.t) :=
  match demeData, transmissionData with
  | Some demeData, Some transmissionData =>
      (Some (updateDemeDataLatLong demeData map),
       Some (updateTransmissionDataLatLong transmissionData map))
  | _, _ => (None, None)
  end.

End MapHelpers.

(** ** Vocabulary of the properties *)

Section Vocabulary.
Context `{Externals}.

(** Node [n], at position [i], is a tip whose trait is set and names
    [location], and whose colour is [color]. *)
Definition contributes (geoResolution : string) (nodeColors : list string)
    (location color : string) (i : nat) (n : Node) : bool :=
  bool_decide (children n = None)
  && truthy (getTraitFromNode n geoResolution)
  && bool_decide (ToString (getTraitFromNode n geoResolution) = location)
  && bool_decide (colorKey (nodeColors !! i) = color).

(** How many nodes satisfy [P], positions counted from [i]. *)
Fixpoint tally (P : nat -> Node -> bool) (nodes : list Node) (i : nat) : nat :=
  match nodes with
  | [] => 0
  | n :: nodes' => (if P i n then 1 else 0) + tally P nodes' (S i)
  end.

(** [demeToColorMap[location][color]], if both keys are present. *)
Definition countAt (demeToColorMap : Obj (Obj ColorCount)) (location color : string)
  : option ColorCount :=
  match obj_get demeToColorMap location with
  | Some colorCounts => obj_get colorCounts color
  | None => None
  end.

(** The positions, counted from [i], of the elements of [l] whose key is [k]. *)
Fixpoint positions {A} (key : A -> string) (k : string) (l : list A) (i : nat) : list nat :=
  match l with
  | [] => []
  | a :: l' => (if bool_decide (key a = k) then [i] else []) ++ positions key k l' (S i)
  end.

(** The index map of a collection: every key with its positions. *)
Definition indexBy {A} (key : A -> string) (l : list A) : gmap string (list nat) :=
  forEachIdx (fun indices i a => pushIndex indices (key a) i) l 0 ∅.

(** The deme that one location gives at one offset, if it gives one. *)
Definition demeAt (pieChart : bool) (table : gmap string LatLong) (map : LeafletMap)
    (OFFSET : Q) (demeDataIdx : nat) (entry : string * Obj ColorCount) : option Deme.t :=
  match table !! entry.1 with
  | Some g =>
      let long := (longitude g + OFFSET)%Q in
      if num_gt (Num long) westBound && num_lt (Num long) eastBound then
        Some (newDeme pieChart entry.1 entry.2 (latitude g) long
                (leafletLatLongToLayerPoint (Num (latitude g)) (Num long) map)
                demeDataIdx)
      else None
  | None => None
  end.

(** What the deme build prints for one location at one offset. *)
Definition warningAt (table : gmap string LatLong) (entry : string * Obj ColorCount)
  : list Diag :=
  match table !! entry.1 with
  | Some _ => []
  | None => [Warn ["Warning: Lat/long missing from metadata for"; entry.1]]
  end.

(** The state of the deme build after one more location. *)
Definition pushDeme (pieChart : bool) (table : gmap string LatLong) (map : LeafletMap)
    (OFFSET : Q) (st : list Deme.t * gmap string (list nat) * nat)
    (entry : string * Obj ColorCount) : list Deme.t * gmap string (list nat) * nat :=
  match demeAt pieChart table map OFFSET (length st.1.1) entry with
  | Some d => (st.1.1 ++ [d], pushIndex st.1.2 (Deme.name d) st.2, S st.2)
  | None => st
  end.

(** The deme collection after one more location. *)
Definition appendDeme (pieChart : bool) (table : gmap string LatLong) (map : LeafletMap)
    (OFFSET : Q) (demeData : list Deme.t) (entry : string * Obj ColorCount)
  : list Deme.t :=
  match demeAt pieChart table map OFFSET (length demeData) entry with
  | Some d => demeData ++ [d]
  | None => demeData
  end.

(** The deme collection after all offsets. *)
Definition demeList (pieChart : bool) (table : gmap string LatLong) (map : LeafletMap)
    (offsets : list Q) (demeToColorMap : Obj (Obj ColorCount)) : list Deme.t :=
  foldl (fun demeData OFFSET =>
           foldl (appendDeme pieChart table map OFFSET) demeData (entries demeToColorMap))
        [] offsets.

(** The demes, the index map and the counter after all offsets. *)
Definition demeFold (pieChart : bool) (table : gmap string LatLong) (map : LeafletMap)
    (offsets : list Q) (demeToColorMap : Obj (Obj ColorCount))
  : list Deme.t * gmap string (list nat) * nat :=
  foldl (fun st OFFSET => foldl (pushDeme pieChart table map OFFSET) st
                            (entries demeToColorMap))
        ([], ∅, 0) offsets.

(** A blended deme with the count and colour of [colorCounts]. *)
Definition repaint (colorCounts : Obj ColorCount) (d : Deme.t) : Deme.t :=
  setColor (setCount d (sumVisible colorCounts)) (averageColorsDict colorCounts).


(** Transmission [t] is a candidate of the edge from [n] to [child], both
    of whose places the table lists. *)
Definition candidateOf (tbl : gmap string (gmap string LatLong)) (res : string)
    (n child : Node) (offsetOrig : Q) (t : Transmission.t) : Prop :=
  Transmission.id t = transmissionId n child
  /\ Transmission.originName t = getTraitFromNode n res
  /\ Transmission.destinationName t = getTraitFromNode child res
  /\ exists gO gD offsetDest,
       lookupLatLong tbl res (getTraitFromNode n res) = Some gO
       /\ lookupLatLong tbl res (getTraitFromNode child res) = Some gD
       /\ offsetDest ∈ [-360; 0; 360]%Q
       /\ Transmission.originLongitude t = Num (longitude gO + offsetOrig)
       /\ Transmission.destinationLongitude t = Num (longitude gD + offsetDest).

(** The set of diagnostics holds every end point of the edge that the
    table does not list. *)
Definition endpointsReported (tbl : gmap string (gmap string LatLong)) (res : string)
    (n child : Node) (missing : list JsVal) : Prop :=
  (lookupLatLong tbl res (getTraitFromNode n res) = None
     -> getTraitFromNode n res ∈ missing)
  /\ (lookupLatLong tbl res (getTraitFromNode child res) = None
     -> getTraitFromNode child res ∈ missing).

(** The edge from [n] to [child] passes the guard of the build. *)
Definition crossesDemes (res : string) (n child : Node) : Prop :=
  truthy (getTraitFromNode n res) = true
  /\ truthy (getTraitFromNode child res) = true
  /\ getTraitFromNode n res ≠ getTraitFromNode child res.

(** Some destination offset makes a valid pair with this origin offset. *)
Definition hasValidCandidate (tbl : gmap string (gmap string LatLong)) (res : string)
    (n child : Node) (offsetOrig : Q) : Prop :=
  exists gO gD offsetDest,
    lookupLatLong tbl res (getTraitFromNode n res) = Some gO
    /\ lookupLatLong tbl res (getTraitFromNode child res) = Some gD
    /\ offsetDest ∈ [-360; 0; 360]%Q
    /\ validPair (Num (longitude gO + offsetOrig)) (Num (longitude gD + offsetDest)) = true.

(** The build state [st'] extends [st]: transmissions were appended and
    the diagnostics kept. *)
Definition grows (st st' : TransmissionState) : Prop :=
  (exists new, ts_data st' = ts_data st ++ new)
  /\ (forall v, v ∈ ts_missing st -> v ∈ ts_missing st').

(** The edge from [n] to [child] has been dealt with: if it passes the
    guard, its unlisted end points are reported and every origin offset
    with a valid candidate has a transmission. *)
Definition edgeDone (tbl : gmap string (gmap string LatLong)) (res : string)
    (offsets : list Q) (n child : Node) (st : TransmissionState) : Prop :=
  crossesDemes res n child ->
  endpointsReported tbl res n child (ts_missing st)
  /\ forall offO, offO ∈ offsets -> hasValidCandidate tbl res n child offO ->
       exists t, t ∈ ts_data st /\ candidateOf tbl res n child offO t.

(** Every transmission built so far is a candidate of an edge that passes
    the guard. *)
Definition allCandidates (tbl : gmap string (gmap string LatLong)) (res : string)
    (st : TransmissionState) : Prop :=
  Forall (fun t => exists n child offO,
            crossesDemes res n child /\ candidateOf tbl res n child offO t)
         (ts_data st).

(** The name and raw longitude of the deme that one location gives at one
    offset, if it gives one. *)
Definition placeAt (table : gmap string LatLong) (OFFSET : Q)
    (entry : string * Obj ColorCount) : option (string * Q) :=
  match table !! entry.1 with
  | Some g =>
      let long := (longitude g + OFFSET)%Q in
      if num_gt (Num long) westBound && num_lt (Num long) eastBound
      then Some (entry.1, long) else None
  | None => None
  end.

(** Node [n] is a tip whose trait is set and names [location]. *)
Definition tipAt (geoResolution location : string) (n : Node) : bool :=
  bool_decide (children n = None)
  && truthy (getTraitFromNode n geoResolution)
  && bool_decide (ToString (getTraitFromNode n geoResolution) = location).

(** The sum of the visible counts of a dictionary, in insertion order. *)
Definition totalVisible (colorCounts : Obj ColorCount) : nat :=
  sum_list_with (fun e => nVisible e.2) colorCounts.

(** Slices that start at [start] and each start where the one before ends. *)
Fixpoint contiguous (start : number) (angles : list (number * number)) : Prop :=
  match angles with
  | [] => True
  | (s, e) :: angles' => s = start /\ contiguous e angles'
  end.

(** How many of the slices, at positions [i], [i + 1], ..., carry a
    colour that is not the colour key at their position. *)
Fixpoint mismatches (colors : list string) (arcs : list Arc.t) (i : nat) : nat :=
  match arcs with
  | [] => 0
  | a :: arcs' =>
      (if bool_decide (Arc.color a ≠ colors !! i) then 1 else 0)
      + mismatches colors arcs' (S i)
  end.

(** Slice [a'] is slice [a] up to its two angles. *)
Definition sliceKept (a a' : Arc.t) : Prop :=
  Arc.data a' = Arc.data a /\ Arc.value a' = Arc.value a /\ Arc.index a' = Arc.index a
  /\ Arc.padAngle a' = Arc.padAngle a /\ Arc.color a' = Arc.color a
  /\ Arc.innerRadius a' = Arc.innerRadius a /\ Arc.demeDataIdx a' = Arc.demeDataIdx a.

(** Deme [d'] is deme [d] up to what the colour/visibility update of its
    rendering mode may write: the count, and the colour (blended) or the
    angles of the slices (pie). *)
Definition demeKept (pieChart : bool) (d d' : Deme.t) : Prop :=
  Deme.name d' = Deme.name d /\ Deme.latitude d' = Deme.latitude d
  /\ Deme.longitude d' = Deme.longitude d /\ Deme.coords d' = Deme.coords d
  /\ if pieChart then
       Deme.color d' = Deme.color d
       /\ option_Forall2 (Forall2 sliceKept) (Deme.arcs d) (Deme.arcs d')
     else Deme.arcs d' = Deme.arcs d.

(** A count after [total] more tips, [visible] of them visible. *)
Definition bump (o : option ColorCount) (total visible : nat) : option ColorCount :=
  match o with
  | Some c => Some {| nVisible := nVisible c + visible; nTotal := nTotal c + total |}
  | None =>
      if Nat.eqb total 0 then None
      else Some {| nVisible := visible; nTotal := total |}
  end.

End Vocabulary.

(** The same services, with every falsy trait read as [undefined]. *)
Definition onlyTruthyTraits (E : Externals) : Externals := {|
  getTraitFromNode := fun n trait =>
    let v := @getTraitFromNode E n trait in
    if truthy v then v else JUndefined;
  NODE_NOT_VISIBLE := @NODE_NOT_VISIBLE E;
  bezier := @bezier E;
  pie := @pie E;
  averageColorsDict := @averageColorsDict E
|}.

(** ** Sample services and data, for evaluation *)

Module Sample.

(** The trait is read from the node's attributes. *)
Definition trait (n : Node) (key : string) : JsVal :=
  default JUndefined (obj_get (node_attrs n) key).

(** A three-point curve through a raised midpoint. *)
Definition curve (p0 p1 : Point) (extend : nat) : list Point :=
  [p0;
   {| x := (x p0 + x p1) / 2;
      y := (y p0 + y p1) / 2 + inject_Z (Z.of_nat extend) |};
   p1].

(** Slices laid out in input order over a full turn. *)
Fixpoint slices (values : list nat) (total : nat) (i : nat) (from : Q) : list Arc.t :=
  match values with
  | [] => []
  | v :: values' =>
      let to :=
        (from + 2 * Math_PI * inject_Z (Z.of_nat v) / inject_Z (Z.of_nat total))%Q in
      {| Arc.data := v; Arc.value := v; Arc.index := i;
         Arc.startAngle := Num from; Arc.endAngle := Num to;
         Arc.padAngle := Num 0; Arc.color := None;
         Arc.innerRadius := None; Arc.demeDataIdx := None |}
      :: slices values' total (S i) to
  end.

(** The colour with most visible tips. *)
Definition dominant (colorCounts : Obj ColorCount) : string :=
  (foldl (fun best e => if Nat.ltb (nVisible best.2) (nVisible e.2) then e else best)
         ("none", emptyCount) (entries colorCounts)).1.

#[export] Instance services : Externals := {|
  getTraitFromNode := trait;
  NODE_NOT_VISIBLE := 0;
  bezier := curve;
  pie := fun values => slices values (foldr Nat.add 0 values) 0 0%Q;
  averageColorsDict := dominant
|}.

(** Equirectangular projection. *)
Definition flat : LeafletMap :=
  {| latLngToLayerPoint := fun lat long =>
       match lat, long with
       | Num la, Num lo => {| x := lo; y := la |}
       | _, _ => {| x := 0; y := 0 |}
       end |}.

(** The same projection, zoomed in by a factor of two. *)
Definition zoomed : LeafletMap :=
  {| latLngToLayerPoint := fun lat long =>
       match lat, long with
       | Num la, Num lo => {| x := 2 * lo; y := 2 * la |}
       | _, _ => {| x := 0; y := 0 |}
       end |}.

Definition tip (i : nat) (date : Q) (location : string) : Node :=
  {| arrayIdx := i; num_date := date;
     node_attrs := [("country", JStr location)]; children := None |}.

Definition inner (i : nat) (date : Q) (location : string) (cs : list Node) : Node :=
  {| arrayIdx := i; num_date := date;
     node_attrs := [("country", JStr location)]; children := Some cs |}.

Definition world (places : list (string * LatLong)) : Metadata :=
  {| geographicInfo := {[ "country" := list_to_map places ]} |}.

(** A small tree: an internal node at A with two tips at A and one at B. *)
Definition tipA1 : Node := tip 1 2001 "A".
Definition tipA2 : Node := tip 2 2002 "A".
Definition tipB : Node := tip 3 2003 "B".
Definition root : Node := inner 0 2000 "A" [tipA1; tipA2; tipB].
Definition tree : list Node := [root; tipA1; tipA2; tipB].

(** A and B lie 200 degrees of longitude apart. *)
Definition placeA : LatLong := {| latitude := 10; longitude := 100 |}.
Definition placeB : LatLong := {| latitude := 20; longitude := -100 |}.
Definition places : Metadata := world [("A", placeA); ("B", placeB)].

Definition visibility0 : list nat := [2; 2; 0; 2].
Definition colours0 : list string := ["grey"; "red"; "blue"; "red"].
Definition visibility1 : list nat := [2; 2; 2; 0].
Definition colours1 : list string := ["black"; "green"; "green"; "red"].

(** New colours for the same tips, all visible. *)
Definition visibility2 : list nat := [2; 2; 2; 2].
Definition colours2 : list string := ["black"; "green"; "yellow"; "red"].

(** A tip whose trait is the empty string. *)
Definition tipBlank : Node := tip 5 2005 EmptyString.

(** The same tree with one more tip, at a place the table does not list. *)
Definition tipX : Node := tip 4 2004 "X".
Definition rootX : Node := inner 0 2000 "A" [tipA1; tipA2; tipB; tipX].
Definition treeX : list Node := [rootX; tipA1; tipA2; tipB; tipX].
Definition visibilityX : list nat := [2; 2; 0; 2; 2].
Definition coloursX : list string := ["grey"; "red"; "blue"; "red"; "red"].

End Sample.

(** What a computation returned, if it completed normally. *)
Definition returned {A} (m : Eff A) : option A :=
  match m.2 with
  | Normal a => Some a
  | Throw _ => None
  end.

(** The colours of the slices of a deme. *)
Definition arcColours (d : Deme.t) : list (option string) :=
  Arc.color <$> default [] (Deme.arcs d).

(** The angles of the slices of a deme. *)
Definition arcAngles (d : Deme.t) : list (number * number) :=
  (fun a => (Arc.startAngle a, Arc.endAngle a)) <$> default [] (Deme.arcs d).

(** What a transmission shows of colour and visibility. *)
Definition colAndVis (t : Transmission.t) : string * option string * string :=
  (Transmission.id t, Transmission.color t, Transmission.visible t).


(** * Properties *)

(** ** Numbers *)

Lemma Qltb_lt (a b : Q) : Qltb a b = true <-> (a < b)%Q.
Proof.
  unfold Qltb. rewrite negb_true_iff, <- not_true_iff_false, Qle_bool_iff.
  split; [apply Qnot_le_lt | apply Qlt_not_le].
Qed.

Lemma Qabs_lt_iff (a b : Q) : (Qabs a < b)%Q <-> (- b < a /\ a < b)%Q.
Proof. apply Qabs_Qlt_condition. Qed.

Lemma Qabs_eq_cases (a b : Q) : (Qabs a == b -> a == b \/ a == - b)%Q.
Proof. apply Qabs_case; intros Hs Hab; [left; exact Hab | right; lra]. Qed.


(** ** The validity of a candidate *)

Lemma maybeGetTransmissionPair_eq latOrig longOrig latDest longDest map :
  maybeGetTransmissionPair latOrig longOrig latDest longDest map =
  if validPair longOrig longDest
  then Some (latLngToLayerPoint map latOrig longOrig, latLngToLayerPoint map latDest longDest)
  else None.
Proof. reflexivity. Qed.

Lemma validPair_Num (o d : Q) :
  validPair (Num o) (Num d) = true <->
  ((-360 < o \/ -360 < d) /\ (o < 360 \/ d < 360) /\ (-180 < o - d /\ o - d < 180))%Q.
Proof.
  unfold validPair, westBound, eastBound. cbn [num_gt num_lt num_sub num_abs].
  rewrite !andb_true_iff, !orb_true_iff, !Qltb_lt, Qabs_lt_iff.
  intuition.
Qed.

Lemma validPair_NaN_l (d : number) : validPair NaN d = false.
Proof. unfold validPair. destruct d; cbn; auto using andb_false_r. Qed.

Lemma validPair_NaN_r (o : number) : validPair o NaN = false.
Proof. unfold validPair. destruct o; cbn; auto using andb_false_r. Qed.

(** C6.  With numeric longitudes, [maybeGetTransmissionPair] produces a
    pair (rather than null) iff one of the two longitudes lies within
    (-360, 360), one of them is below 360, and they are less than 180
    apart; the pair it produces is the two projected end points. *)
Theorem transmission_pair_valid_iff
    (latOrig latDest : number) (longOrig longDest : Q) (map : LeafletMap) :
  (is_Some (maybeGetTransmissionPair latOrig (Num longOrig) latDest (Num longDest) map)
   <-> (((-360 < longOrig /\ longOrig < 360) \/ (-360 < longDest /\ longDest < 360))
        /\ (longOrig < 360 \/ longDest < 360)
        /\ Qabs (longOrig - longDest) < 180)%Q)
  /\ (forall pair,
        maybeGetTransmissionPair latOrig (Num longOrig) latDest (Num longDest) map = Some pair ->
        pair = (latLngToLayerPoint map latOrig (Num longOrig),
                latLngToLayerPoint map latDest (Num longDest))).
Proof.
  rewrite maybeGetTransmissionPair_eq. split.
  - rewrite Qabs_lt_iff.
    destruct (validPair (Num longOrig) (Num longDest)) eqn:E.
    + apply validPair_Num in E. split; [intros _ | eauto].
      destruct E as (Hw & He & Ha).
      split; [|split; [exact He | exact Ha]].
      destruct (Qlt_le_dec longOrig 360), (Qlt_le_dec (-360) longOrig),
        (Qlt_le_dec longDest 360), (Qlt_le_dec (-360) longDest);
        first [left; split; lra | right; split; lra | exfalso; lra].
    + split; [intros [? ?]; discriminate|]. intros (Hw & He & Ha).
      apply not_true_iff_false in E. exfalso. apply E. apply validPair_Num.
      split; [|split; [exact He | exact Ha]].
      destruct Hw as [[? ?]|[? ?]]; [left|right]; assumption.
  - intros pair. case_match; congruence.
Qed.

(** ** Effects *)

Lemma bind_ret_l {A B} (a : A) (f : A -> Eff B) : bind (ret a) f = f a.
Proof. unfold bind, ret. destruct (f a). reflexivity. Qed.

Lemma forEachM_cons {A St} (f : St -> A -> Eff St) (a : A) (l : list A) (s : St) :
  forEachM f (a :: l) s = bind (f s a) (forEachM f l).
Proof. reflexivity. Qed.

Lemma forEachM_ret {A St} (f : St -> A -> Eff St) (l : list A) (s : St) :
  (forall s a, a ∈ l -> f s a = ret s) -> forEachM f l s = ret s.
Proof.
  induction l as [|a l IH]; intros Hf; [reflexivity|].
  cbn [forEachM]. rewrite Hf by left. rewrite bind_ret_l. apply IH.
  intros s' a' Ha'. apply Hf. right. exact Ha'.
Qed.

(** ** Dictionaries *)

Lemma obj_get_set {V} (o : Obj V) (k k' : string) (v : V) :
  obj_get (obj_set o k v) k' = if String.eqb k' k then Some v else obj_get o k'.
Proof.
  induction o as [|[k0 v0] o IH]; cbn [obj_set obj_get].
  - reflexivity.
  - destruct (String.eqb_spec k k0) as [->|Hk]; cbn [obj_get].
    + destruct (String.eqb_spec k' k0); reflexivity.
    + rewrite IH. destruct (String.eqb_spec k' k0) as [->|Hk'].
      * destruct (String.eqb_spec k0 k); [congruence|reflexivity].
      * reflexivity.
Qed.

Section Candidates.
Context `{Externals}.

Lemma maybeConstruct_found node child tbl res cols vis map offO offD missing extend gO gD :
  lookupLatLong tbl res (getTraitFromNode node res) = Some gO ->
  lookupLatLong tbl res (getTraitFromNode child res) = Some gD ->
  validPair (Num (longitude gO + offO)) (Num (longitude gD + offD)) = false ->
  maybeConstructTransmissionEvent node child tbl res cols vis map offO offD missing extend
  = (None, missing).
Proof.
  intros HO HD Hv. unfold maybeConstructTransmissionEvent.
  rewrite HO, HD, maybeGetTransmissionPair_eq. cbn [num_add].
  rewrite Hv. reflexivity.
Qed.

Lemma maybeConstruct_valid node child tbl res cols vis map offO offD missing extend gO gD :
  lookupLatLong tbl res (getTraitFromNode node res) = Some gO ->
  lookupLatLong tbl res (getTraitFromNode child res) = Some gD ->
  validPair (Num (longitude gO + offO)) (Num (longitude gD + offD)) = true ->
  exists t,
    maybeConstructTransmissionEvent node child tbl res cols vis map offO offD missing extend
    = (Some t, missing)
    /\ Transmission.id t = transmissionId node child
    /\ Transmission.originLongitude t = Num (longitude gO + offO)
    /\ Transmission.destinationLongitude t = Num (longitude gD + offD).
Proof.
  intros HO HD Hv. unfold maybeConstructTransmissionEvent.
  rewrite HO, HD, maybeGetTransmissionPair_eq. cbn [num_add].
  rewrite Hv. eexists. split; [reflexivity|]. cbn. auto.
Qed.

(** C3 (amended).  For an edge whose raw longitudes are 200 degrees
    apart, a candidate over offsets from {-360, 0, 360} passes the
    180-degree check exactly when its two offset longitudes are 160
    degrees apart, which one destination offset achieves for origin
    offset 0; with both places listed and both raw longitudes within
    [-180, 180], the build without triplication appends exactly one
    transmission for that edge, its destination wrapped by 360. *)
Theorem edge_200_degrees_apart (n child : Node) tbl res gO gD cols vis map st :
  truthy (getTraitFromNode n res) = true ->
  truthy (getTraitFromNode child res) = true ->
  getTraitFromNode n res ≠ getTraitFromNode child res ->
  lookupLatLong tbl res (getTraitFromNode n res) = Some gO ->
  lookupLatLong tbl res (getTraitFromNode child res) = Some gD ->
  (Qabs (longitude gO - longitude gD) == 200)%Q ->
  (-180 <= longitude gO /\ longitude gO <= 180)%Q ->
  (-180 <= longitude gD /\ longitude gD <= 180)%Q ->
  (forall a b, a ∈ [-360; 0; 360]%Q -> b ∈ [-360; 0; 360]%Q ->
     num_lt (num_abs (num_sub (Num (longitude gO + a)) (Num (longitude gD + b)))) (Num 180) = true
     <-> (Qabs ((longitude gO + a) - (longitude gD + b)) == 160)%Q)
  /\ (exists t d,
        ts_data (setupEdge n tbl res cols vis map (offsetsOf false) st child) = ts_data st ++ [t]
        /\ Transmission.id t = transmissionId n child
        /\ Transmission.originLongitude t = Num (longitude gO + 0)
        /\ Transmission.destinationLongitude t = Num d
        /\ (Qabs (longitude gO + 0 - d) == 160)%Q).
Proof.
  intros Hn Hc Hne HO HD Habs [HO1 HO2] [HD1 HD2].
  apply Qabs_eq_cases in Habs.
  split.
  - intros a b Ha Hb. cbn [num_sub num_abs num_lt]. rewrite Qltb_lt, Qabs_lt_iff.
    rewrite !elem_of_cons, elem_of_nil in Ha, Hb.
    destruct Ha as [->|[->|[->|[]]]], Hb as [->|[->|[->|[]]]];
      (split; [intros [? ?] | intros Hq; apply Qabs_eq_cases in Hq]);
      try (exfalso; destruct Habs; lra);
      try (destruct Habs, Hq; lra).
    all: destruct Habs.
    all: try (exfalso; lra).
    all: try (rewrite Qabs_neg by lra; lra).
    all: try (rewrite Qabs_pos by lra; lra).
  - unfold setupEdge. rewrite Hn, Hc. unfold strict_ne.
    rewrite bool_decide_eq_true_2 by exact Hne.
    cbn [andb offsetsOf pushClosestEvents foldl].
    set (extend := default 0 _).
    set (counts := match ts_counts st !! _ with Some _ => _ | None => _ end).
    unfold maybeGetClosestTransmissionEvent. cbn [foldl].
    destruct Habs as [Hd|Hd].
    + rewrite (maybeConstruct_found _ _ _ _ _ _ _ _ _ _ _ _ _ HO HD)
        by (apply not_true_iff_false; rewrite validPair_Num; lra).
      rewrite (maybeConstruct_found _ _ _ _ _ _ _ _ _ _ _ _ _ HO HD)
        by (apply not_true_iff_false; rewrite validPair_Num; lra).
      destruct (maybeConstruct_valid n child tbl res cols vis map 0 360
                  (ts_missing st) extend gO gD HO HD)
        as (t & -> & Hid & HtO & HtD); [rewrite validPair_Num; lra|].
      cbn [foldl ts_data minBy minBy_from app].
      exists t, (longitude gD + 360)%Q. repeat split; auto.
      rewrite Qabs_neg by lra. lra.
    + destruct (maybeConstruct_valid n child tbl res cols vis map 0 (-360)
                  (ts_missing st) extend gO gD HO HD)
        as (t & -> & Hid & HtO & HtD); [rewrite validPair_Num; lra|].
      rewrite (maybeConstruct_found _ _ _ _ _ _ _ _ _ _ _ _ _ HO HD)
        by (apply not_true_iff_false; rewrite validPair_Num; lra).
      rewrite (maybeConstruct_found _ _ _ _ _ _ _ _ _ _ _ _ _ HO HD)
        by (apply not_true_iff_false; rewrite validPair_Num; lra).
      cbn [foldl ts_data minBy minBy_from app].
      exists t, (longitude gD + -360)%Q. repeat split; auto.
      rewrite Qabs_pos by lra. lra.
Qed.

(** ** Dates along a curve *)



(** ** Zoom level change *)

(** C9.  The projection update gives every deme new [coords] and every
    transmission new end points, both projected from the stored raw
    latitude and longitude, and a curve rebuilt from them with the
    stored [extend]; every other field of every deme and transmission
    is as before.  It takes neither index map, nor the nodes, visibility
    or colours, so it cannot change the one or recompute from the
    others. *)
Theorem projection_update_frame (demeData : list Deme.t)
    (transmissionData : list Transmission.t) (map : LeafletMap) :
  exists newDemes newTransmissions,
    updateDemeAndTransmissionDataLatLong (Some demeData) (Some transmissionData) map
      = (Some newDemes, Some newTransmissions)
    /\ Forall2 (fun d d' =>
         Deme.coords d' = latLngToLayerPoint map (Num (Deme.latitude d)) (Num (Deme.longitude d))
         /\ Deme.name d' = Deme.name d /\ Deme.count d' = Deme.count d
         /\ Deme.latitude d' = Deme.latitude d /\ Deme.longitude d' = Deme.longitude d
         /\ Deme.arcs d' = Deme.arcs d /\ Deme.color d' = Deme.color d)
        demeData newDemes
    /\ Forall2 (fun t t' =>
         Transmission.originCoords t'
           = latLngToLayerPoint map (Transmission.originLatitude t)
               (Transmission.originLongitude t)
         /\ Transmission.destinationCoords t'
           = latLngToLayerPoint map (Transmission.destinationLatitude t)
               (Transmission.destinationLongitude t)
         /\ Transmission.bezierCurve t'
           = bezier (Transmission.originCoords t') (Transmission.destinationCoords t')
               (Transmission.extend t)
         /\ Transmission.id t' = Transmission.id t
         /\ Transmission.originNode t' = Transmission.originNode t
         /\ Transmission.destinationNode t' = Transmission.destinationNode t
         /\ Transmission.bezierDates t' = Transmission.bezierDates t
         /\ Transmission.originName t' = Transmission.originName t
         /\ Transmission.destinationName t' = Transmission.destinationName t
         /\ Transmission.originLatitude t' = Transmission.originLatitude t
         /\ Transmission.destinationLatitude t' = Transmission.destinationLatitude t
         /\ Transmission.originLongitude t' = Transmission.originLongitude t
         /\ Transmission.destinationLongitude t' = Transmission.destinationLongitude t
         /\ Transmission.originNumDate t' = Transmission.originNumDate t
         /\ Transmission.destinationNumDate t' = Transmission.destinationNumDate t
         /\ Transmission.color t' = Transmission.color t
         /\ Transmission.visible t' = Transmission.visible t
         /\ Transmission.extend t' = Transmission.extend t)
        transmissionData newTransmissions.
Proof.
  eexists _, _. split; [reflexivity|]. split.
  - unfold updateDemeDataLatLong. induction demeData as [|d l IH]; constructor; [|exact IH].
    cbn. repeat split.
  - unfold updateTransmissionDataLatLong.
    induction transmissionData as [|t l IH]; constructor; [|exact IH].
    cbn. repeat split.
Qed.

(** ** The update of transmissions *)

Lemma strict_ne_refl (v : JsVal) : strict_ne v v = false.
Proof.
  unfold strict_ne. apply bool_decide_eq_false_2. intros Hv. apply Hv. reflexivity.
Qed.

Lemma updateEdge_unchanged idx vis res cols node data child :
  updateEdge idx vis res cols node data child = ret data.
Proof.
  unfold updateEdge. rewrite strict_ne_refl, andb_false_r. reflexivity.
Qed.

(** Both locations of the updater are read from the parent, so no edge
    passes its guard. *)
Lemma updateTransmissionDataColAndVis_unchanged data idx nodes vis res cols :
  updateTransmissionDataColAndVis data idx nodes vis res cols = ret data.
Proof.
  unfold updateTransmissionDataColAndVis. apply forEachM_ret.
  intros s node _. destruct (children node) as [cs|]; [|reflexivity].
  apply forEachM_ret. intros s' child _. apply updateEdge_unchanged.
Qed.

(** ** The colour counts *)

Lemma bump_bump o t1 v1 t2 v2 :
  v1 <= t1 -> bump (bump o t1 v1) t2 v2 = bump o (t1 + t2) (v1 + v2).
Proof.
  intros Hle. destruct o as [c|]; cbn [bump nVisible nTotal].
  - f_equal. f_equal; lia.
  - destruct t1 as [|t1]; cbn [Nat.eqb bump Nat.add nVisible nTotal].
    + replace v1 with 0 by lia. reflexivity.
    + reflexivity.
Qed.

Lemma bump_0 o : bump o 0 0 = o.
Proof. destruct o as [[v t]|]; cbn; [|reflexivity]. f_equal. f_equal; lia. Qed.

Lemma countAt_countTip vis res cols M i n location color :
  countAt (countTip vis res cols M i n) location color
  = bump (countAt M location color)
         (if contributes res cols location color i n then 1 else 0)
         (if contributes res cols location color i n && isVisible vis i then 1 else 0).
Proof.
  unfold countTip, contributes.
  destruct (children n) as [cs|] eqn:Hch.
  { rewrite bool_decide_eq_true_2 by eauto.
    rewrite bool_decide_eq_false_2 by discriminate. cbn [andb]. symmetry. apply bump_0. }
  rewrite (bool_decide_eq_false_2 (is_Some None)) by (intros [? ?]; discriminate).
  rewrite (bool_decide_eq_true_2 (None = None)) by reflexivity. cbn [andb].
  destruct (truthy (getTraitFromNode n res)) eqn:Ht; cbn [negb andb];
    [|symmetry; apply bump_0].
  set (loc := ToString (getTraitFromNode n res)).
  set (col := colorKey (cols !! i)).
  unfold countAt. rewrite obj_get_set.
  destruct (String.eqb_spec location loc) as [->|Hloc].
  - rewrite bool_decide_eq_true_2 by reflexivity. cbn [andb].
    rewrite obj_get_set.
    destruct (String.eqb_spec color col) as [->|Hcol].
    + rewrite bool_decide_eq_true_2 by reflexivity.
      destruct (obj_get M loc) as [cc|]; cbn [from_option id obj_get].
      * destruct (obj_get cc col) as [c|]; destruct (isVisible vis i);
          cbn [from_option id bump Nat.eqb andb nVisible nTotal emptyCount];
          f_equal; f_equal; lia.
      * destruct (isVisible vis i); reflexivity.
    + rewrite bool_decide_eq_false_2 by congruence.
      destruct (obj_get M loc) as [cc|]; cbn [from_option id obj_get];
        symmetry; apply bump_0.
  - rewrite bool_decide_eq_false_2 by congruence. cbn [andb]. symmetry. apply bump_0.
Qed.

Lemma countAt_forEachIdx vis res cols nodes i M location color :
  countAt (forEachIdx (countTip vis res cols) nodes i M) location color
  = bump (countAt M location color)
         (tally (contributes res cols location color) nodes i)
         (tally (fun i n => contributes res cols location color i n && isVisible vis i)
                nodes i).
Proof.
  revert i M. induction nodes as [|n nodes IH]; intros i M; cbn [forEachIdx tally].
  - symmetry. apply bump_0.
  - rewrite IH, countAt_countTip, bump_bump; [reflexivity|].
    destruct (contributes res cols location color i n); cbn [andb]; [|lia].
    destruct (isVisible vis i); lia.
Qed.

Lemma tally_le (P Q : nat -> Node -> bool) nodes i :
  (forall i n, Q i n = true -> P i n = true) -> tally Q nodes i <= tally P nodes i.
Proof.
  intros HPQ. revert i. induction nodes as [|n nodes IH]; intros i; cbn [tally]; [lia|].
  specialize (IH (S i)). specialize (HPQ i n).
  destruct (Q i n), (P i n); try lia; specialize (HPQ eq_refl); discriminate.
Qed.

(** C7.  For every location and colour, the aggregation holds exactly
    the number of tips (nodes without children) whose trait is set and
    names that location and whose colour is that colour as [nTotal], and
    the number of those that are not "not-visible" as [nVisible]; the
    pair is absent iff no tip contributes to it; so
    0 <= nVisible <= nTotal.  (The aggregation is a function of nodes,
    visibility, resolution and colours by construction.) *)
Theorem color_counts_tally_tips nodes vis res cols location color :
  let total := tally (contributes res cols location color) nodes 0 in
  let visible :=
    tally (fun i n => contributes res cols location color i n && isVisible vis i) nodes 0 in
  match countAt (getColorsForAllDemes nodes vis res cols) location color with
  | Some c => nTotal c = total /\ nVisible c = visible /\ 0 < total
  | None => total = 0
  end
  /\ 0 <= visible <= total.
Proof.
  intros total visible. unfold getColorsForAllDemes.
  rewrite countAt_forEachIdx. fold total visible.
  assert (Hle : visible <= total).
  { apply tally_le. intros i n Hq. apply andb_true_iff in Hq. tauto. }
  split; [|lia].
  cbn [countAt obj_get bump].
  destruct total; cbn [Nat.eqb]; [reflexivity|]. cbn. repeat split; lia.
Qed.

End Candidates.

(** ** Falsy traits *)

Lemma forEachIdx_ext {A St} (f g : St -> nat -> A -> St) (l : list A) (i : nat) (s : St) :
  (forall s i a, f s i a = g s i a) -> forEachIdx f l i s = forEachIdx g l i s.
Proof.
  intros Hfg. revert i s. induction l as [|a l IH]; intros i s; cbn [forEachIdx];
    [reflexivity|]. rewrite Hfg. apply IH.
Qed.

Lemma foldl_ext_in {A B} (f g : B -> A -> B) (l : list A) (b : B) :
  (forall b a, a ∈ l -> f b a = g b a) -> foldl f b l = foldl g b l.
Proof.
  revert b. induction l as [|a l IH]; intros b Hfg; cbn [foldl]; [reflexivity|].
  rewrite Hfg by left. apply IH. intros b' a' Ha'. apply Hfg. right. exact Ha'.
Qed.

Section FalsyTraits.
Context (E : Externals).

Lemma truthy_onlyTruthy n res :
  truthy (@getTraitFromNode (onlyTruthyTraits E) n res)
  = truthy (@getTraitFromNode E n res).
Proof.
  cbn [getTraitFromNode onlyTruthyTraits].
  destruct (truthy (getTraitFromNode n res)) eqn:Ht; [exact Ht | reflexivity].
Qed.

Lemma trait_onlyTruthy n res :
  truthy (@getTraitFromNode E n res) = true ->
  @getTraitFromNode (onlyTruthyTraits E) n res = @getTraitFromNode E n res.
Proof. intros Ht. cbn [getTraitFromNode onlyTruthyTraits]. rewrite Ht. reflexivity. Qed.

Lemma countTip_falsy vis res cols M i n :
  truthy (@getTraitFromNode E n res) = false -> @countTip E vis res cols M i n = M.
Proof.
  intros Ht. unfold countTip. rewrite Ht. cbn [negb]. case_bool_decide; reflexivity.
Qed.

Lemma countTip_onlyTruthy vis res cols M i n :
  @countTip (onlyTruthyTraits E) vis res cols M i n = @countTip E vis res cols M i n.
Proof.
  destruct (truthy (@getTraitFromNode E n res)) eqn:Ht.
  - unfold countTip. rewrite truthy_onlyTruthy, (trait_onlyTruthy _ _ Ht). reflexivity.
  - rewrite (countTip_falsy _ _ _ _ _ _ Ht). unfold countTip.
    rewrite truthy_onlyTruthy, Ht. cbn [negb]. case_bool_decide; reflexivity.
Qed.

Lemma getColorsForAllDemes_onlyTruthy nodes vis res cols :
  @getColorsForAllDemes (onlyTruthyTraits E) nodes vis res cols
  = @getColorsForAllDemes E nodes vis res cols.
Proof.
  unfold getColorsForAllDemes. apply forEachIdx_ext.
  intros s i a. apply countTip_onlyTruthy.
Qed.

Lemma setupEdge_falsy_parent n tbl res cols vis map offsets st child :
  truthy (@getTraitFromNode E n res) = false ->
  @setupEdge E n tbl res cols vis map offsets st child = st.
Proof. intros Ht. unfold setupEdge. rewrite Ht. reflexivity. Qed.

Lemma setupEdge_falsy_child n tbl res cols vis map offsets st child :
  truthy (@getTraitFromNode E child res) = false ->
  @setupEdge E n tbl res cols vis map offsets st child = st.
Proof. intros Ht. unfold setupEdge. rewrite Ht, andb_false_r. reflexivity. Qed.

Lemma maybeConstruct_onlyTruthy node child tbl res cols vis map offO offD missing extend :
  truthy (@getTraitFromNode E node res) = true ->
  truthy (@getTraitFromNode E child res) = true ->
  @maybeConstructTransmissionEvent (onlyTruthyTraits E) node child tbl res cols vis map
     offO offD missing extend
  = @maybeConstructTransmissionEvent E node child tbl res cols vis map
     offO offD missing extend.
Proof.
  intros Hn Hc. unfold maybeConstructTransmissionEvent.
  rewrite (trait_onlyTruthy _ _ Hn), (trait_onlyTruthy _ _ Hc). reflexivity.
Qed.

Lemma maybeGetClosest_onlyTruthy node child tbl res cols vis map offO missing extend :
  truthy (@getTraitFromNode E node res) = true ->
  truthy (@getTraitFromNode E child res) = true ->
  @maybeGetClosestTransmissionEvent (onlyTruthyTraits E) node child tbl res cols vis map
     offO missing extend
  = @maybeGetClosestTransmissionEvent E node child tbl res cols vis map offO missing extend.
Proof.
  intros Hn Hc. unfold maybeGetClosestTransmissionEvent.
  erewrite foldl_ext_in; [reflexivity|].
  intros [evs miss] offD _. rewrite (maybeConstruct_onlyTruthy _ _ _ _ _ _ _ _ _ _ _ Hn Hc).
  reflexivity.
Qed.

Lemma pushClosestEvents_onlyTruthy n child tbl res cols vis map offsets extend data missing :
  truthy (@getTraitFromNode E n res) = true ->
  truthy (@getTraitFromNode E child res) = true ->
  @pushClosestEvents (onlyTruthyTraits E) n child tbl res cols vis map offsets extend
     data missing
  = @pushClosestEvents E n child tbl res cols vis map offsets extend data missing.
Proof.
  intros Hn Hc. unfold pushClosestEvents. apply foldl_ext_in.
  intros [d miss] offO _. rewrite (maybeGetClosest_onlyTruthy _ _ _ _ _ _ _ _ _ _ Hn Hc).
  reflexivity.
Qed.

Lemma setupEdge_onlyTruthy n tbl res cols vis map offsets st child :
  @setupEdge (onlyTruthyTraits E) n tbl res cols vis map offsets st child
  = @setupEdge E n tbl res cols vis map offsets st child.
Proof.
  destruct (truthy (@getTraitFromNode E n res)) eqn:Hn;
    [destruct (truthy (@getTraitFromNode E child res)) eqn:Hc|].
  - unfold setupEdge.
    rewrite !truthy_onlyTruthy, (trait_onlyTruthy _ _ Hn), (trait_onlyTruthy _ _ Hc).
    rewrite (pushClosestEvents_onlyTruthy _ _ _ _ _ _ _ _ _ _ _ Hn Hc). reflexivity.
  - rewrite (setupEdge_falsy_child _ _ _ _ _ _ _ _ _ Hc).
    unfold setupEdge. rewrite !truthy_onlyTruthy, Hc, andb_false_r. reflexivity.
  - rewrite (setupEdge_falsy_parent _ _ _ _ _ _ _ _ _ Hn).
    unfold setupEdge. rewrite !truthy_onlyTruthy, Hn. reflexivity.
Qed.

Lemma setupTransmissionData_onlyTruthy nodes vis res cols triplicate metadata map :
  @setupTransmissionData (onlyTruthyTraits E) nodes vis res cols triplicate metadata map
  = @setupTransmissionData E nodes vis res cols triplicate metadata map.
Proof.
  unfold setupTransmissionData.
  rewrite (foldl_ext_in
             (@setupNode (onlyTruthyTraits E) (geographicInfo metadata) res cols vis map
                (offsetsOf triplicate))
             (@setupNode E (geographicInfo metadata) res cols vis map (offsetsOf triplicate)));
    [reflexivity|].
  intros st n _. unfold setupNode. destruct (children n) as [cs|]; [|reflexivity].
  apply foldl_ext_in. intros st' child _. apply setupEdge_onlyTruthy.
Qed.

Lemma createDemeAndTransmissionData_onlyTruthy nodes vis res cols triplicate metadata map pieChart :
  @createDemeAndTransmissionData (onlyTruthyTraits E) nodes vis res cols triplicate
     metadata map pieChart
  = @createDemeAndTransmissionData E nodes vis res cols triplicate metadata map pieChart.
Proof.
  unfold createDemeAndTransmissionData, setupDemeData.
  rewrite setupTransmissionData_onlyTruthy, getColorsForAllDemes_onlyTruthy.
  reflexivity.
Qed.

(** C10.  A node whose trait for the resolution is falsy (the empty
    string, 0, false, null, undefined) leaves the colour counts as they
    were when the aggregation visits it, and an edge from it or to it
    leaves the transmissions, the counters and the diagnostics as they
    were; a whole build is the same as with every falsy trait replaced
    by [undefined]. *)
Theorem falsy_trait_as_undefined (n : Node) (res : string) :
  truthy (@getTraitFromNode E n res) = false ->
  (forall vis cols M i, @countTip E vis res cols M i n = M)
  /\ (forall tbl cols vis map offsets st child,
        @setupEdge E n tbl res cols vis map offsets st child = st)
  /\ (forall tbl cols vis map offsets st parent,
        @setupEdge E parent tbl res cols vis map offsets st n = st)
  /\ (forall nodes vis cols triplicate metadata map pieChart,
        @createDemeAndTransmissionData E nodes vis res cols triplicate metadata map pieChart
        = @createDemeAndTransmissionData (onlyTruthyTraits E) nodes vis res cols triplicate
            metadata map pieChart)
  /\ @getTraitFromNode (onlyTruthyTraits E) n res = JUndefined.
Proof.
  intros Ht. repeat split; intros.
  - apply countTip_falsy, Ht.
  - apply setupEdge_falsy_parent, Ht.
  - apply setupEdge_falsy_child, Ht.
  - symmetry. apply createDemeAndTransmissionData_onlyTruthy.
  - cbn [getTraitFromNode onlyTruthyTraits]. rewrite Ht. reflexivity.
Qed.

End FalsyTraits.

(** ** The deme build *)

Lemma forEachM_pure {A St} (f : St -> A -> Eff St) (w : A -> list Diag)
    (g : St -> A -> St) (l : list A) (s : St) :
  (forall s a, a ∈ l -> f s a = (w a, Normal (g s a))) ->
  forEachM f l s = (l ≫= w, Normal (foldl g s l)).
Proof.
  revert s. induction l as [|a l IH]; intros s Hf; [reflexivity|].
  cbn [forEachM foldl]. rewrite Hf by left. unfold bind at 1.
  rewrite IH by (intros s' a' Ha'; apply Hf; right; exact Ha').
  reflexivity.
Qed.

Lemma forEachIdx_snoc {A St} (f : St -> nat -> A -> St) (l : list A) (a : A) (i : nat) (s : St) :
  forEachIdx f (l ++ [a]) i s = f (forEachIdx f l i s) (i + length l) a.
Proof.
  revert i s. induction l as [|b l IH]; intros i s; cbn [forEachIdx app length].
  - rewrite Nat.add_0_r. reflexivity.
  - rewrite IH. f_equal. lia.
Qed.

Lemma indexBy_snoc {A} (key : A -> string) (l : list A) (a : A) :
  indexBy key (l ++ [a]) = pushIndex (indexBy key l) (key a) (length l).
Proof. unfold indexBy. rewrite forEachIdx_snoc. reflexivity. Qed.

Lemma pushIndex_lookup (indices : gmap string (list nat)) (k k' : string) (i : nat) :
  pushIndex indices k i !! k'
  = if bool_decide (k = k') then Some (default [] (indices !! k) ++ [i]) else indices !! k'.
Proof.
  unfold pushIndex. case_bool_decide as Hk.
  - subst k'. destruct (indices !! k) eqn:E; rewrite lookup_insert_eq; reflexivity.
  - destruct (indices !! k); rewrite lookup_insert_ne by exact Hk; reflexivity.
Qed.

Lemma forEachIdx_pushIndex_lookup {A} (key : A -> string) (l : list A) (i : nat)
    (indices : gmap string (list nat)) (k : string) :
  forEachIdx (fun indices i a => pushIndex indices (key a) i) l i indices !! k
  = match positions key k l i with
    | [] => indices !! k
    | ps => Some (default [] (indices !! k) ++ ps)
    end.
Proof.
  revert i indices. induction l as [|a l IH]; intros i indices; cbn [forEachIdx positions].
  - reflexivity.
  - rewrite IH, pushIndex_lookup. case_bool_decide as Hk; cbn [app].
    + subst k. destruct (positions key (key a) l (S i)); cbn [from_option id]; [reflexivity|].
      rewrite <- app_assoc. reflexivity.
    + reflexivity.
Qed.

(** An index map lists, under each key, the positions of that key. *)
Lemma indexBy_lookup {A} (key : A -> string) (l : list A) (k : string) :
  indexBy key l !! k
  = match positions key k l 0 with
    | [] => None
    | ps => Some ps
    end.
Proof.
  unfold indexBy. rewrite forEachIdx_pushIndex_lookup, lookup_empty. reflexivity.
Qed.

Lemma elem_of_positions {A} (key : A -> string) (k : string) (l : list A) (i j : nat) :
  j ∈ positions key k l i <-> exists a, i <= j /\ l !! (j - i) = Some a /\ key a = k.
Proof.
  revert i. induction l as [|a l IH]; intros i; cbn [positions].
  - rewrite elem_of_nil. split; [tauto|]. intros (a & _ & Ha & _). discriminate.
  - rewrite elem_of_app, IH. split.
    + intros [Hj|(b & Hle & Hb & Hk)].
      * case_bool_decide; [|inversion Hj]. apply list_elem_of_singleton in Hj. subst j.
        exists a. rewrite Nat.sub_diag. auto.
      * exists b. split; [lia|]. split; [|exact Hk].
        replace (j - i) with (S (j - S i)) by lia. exact Hb.
    + intros (b & Hle & Hb & Hk). destruct (decide (j = i)) as [->|Hne].
      * left. rewrite Nat.sub_diag in Hb. injection Hb as ->.
        rewrite bool_decide_eq_true_2 by exact Hk. left.
      * right. exists b. split; [lia|]. split; [|exact Hk].
        replace (j - i) with (S (j - S i)) in Hb by lia. exact Hb.
Qed.

Section DemeBuild.
Context `{Externals}.

Lemma setupDeme_eq res metadata table map pieChart OFFSET st entry :
  geographicInfo metadata !! res = Some table ->
  setupDeme res metadata map pieChart OFFSET st entry
  = (warningAt table entry, Normal (pushDeme pieChart table map OFFSET st entry)).
Proof.
  intros Ht. destruct st as [[data indices] index], entry as [location colorCounts].
  unfold setupDeme, pushDeme, demeAt, warningAt. rewrite Ht. cbn [fst snd].
  destruct (table !! location) as [g|].
  - rewrite bind_ret_l, andb_true_r. case_match; [|reflexivity].
    destruct pieChart; reflexivity.
  - cbn. reflexivity.
Qed.

Lemma setupDemeData_eq nodes vis res cols triplicate metadata table map pieChart :
  geographicInfo metadata !! res = Some table ->
  let M := getColorsForAllDemes nodes vis res cols in
  let st := demeFold pieChart table map (offsetsOf triplicate) M in
  setupDemeData nodes vis res cols triplicate metadata map pieChart
  = (offsetsOf triplicate ≫= (fun _ => entries M ≫= warningAt table),
     Normal {| demeData := st.1.1; demeIndices := st.1.2 |}).
Proof.
  intros Ht M st. unfold setupDemeData. fold M.
  rewrite (forEachM_pure _ (fun _ => entries M ≫= warningAt table)
             (fun st OFFSET => foldl (pushDeme pieChart table map OFFSET) st (entries M))).
  - unfold bind, ret. rewrite app_nil_r. reflexivity.
  - intros s OFFSET _. apply forEachM_pure. intros s' e _.
    apply setupDeme_eq, Ht.
Qed.

Lemma foldl_pushDeme pieChart table map OFFSET l D :
  foldl (pushDeme pieChart table map OFFSET) (D, indexBy Deme.name D, length D) l
  = let D' := foldl (appendDeme pieChart table map OFFSET) D l in
    (D', indexBy Deme.name D', length D').
Proof.
  revert D. induction l as [|e l IH]; intros D; cbn [foldl]; [reflexivity|].
  assert (Hstep : pushDeme pieChart table map OFFSET (D, indexBy Deme.name D, length D) e
                  = (appendDeme pieChart table map OFFSET D e,
                     indexBy Deme.name (appendDeme pieChart table map OFFSET D e),
                     length (appendDeme pieChart table map OFFSET D e))).
  { unfold pushDeme, appendDeme. cbn [fst snd].
    destruct (demeAt pieChart table map OFFSET (length D) e) as [d|]; [|reflexivity].
    rewrite indexBy_snoc, length_app. cbn [length]. do 2 f_equal. lia. }
  rewrite Hstep. apply IH.
Qed.

Lemma demeFold_eq pieChart table map offsets M :
  demeFold pieChart table map offsets M
  = let D := demeList pieChart table map offsets M in
    (D, indexBy Deme.name D, length D).
Proof.
  unfold demeFold, demeList.
  change ([], ∅, 0) with (@nil Deme.t, indexBy Deme.name (@nil Deme.t), length (@nil Deme.t)).
  generalize (@nil Deme.t). induction offsets as [|off offsets IH]; intros D; cbn [foldl].
  - reflexivity.
  - rewrite foldl_pushDeme. cbv zeta. apply IH.
Qed.

Lemma foldl_appendDeme_view {V} (view : Deme.t -> V)
    (h : string * Obj ColorCount -> option V) pieChart table map OFFSET l D :
  (forall k e, view <$> demeAt pieChart table map OFFSET k e = h e) ->
  view <$> foldl (appendDeme pieChart table map OFFSET) D l = (view <$> D) ++ omap h l.
Proof.
  intros Hh. revert D. induction l as [|e l IH]; intros D; cbn [foldl omap list_omap].
  - rewrite app_nil_r. reflexivity.
  - rewrite IH. unfold appendDeme. rewrite <- (Hh (length D) e).
    destruct (demeAt pieChart table map OFFSET (length D) e) as [d|];
      cbn [fmap option_fmap option_map].
    + rewrite fmap_app, <- app_assoc. reflexivity.
    + reflexivity.
Qed.

(** Seen through [view], the deme collection is what each offset gives
    for each location, in that order. *)
Lemma demeList_view {V} (view : Deme.t -> V)
    (h : Q -> string * Obj ColorCount -> option V) pieChart table map offsets M :
  (forall off k e, view <$> demeAt pieChart table map off k e = h off e) ->
  view <$> demeList pieChart table map offsets M
  = offsets ≫= (fun off => omap (h off) (entries M)).
Proof.
  intros Hh. unfold demeList.
  transitivity ((view <$> []) ++ (offsets ≫= (fun off => omap (h off) (entries M))));
    [|reflexivity].
  generalize (@nil Deme.t). induction offsets as [|off offsets IH]; intros D; cbn [foldl].
  - cbn. rewrite app_nil_r. reflexivity.
  - rewrite IH, (foldl_appendDeme_view view (h off)) by apply Hh.
    rewrite bind_cons, app_assoc. reflexivity.
Qed.

End DemeBuild.

(** ** The order of keys *)



Lemma insert_entry_perm {V} (e : string * V) (l : list (string * V)) :
  insert_entry e l ≡ₚ e :: l.
Proof.
  induction l as [|a l IH]; cbn [insert_entry]; [reflexivity|].
  destruct (key_le e.1 a.1); [reflexivity|].
  rewrite IH. apply Permutation_swap.
Qed.

Lemma entries_perm {V} (o : Obj V) : entries o ≡ₚ o.
Proof.
  unfold entries. induction o as [|e o IH]; cbn [foldr]; [reflexivity|].
  rewrite insert_entry_perm, IH. reflexivity.
Qed.


Lemma obj_set_fst_elem {V} (o : Obj V) (k k' : string) (v : V) :
  k' ∈ (obj_set o k v).*1 <-> k' = k \/ k' ∈ o.*1.
Proof.
  induction o as [|[k0 v0] o IH]; cbn [obj_set].
  - cbn. rewrite list_elem_of_singleton, elem_of_nil. tauto.
  - destruct (String.eqb_spec k k0) as [->|Hk]; cbn [fmap list_fmap fst].
    + rewrite !elem_of_cons. tauto.
    + rewrite !elem_of_cons, IH. tauto.
Qed.

Lemma obj_set_NoDup {V} (o : Obj V) (k : string) (v : V) :
  NoDup o.*1 -> NoDup (obj_set o k v).*1.
Proof.
  induction o as [|[k0 v0] o IH]; cbn [obj_set]; intros Hnd.
  - cbn. apply NoDup_singleton.
  - cbn [fmap list_fmap fst] in Hnd. apply NoDup_cons in Hnd as [Hnotin Hnd].
    destruct (String.eqb_spec k k0) as [->|Hk]; cbn [fmap list_fmap fst].
    + apply NoDup_cons. auto.
    + apply NoDup_cons. split; [|apply IH, Hnd].
      rewrite obj_set_fst_elem. intros [->|Hin]; [congruence | contradiction].
Qed.

Lemma obj_get_elem {V} (o : Obj V) (k : string) (v : V) :
  NoDup o.*1 -> (k, v) ∈ o -> obj_get o k = Some v.
Proof.
  induction o as [|[k0 v0] o IH]; intros Hnd Hin; [inversion Hin|].
  cbn [fmap list_fmap fst] in Hnd. apply NoDup_cons in Hnd as [Hnotin Hnd].
  cbn [obj_get]. apply elem_of_cons in Hin as [[= -> ->]|Hin].
  - rewrite String.eqb_refl. reflexivity.
  - destruct (String.eqb_spec k k0) as [->|Hk]; [|apply IH; assumption].
    exfalso. apply Hnotin. apply list_elem_of_fmap. exists (k0, v). auto.
Qed.


Section Keys.
Context `{Externals}.


Lemma countTip_NoDup vis res cols (M : Obj (Obj ColorCount)) i n :
  NoDup M.*1 -> NoDup (countTip vis res cols M i n).*1.
Proof.
  intros HM. unfold countTip. case_bool_decide; [exact HM|].
  destruct (truthy (getTraitFromNode n res)); cbn [negb]; [|exact HM].
  apply obj_set_NoDup, HM.
Qed.


Lemma getColorsForAllDemes_NoDup nodes vis res cols :
  NoDup (getColorsForAllDemes nodes vis res cols).*1.
Proof.
  unfold getColorsForAllDemes.
  assert (Hnil : NoDup (@nil (string * Obj ColorCount)).*1) by constructor.
  revert Hnil. generalize (@nil (string * Obj ColorCount)). generalize 0.
  induction nodes as [|n nodes IH]; intros i M HM; cbn [forEachIdx]; [exact HM|].
  apply IH, countTip_NoDup, HM.
Qed.

Lemma entries_NoDup {V} (o : Obj V) : NoDup o.*1 -> NoDup (entries o).*1.
Proof. intros Hnd. rewrite entries_perm. exact Hnd. Qed.

End Keys.

(** ** The update of blended demes *)

Section BlendedUpdate.
Context `{Externals}.


Lemma repaint_repaint cc d : repaint cc (repaint cc d) = repaint cc d.
Proof. reflexivity. Qed.








Lemma createDemeAndTransmissionData_eq nodes vis res cols triplicate metadata table map pieChart :
  geographicInfo metadata !! res = Some table ->
  exists built,
    returned (createDemeAndTransmissionData nodes vis res cols triplicate metadata map pieChart)
      = Some built
    /\ (createDemeAndTransmissionData nodes vis res cols triplicate metadata map pieChart).1
       = (offsetsOf triplicate
            ≫= (fun _ => entries (getColorsForAllDemes nodes vis res cols) ≫= warningAt table))
    /\ md_demeData built
       = demeList pieChart table map (offsetsOf triplicate)
           (getColorsForAllDemes nodes vis res cols)
    /\ md_demeIndices built = indexBy Deme.name (md_demeData built)
    /\ md_transmissionData built
       = transmissionData (setupTransmissionData nodes vis res cols triplicate metadata map)
    /\ md_transmissionIndices built
       = transmissionIndices (setupTransmissionData nodes vis res cols triplicate metadata map)
    /\ md_demesMissingLatLongs built
       = demesMissingLatLongs (setupTransmissionData nodes vis res cols triplicate metadata map).
Proof.
  intros Ht. unfold createDemeAndTransmissionData.
  rewrite (setupDemeData_eq _ _ _ _ _ _ _ _ _ Ht). cbv zeta. rewrite demeFold_eq. cbv zeta.
  unfold bind, ret, returned. cbn [fst snd demeData demeIndices].
  eexists. split; [reflexivity|]. cbn. rewrite app_nil_r. repeat split.
Qed.

End BlendedUpdate.


Section UpdateAgainstRebuild.
Context `{Externals}.

Lemma setupDemeData_no_table nodes vis res cols triplicate metadata map pieChart :
  geographicInfo metadata !! res = None ->
  setupDemeData nodes vis res cols triplicate metadata map pieChart
  = match entries (getColorsForAllDemes nodes vis res cols) with
    | [] => ret {| demeData := []; demeIndices := ∅ |}
    | _ :: _ => ([], Throw TypeError)
    end.
Proof.
  intros Ht. unfold setupDemeData.
  destruct (entries (getColorsForAllDemes nodes vis res cols)) as [|[loc cc] l].
  - destruct triplicate; reflexivity.
  - assert (Hthrow : forall st off,
              forEachM (setupDeme res metadata map pieChart off) ((loc, cc) :: l) st
              = ([], Throw TypeError)).
    { intros [[data indices] index] off. cbn [forEachM]. unfold setupDeme at 1.
      rewrite Ht. reflexivity. }
    destruct triplicate; cbn [offsetsOf]; rewrite forEachM_cons, Hthrow; reflexivity.
Qed.


End UpdateAgainstRebuild.

(** ** The transmission build *)

Lemma elem_of_set_add (v w : JsVal) (s : list JsVal) : v ∈ set_add w s <-> v = w \/ v ∈ s.
Proof.
  unfold set_add. case_bool_decide as Hw.
  - split; [auto|]. intros [->|Hv]; assumption.
  - rewrite elem_of_app, list_elem_of_singleton. tauto.
Qed.

Lemma minBy_from_elem {A} (f : A -> Q) (best : A) (l : list A) :
  minBy_from f best l = best \/ minBy_from f best l ∈ l.
Proof.
  revert best. induction l as [|a l IH]; intros best; cbn [minBy_from]; [left; reflexivity|].
  destruct (IH (if Qltb (f a) (f best) then a else best)) as [->|Hin].
  - destruct (Qltb (f a) (f best)); [right; left | left; reflexivity].
  - right. right. exact Hin.
Qed.

Lemma minBy_elem {A} (f : A -> Q) (l : list A) (a : A) : minBy l f = Some a -> a ∈ l.
Proof.
  destruct l as [|b l]; [discriminate|]. cbn [minBy]. intros [= <-].
  destruct (minBy_from_elem f b l) as [->|Hin]; [left | right; exact Hin].
Qed.

Lemma minBy_is_Some {A} (f : A -> Q) (l : list A) : l ≠ [] -> is_Some (minBy l f).
Proof. destruct l; [congruence | eauto]. Qed.

Section TransmissionBuild.
Context `{Externals}.

Lemma maybeConstruct_spec node child tbl res cols vis map offO offD missing extend r missing' :
  maybeConstructTransmissionEvent node child tbl res cols vis map offO offD missing extend
    = (r, missing') ->
  offD ∈ [-360; 0; 360]%Q ->
  (forall v, v ∈ missing -> v ∈ missing')
  /\ endpointsReported tbl res node child missing'
  /\ (forall t, r = Some t -> candidateOf tbl res node child offO t)
  /\ (forall gO gD,
        lookupLatLong tbl res (getTraitFromNode node res) = Some gO ->
        lookupLatLong tbl res (getTraitFromNode child res) = Some gD ->
        validPair (Num (longitude gO + offO)) (Num (longitude gD + offD)) = true ->
        is_Some r).
Proof.
  unfold maybeConstructTransmissionEvent, endpointsReported, candidateOf.
  destruct (lookupLatLong tbl res (getTraitFromNode node res)) as [gO|] eqn:HO;
    destruct (lookupLatLong tbl res (getTraitFromNode child res)) as [gD|] eqn:HD;
    rewrite maybeGetTransmissionPair_eq;
    cbn [num_add]; rewrite ?validPair_NaN_l, ?validPair_NaN_r.
  - destruct (validPair _ _) eqn:Hv; intros [= <- <-] HoffD;
      (split; [auto|split; [split; discriminate|split]]).
    + intros t [= <-]. cbn. repeat split. exists gO, gD, offD. auto.
    + eauto.
    + discriminate.
    + intros gO' gD' [= <-] [= <-] Hv'. congruence.
  - intros [= <- <-] _. split; [|split; [split|split]]; try discriminate.
    + intros v Hv. apply elem_of_set_add. auto.
    + intros _. apply elem_of_set_add. auto.
  - intros [= <- <-] _. split; [|split; [split|split]]; try discriminate.
    + intros v Hv. apply elem_of_set_add. auto.
    + intros _. apply elem_of_set_add. auto.
  - intros [= <- <-] _. split; [|split; [split|split]]; try discriminate.
    + intros v Hv. rewrite !elem_of_set_add. auto.
    + intros _. rewrite !elem_of_set_add. auto.
    + intros _. rewrite !elem_of_set_add. auto.
Qed.

Lemma maybeGetClosest_spec node child tbl res cols vis map offO missing extend r missing' :
  maybeGetClosestTransmissionEvent node child tbl res cols vis map offO missing extend
    = (r, missing') ->
  (forall v, v ∈ missing -> v ∈ missing')
  /\ endpointsReported tbl res node child missing'
  /\ (forall t, r = Some t -> candidateOf tbl res node child offO t)
  /\ (hasValidCandidate tbl res node child offO -> is_Some r).
Proof.
  unfold maybeGetClosestTransmissionEvent. cbn [foldl].
  destruct (maybeConstructTransmissionEvent node child tbl res cols vis map offO (-360)
              missing extend) as [r1 m1] eqn:E1.
  destruct (maybeConstructTransmissionEvent node child tbl res cols vis map offO 0
              m1 extend) as [r2 m2] eqn:E2.
  destruct (maybeConstructTransmissionEvent node child tbl res cols vis map offO 360
              m2 extend) as [r3 m3] eqn:E3.
  apply maybeConstruct_spec in E1 as (Hm1 & _ & Hc1 & Hv1); [|left].
  apply maybeConstruct_spec in E2 as (Hm2 & _ & Hc2 & Hv2); [|right; left].
  apply maybeConstruct_spec in E3 as (Hm3 & Hrep & Hc3 & Hv3); [|right; right; left].
  intros [= <- <-]. split; [auto|]. split; [exact Hrep|]. split.
  - intros t Ht. apply minBy_elem in Ht.
    destruct r1 as [t1|], r2 as [t2|], r3 as [t3|]; cbn [app] in Ht;
      repeat (apply elem_of_cons in Ht as [->|Ht]); try (inversion Ht); eauto.
  - intros (gO & gD & offD & HO & HD & Hoff & Hvalid).
    apply minBy_is_Some.
    rewrite !elem_of_cons, elem_of_nil in Hoff.
    destruct Hoff as [->|[->|[->|[]]]].
    + destruct (Hv1 gO gD HO HD Hvalid) as [t ->]. destruct r2, r3; discriminate.
    + destruct (Hv2 gO gD HO HD Hvalid) as [t ->]. destruct r1, r3; discriminate.
    + destruct (Hv3 gO gD HO HD Hvalid) as [t ->]. destruct r1, r2; discriminate.
Qed.

(** What one edge adds: the transmissions are only appended to, the
    diagnostics only grow, and for every origin offset with a valid
    candidate one transmission of the edge is appended. *)
Lemma pushClosestEvents_spec n child tbl res cols vis map offsets extend data missing
    data' missing' :
  pushClosestEvents n child tbl res cols vis map offsets extend data missing
    = (data', missing') ->
  (exists new, data' = data ++ new
     /\ Forall (fun t => exists offO, offO ∈ offsets /\ candidateOf tbl res n child offO t) new
     /\ forall offO, offO ∈ offsets -> hasValidCandidate tbl res n child offO ->
          exists t, t ∈ new /\ candidateOf tbl res n child offO t)
  /\ (forall v, v ∈ missing -> v ∈ missing')
  /\ (offsets ≠ [] -> endpointsReported tbl res n child missing').
Proof.
  unfold pushClosestEvents. revert data missing.
  induction offsets as [|off offsets IH]; intros data missing; cbn [foldl].
  - intros [= <- <-]. split; [|split; [auto|congruence]].
    exists []. rewrite app_nil_r. split; [reflexivity|]. split; [constructor|].
    intros offO Hoff. inversion Hoff.
  - destruct (maybeGetClosestTransmissionEvent n child tbl res cols vis map off missing extend)
      as [r m1] eqn:E1.
    apply maybeGetClosest_spec in E1 as (Hm1 & Hrep1 & Hc1 & Hv1).
    intros Hrest. apply IH in Hrest as ((new & -> & Hnew & Hvalid) & Hmono & Hrep).
    split; [|split].
    + exists (match r with Some t => [t] | None => [] end ++ new).
      split; [destruct r; cbn [app]; rewrite <- ?app_assoc; reflexivity|]. split.
      * apply Forall_app. split.
        -- destruct r as [t|]; constructor; [|constructor].
           exists off. split; [left | apply Hc1; reflexivity].
        -- eapply Forall_impl; [exact Hnew|]. intros t (offO & Hoff & Hc).
           exists offO. split; [right; exact Hoff | exact Hc].
      * intros offO Hoff Hhas. apply elem_of_cons in Hoff as [->|Hoff].
        -- destruct (Hv1 Hhas) as [t ->]. exists t. split; [left | apply Hc1; reflexivity].
        -- destruct (Hvalid offO Hoff Hhas) as (t & Ht & Hc). exists t.
           split; [apply elem_of_app; right; exact Ht | exact Hc].
    + auto.
    + intros _. destruct Hrep1 as [HrO HrD]. split; intros Hnone; apply Hmono; auto.
Qed.

Lemma grows_refl st : grows st st.
Proof. split; [exists []; rewrite app_nil_r; reflexivity | auto]. Qed.

Lemma grows_trans st1 st2 st3 : grows st1 st2 -> grows st2 st3 -> grows st1 st3.
Proof.
  intros [[new1 H1] Hm1] [[new2 H2] Hm2]. split; [|auto].
  exists (new1 ++ new2). rewrite H2, H1, app_assoc. reflexivity.
Qed.

Lemma edgeDone_grows tbl res offsets n child st st' :
  edgeDone tbl res offsets n child st -> grows st st' ->
  edgeDone tbl res offsets n child st'.
Proof.
  intros Hdone [[new Hnew] Hmono] Hcross.
  destruct (Hdone Hcross) as ([HrO HrD] & Hvalid). split.
  - split; intros Hnone; apply Hmono; auto.
  - intros offO Hoff Hhas. destruct (Hvalid offO Hoff Hhas) as (t & Ht & Hc).
    exists t. split; [|exact Hc]. rewrite Hnew. apply elem_of_app. left. exact Ht.
Qed.

Lemma foldl_grows_done {A} (step : TransmissionState -> A -> TransmissionState)
    (done : A -> TransmissionState -> Prop) (I : TransmissionState -> Prop) :
  (forall st a, grows st (step st a) /\ done a (step st a) /\ (I st -> I (step st a))) ->
  (forall a st st', done a st -> grows st st' -> done a st') ->
  forall l st,
    grows st (foldl step st l)
    /\ (forall a, a ∈ l -> done a (foldl step st l))
    /\ (I st -> I (foldl step st l)).
Proof.
  intros Hstep Hstable. induction l as [|a l IH]; intros st; cbn [foldl].
  - split; [apply grows_refl|]. split; [|auto]. intros a Ha. inversion Ha.
  - destruct (Hstep st a) as (Hg & Hd & HI).
    destruct (IH (step st a)) as (Hg' & Hd' & HI').
    split; [eapply grows_trans; eassumption|]. split; [|auto].
    intros b Hb. apply elem_of_cons in Hb as [->|Hb]; [|auto].
    eapply Hstable; eassumption.
Qed.

Lemma setupEdge_spec n tbl res cols vis map offsets st child :
  offsets ≠ [] ->
  grows st (setupEdge n tbl res cols vis map offsets st child)
  /\ edgeDone tbl res offsets n child (setupEdge n tbl res cols vis map offsets st child)
  /\ (allCandidates tbl res st ->
      allCandidates tbl res (setupEdge n tbl res cols vis map offsets st child)).
Proof.
  intros Hne. unfold setupEdge.
  destruct (truthy (getTraitFromNode n res) && truthy (getTraitFromNode child res)
            && strict_ne (getTraitFromNode n res) (getTraitFromNode child res)) eqn:Hguard.
  - set (counts := match ts_counts st !! _ with Some _ => _ | None => _ end).
    destruct (pushClosestEvents n child tbl res cols vis map offsets _ (ts_data st)
                (ts_missing st)) as [data' missing'] eqn:Hpush.
    apply pushClosestEvents_spec in Hpush as ((new & -> & Hnew & Hvalid) & Hmono & Hrep).
    assert (Hcross : crossesDemes res n child).
    { apply andb_true_iff in Hguard as [Hguard Hne'].
      apply andb_true_iff in Hguard as [Hn Hc].
      apply bool_decide_eq_true in Hne'. split; [|split]; assumption. }
    split; [|split].
    + split; cbn [ts_data ts_missing]; eauto.
    + intros _. cbn [ts_data ts_missing]. split; [auto|].
      intros offO Hoff Hhas. destruct (Hvalid offO Hoff Hhas) as (t & Ht & Hc).
      exists t. split; [apply elem_of_app; right; exact Ht | exact Hc].
    + unfold allCandidates. cbn [ts_data]. intros Hall. apply Forall_app. split; [exact Hall|].
      eapply Forall_impl; [exact Hnew|]. intros t (offO & _ & Hc). eauto.
  - split; [apply grows_refl|]. split; [|auto].
    intros (Hn & Hc & Hne'). exfalso.
    rewrite Hn, Hc in Hguard. cbn [andb] in Hguard.
    apply bool_decide_eq_false in Hguard. contradiction.
Qed.

Lemma setupNode_spec tbl res cols vis map offsets st n :
  offsets ≠ [] ->
  grows st (setupNode tbl res cols vis map offsets st n)
  /\ (forall cs child, children n = Some cs -> child ∈ cs ->
        edgeDone tbl res offsets n child (setupNode tbl res cols vis map offsets st n))
  /\ (allCandidates tbl res st ->
      allCandidates tbl res (setupNode tbl res cols vis map offsets st n)).
Proof.
  intros Hne. unfold setupNode. destruct (children n) as [cs|].
  - destruct (foldl_grows_done (setupEdge n tbl res cols vis map offsets)
                (edgeDone tbl res offsets n) (allCandidates tbl res)) with (l := cs) (st := st)
      as (Hg & Hd & HI).
    + intros st' child. apply setupEdge_spec, Hne.
    + intros child st1 st2. apply edgeDone_grows.
    + split; [exact Hg|]. split; [|exact HI]. intros cs' child [= <-]. apply Hd.
  - split; [apply grows_refl|]. split; [|auto]. intros cs child Hcs. discriminate Hcs.
Qed.

Lemma offsetsOf_nonempty triplicate : offsetsOf triplicate ≠ [].
Proof. destruct triplicate; discriminate. Qed.

(** Every edge of the tree is dealt with by the transmission build, and
    every transmission it returns is a candidate of an edge that passes
    the guard. *)
Lemma setupTransmissionData_spec nodes vis res cols triplicate metadata map :
  let built := setupTransmissionData nodes vis res cols triplicate metadata map in
  let final := {| ts_data := transmissionData built; ts_counts := ∅;
                  ts_missing := demesMissingLatLongs built |} in
  (forall n cs child, n ∈ nodes -> children n = Some cs -> child ∈ cs ->
     edgeDone (geographicInfo metadata) res (offsetsOf triplicate) n child final)
  /\ allCandidates (geographicInfo metadata) res final.
Proof.
  intros built final.
  destruct (foldl_grows_done
              (setupNode (geographicInfo metadata) res cols vis map (offsetsOf triplicate))
              (fun n st => forall cs child, children n = Some cs -> child ∈ cs ->
                 edgeDone (geographicInfo metadata) res (offsetsOf triplicate) n child st)
              (allCandidates (geographicInfo metadata) res))
    with (l := nodes) (st := {| ts_data := []; ts_counts := ∅; ts_missing := [] |})
    as (_ & Hd & HI).
  - intros st n. apply setupNode_spec, offsetsOf_nonempty.
  - intros n st1 st2 Hdone Hg cs child Hcs Hchild.
    eapply edgeDone_grows; [apply (Hdone cs child Hcs Hchild) | exact Hg].
  - split.
    + intros n cs child Hn Hcs Hchild. exact (Hd n Hn cs child Hcs Hchild).
    + apply HI. constructor.
Qed.

End TransmissionBuild.

(** ** Missing geography *)

Section MissingGeography.
Context `{Externals}.

Lemma demeList_places pieChart table map offsets M :
  (fun d => (Deme.name d, Deme.longitude d)) <$> demeList pieChart table map offsets M
  = offsets ≫= (fun off => omap (placeAt table off) (entries M)).
Proof.
  apply demeList_view. intros off k e. unfold demeAt, placeAt.
  destruct (table !! e.1); [|reflexivity]. case_match; [|reflexivity].
  destruct pieChart; reflexivity.
Qed.

Lemma lookupLatLong_table tbl res table v :
  tbl !! res = Some table -> lookupLatLong tbl res v = table !! ToString v.
Proof. intros Ht. unfold lookupLatLong. rewrite Ht. reflexivity. Qed.

(** C5 (amended).  For a location that the active lookup table does not
    list, the build completes and: no deme has that name and
    [demeIndices] has no entry for it; the deme build reports it on the
    console (and not in the returned set) if it is a location of the
    aggregation; no transmission starts or ends there; the transmission
    build puts it in [demesMissingLatLongs] if it is an end point of an
    edge whose two traits are set and distinct.  All the rest is
    processed: every listed location of the aggregation gets its deme at
    every offset that puts it inside (-360, 360), and every such edge
    gets a transmission for every origin offset that has a valid
    candidate. *)
Theorem missing_geography_is_skipped
    nodes vis res cols triplicate metadata table map pieChart location :
  geographicInfo metadata !! res = Some table ->
  table !! location = None ->
  let M := getColorsForAllDemes nodes vis res cols in
  let run := createDemeAndTransmissionData nodes vis res cols triplicate metadata map
               pieChart in
  exists built,
    returned run = Some built
    /\ (forall d, d ∈ md_demeData built -> Deme.name d ≠ location)
    /\ md_demeIndices built !! location = None
    /\ (location ∈ keys M ->
        Warn ["Warning: Lat/long missing from metadata for"; location] ∈ run.1)
    /\ (forall t, t ∈ md_transmissionData built ->
          ToString (Transmission.originName t) ≠ location
          /\ ToString (Transmission.destinationName t) ≠ location)
    /\ (forall n cs child,
          n ∈ nodes -> children n = Some cs -> child ∈ cs -> crossesDemes res n child ->
          (ToString (getTraitFromNode n res) = location ->
             getTraitFromNode n res ∈ md_demesMissingLatLongs built)
          /\ (ToString (getTraitFromNode child res) = location ->
             getTraitFromNode child res ∈ md_demesMissingLatLongs built))
    /\ (forall loc g off,
          loc ∈ keys M -> table !! loc = Some g -> off ∈ offsetsOf triplicate ->
          (-360 < longitude g + off /\ longitude g + off < 360)%Q ->
          exists d, d ∈ md_demeData built /\ Deme.name d = loc
                    /\ Deme.longitude d = (longitude g + off)%Q)
    /\ (forall n cs child offO,
          n ∈ nodes -> children n = Some cs -> child ∈ cs -> crossesDemes res n child ->
          offO ∈ offsetsOf triplicate ->
          hasValidCandidate (geographicInfo metadata) res n child offO ->
          exists t, t ∈ md_transmissionData built
                    /\ candidateOf (geographicInfo metadata) res n child offO t).
Proof.
  intros Ht Hnone M run.
  destruct (createDemeAndTransmissionData_eq nodes vis res cols triplicate metadata table
              map pieChart Ht) as (built & Hb & Hlog & HD & HI & HT & _ & HM).
  fold M in Hlog, HD. fold run in Hb, Hlog.
  destruct (setupTransmissionData_spec nodes vis res cols triplicate metadata map)
    as [Hedges Hcands]. cbv zeta in Hedges, Hcands. rewrite <- HT, <- HM in Hedges, Hcands.
  assert (Hplaces := demeList_places pieChart table map (offsetsOf triplicate) M).
  rewrite <- HD in Hplaces.
  assert (Hnames : forall d, d ∈ md_demeData built -> Deme.name d ≠ location).
  { intros d Hd Hname.
    assert (Hin : (Deme.name d, Deme.longitude d)
                  ∈ (fun d => (Deme.name d, Deme.longitude d)) <$> md_demeData built)
      by (apply list_elem_of_fmap; eauto).
    rewrite Hplaces in Hin. apply list_elem_of_bind in Hin as (off & Hin & _).
    apply list_elem_of_omap in Hin as (e & _ & He). unfold placeAt in He.
    destruct (table !! e.1) eqn:Hg; [|discriminate]. case_match; [|discriminate].
    injection He as He _. congruence. }
  exists built. split; [exact Hb|]. split; [exact Hnames|]. split; [|split; [|split; [|split; [|split]]]].
  - rewrite HI, indexBy_lookup.
    destruct (positions Deme.name location (md_demeData built) 0) as [|p ps] eqn:Hpos;
      [reflexivity|]. exfalso.
    assert (Hp : p ∈ positions Deme.name location (md_demeData built) 0)
      by (rewrite Hpos; left).
    apply elem_of_positions in Hp as (d & _ & Hd & Hname).
    apply (Hnames d); [apply list_elem_of_lookup; eauto | exact Hname].
  - intros Hkey. rewrite Hlog. unfold keys in Hkey.
    apply list_elem_of_fmap in Hkey as (e & -> & He).
    destruct (offsetsOf triplicate) as [|off offs] eqn:Hoffs;
      [exfalso; eapply offsetsOf_nonempty; eassumption|].
    apply list_elem_of_bind. exists off. split; [|left].
    apply list_elem_of_bind. exists e. split; [|exact He].
    unfold warningAt. rewrite Hnone. left.
  - intros t Htin. unfold allCandidates in Hcands. cbn [ts_data] in Hcands.
    rewrite Forall_forall in Hcands.
    destruct (Hcands t Htin)
      as (n & child & offO & _ & _ & -> & -> & gO & gD & offD & HO & HD' & _).
    rewrite (lookupLatLong_table _ _ table _ Ht) in HO.
    rewrite (lookupLatLong_table _ _ table _ Ht) in HD'.
    split; congruence.
  - intros n cs child Hn Hcs Hchild Hcross.
    destruct (Hedges n cs child Hn Hcs Hchild Hcross) as ([HrO HrD] & _).
    cbn [ts_missing] in HrO, HrD.
    rewrite (lookupLatLong_table _ _ table _ Ht) in HrO.
    rewrite (lookupLatLong_table _ _ table _ Ht) in HrD.
    split; intros Hloc; [apply HrO | apply HrD]; rewrite Hloc; exact Hnone.
  - intros loc g off Hkey Hg Hoff [Hw He]. unfold keys in Hkey.
    apply list_elem_of_fmap in Hkey as (e & -> & Hentry).
    assert (Hin : (e.1, (longitude g + off)%Q)
                  ∈ (fun d => (Deme.name d, Deme.longitude d)) <$> md_demeData built).
    { rewrite Hplaces. apply list_elem_of_bind. exists off. split; [|exact Hoff].
      apply list_elem_of_omap. exists e. split; [exact Hentry|].
      unfold placeAt. rewrite Hg. unfold westBound, eastBound.
      cbn [num_gt num_lt]. rewrite (proj2 (Qltb_lt _ _) Hw), (proj2 (Qltb_lt _ _) He).
      reflexivity. }
    apply list_elem_of_fmap in Hin as (d & [= Hname Hlong] & Hd). eauto.
  - intros n cs child offO Hn Hcs Hchild Hcross Hoff Hhas.
    destruct (Hedges n cs child Hn Hcs Hchild Hcross) as (_ & Hvalid).
    exact (Hvalid offO Hoff Hhas).
Qed.

End MissingGeography.

(** ** The properties on the sample tree *)

Section OnTheSampleTree.
Import Sample.

(** C1.  On the sample tree the edge from node 0 (at A) to node 3 (at
    B) has the transmission "0-3", indexed at position 0.  With new
    colours and visibility the parent's colour is "black" and the child
    is not visible, and a rebuild gives ("black", "hidden"); the updater
    returns the transmissions as they were, ("grey", "visible"), without
    a diagnostic: it never looks the id up. *)
Theorem transmission_update_leaves_edge_stale :
  let old := setupTransmissionData tree visibility0 "country" colours0 false places flat in
  let new := setupTransmissionData tree visibility1 "country" colours1 false places flat in
  colAndVis <$> transmissionData old = [("0-3", Some "grey", "visible")]
  /\ transmissionIndices old !! "0-3" = Some [0]
  /\ colours1 !! arrayIdx root = Some "black"
  /\ visibleFlag visibility1 (arrayIdx tipB) = "hidden"
  /\ colAndVis <$> transmissionData new = [("0-3", Some "black", "hidden")]
  /\ updateTransmissionDataColAndVis (transmissionData old) (transmissionIndices old)
       tree visibility1 "country" colours1
     = ([], Normal (transmissionData old)).
Proof.
  intros old new.
  do 5 (split; [vm_compute; reflexivity|]).
  apply updateTransmissionDataColAndVis_unchanged.
Qed.

(** C4.  The tree with a tip at X, which the table does not list, is
    built without an exception: demes for A and B, no [demeIndices]
    entry for X, X in the diagnostics.  The colour/visibility update of
    that dataset, with the same inputs, throws a TypeError to the
    caller. *)
Theorem deme_update_throws_on_unlisted_place :
  exists built,
    returned (createDemeAndTransmissionData treeX visibilityX "country" coloursX false
                places flat false) = Some built
    /\ Deme.name <$> md_demeData built = ["A"; "B"]
    /\ md_demeIndices built !! "X" = None
    /\ md_demesMissingLatLongs built = [JStr "X"]
    /\ (updateDemeAndTransmissionDataColAndVis (Some (md_demeData built))
          (Some (md_transmissionData built)) (md_demeIndices built)
          (md_transmissionIndices built) treeX visibilityX "country" coloursX false).2
       = Throw TypeError.
Proof.
  eexists. split; [vm_compute; reflexivity|].
  split; [vm_compute; reflexivity|].
  split; [vm_compute; reflexivity|].
  split; vm_compute; reflexivity.
Qed.


(** C3, as stated, fails: A and B are 200 degrees apart, yet the
    candidate with origin offset 0 and destination offset 360 is 160
    degrees apart and valid, and the build emits a transmission for the
    edge. *)
Lemma edge_200_degrees_apart_emits :
  (Qabs (longitude placeA - longitude placeB) == 200)%Q
  /\ num_lt (num_abs (num_sub (Num (longitude placeA + 0)) (Num (longitude placeB + 360))))
            (Num 180) = true
  /\ validPair (Num (longitude placeA + 0)) (Num (longitude placeB + 360)) = true
  /\ colAndVis <$> transmissionData
       (setupTransmissionData [inner 0 2000 "A" [tipB]; tipB] visibility0 "country" colours0
          false places flat)
     = [("0-3", Some "grey", "visible")].
Proof. repeat split; vm_compute; reflexivity. Qed.

(** The edge from the root (at A, longitude 100) to the tip at B
    (longitude -100). *)
Lemma edge_200_degrees_apart_witness :
  exists t d,
    ts_data (setupEdge root (geographicInfo places) "country" colours0 visibility0 flat
               (offsetsOf false)
               {| ts_data := []; ts_counts := ∅; ts_missing := [] |} tipB) = [] ++ [t]
    /\ Transmission.id t = transmissionId root tipB
    /\ Transmission.originLongitude t = Num (longitude placeA + 0)
    /\ Transmission.destinationLongitude t = Num d
    /\ (Qabs (longitude placeA + 0 - d) == 160)%Q.
Proof.
  refine (proj2 (edge_200_degrees_apart root tipB (geographicInfo places) "country"
                   placeA placeB colours0 visibility0 flat
                   {| ts_data := []; ts_counts := ∅; ts_missing := [] |} _ _ _ _ _ _ _ _)).
  - reflexivity.
  - reflexivity.
  - vm_compute. discriminate.
  - vm_compute. reflexivity.
  - vm_compute. reflexivity.
  - vm_compute. reflexivity.
  - split; vm_compute; discriminate.
  - split; vm_compute; discriminate.
Defined.

(** C5, as stated, fails for the deme build: a tip at X, which the table
    does not list, gets no deme and a console warning, and the returned
    set of missing places stays empty. *)
Lemma unlisted_tip_is_not_in_returned_set :
  lookupLatLong (geographicInfo places) "country" (JStr "X") = None
  /\ createDemeAndTransmissionData [tipX] [2] "country" ["red"] false places flat false
     = ([Warn ["Warning: Lat/long missing from metadata for"; "X"]],
        Normal {| md_demeData := []; md_transmissionData := [];
                  md_demeIndices := ∅; md_transmissionIndices := ∅;
                  md_demesMissingLatLongs := [] |}).
Proof. split; vm_compute; reflexivity. Qed.

(** The tree with a tip at X, in pie mode with triplication. *)
Lemma missing_geography_is_skipped_witness :
  exists built,
    returned (createDemeAndTransmissionData treeX visibilityX "country" coloursX true
                places flat true) = Some built
    /\ md_demeIndices built !! "X" = None
    /\ JStr "X" ∈ md_demesMissingLatLongs built.
Proof.
  destruct (missing_geography_is_skipped treeX visibilityX "country" coloursX true places
              (list_to_map [("A", placeA); ("B", placeB)]) flat true "X")
    as (built & Hb & _ & Hidx & _ & _ & Hmissing & _).
  - vm_compute. reflexivity.
  - vm_compute. reflexivity.
  - exists built. split; [exact Hb|]. split; [exact Hidx|].
    apply (Hmissing rootX [tipA1; tipA2; tipB; tipX] tipX).
    + left.
    + reflexivity.
    + do 3 right. left.
    + split; [reflexivity|]. split; [reflexivity|]. vm_compute. discriminate.
    + reflexivity.
Defined.


(** A tip whose trait is the empty string. *)
Lemma falsy_trait_as_undefined_witness :
  countTip visibility0 "country" colours0 [] 0 tipBlank = []
  /\ @getTraitFromNode (onlyTruthyTraits services) tipBlank "country" = JUndefined.
Proof.
  destruct (falsy_trait_as_undefined services tipBlank "country") as (Hcount & _ & _ & _ & Hu).
  - reflexivity.
  - split; [apply Hcount | exact Hu].
Defined.

End OnTheSampleTree.

(** * Further properties *)

(** ** Where the transmissions come from *)

Lemma minBy_from_min {A} (f : A -> Q) (best : A) (l : list A) :
  (f (minBy_from f best l) <= f best)%Q
  /\ forall b, b ∈ l -> (f (minBy_from f best l) <= f b)%Q.
Proof.
  revert best. induction l as [|a l IH]; intros best; cbn [minBy_from].
  - split; [apply Qle_refl|]. intros b Hb. inversion Hb.
  - destruct (IH (if Qltb (f a) (f best) then a else best)) as [Hbest Hall].
    destruct (Qltb (f a) (f best)) eqn:Hlt.
    + apply Qltb_lt in Hlt. split; [lra|].
      intros b Hb. apply elem_of_cons in Hb as [->|Hb]; [exact Hbest | apply Hall, Hb].
    + unfold Qltb in Hlt. apply negb_false_iff, Qle_bool_iff in Hlt. split; [exact Hbest|].
      intros b Hb. apply elem_of_cons in Hb as [->|Hb]; [lra | apply Hall, Hb].
Qed.

Lemma minBy_min {A} (f : A -> Q) (l : list A) (a : A) :
  minBy l f = Some a -> forall b, b ∈ l -> (f a <= f b)%Q.
Proof.
  destruct l as [|c l]; [discriminate|]. cbn [minBy]. intros [= <-] b Hb.
  destruct (minBy_from_min f c l) as [Hc Hall].
  apply elem_of_cons in Hb as [->|Hb]; [exact Hc | apply Hall, Hb].
Qed.

Lemma elem_of_option_list {A} (o : option A) (a : A) : a ∈ option_list o <-> o = Some a.
Proof.
  destruct o as [b|]; cbn.
  - rewrite list_elem_of_singleton. split; [intros ->; reflexivity | intros [= ->]; reflexivity].
  - split; [intros Hin; inversion Hin | discriminate].
Qed.

Section Provenance.
Context `{Externals}.

(** The candidate does not depend on the diagnostics gathered so far. *)
Lemma maybeConstruct_fst node child tbl res cols vis map offO offD extend m1 m2 :
  (maybeConstructTransmissionEvent node child tbl res cols vis map offO offD m1 extend).1
  = (maybeConstructTransmissionEvent node child tbl res cols vis map offO offD m2 extend).1.
Proof.
  unfold maybeConstructTransmissionEvent.
  destruct (lookupLatLong tbl res (getTraitFromNode node res));
    destruct (lookupLatLong tbl res (getTraitFromNode child res));
    cbv zeta iota beta; destruct (maybeGetTransmissionPair _ _ _ _ _) as [[? ?]|];
    reflexivity.
Qed.

(** The three candidates of one origin offset, in the order they are tried. *)
Lemma maybeGetClosest_events node child tbl res cols vis map offO missing extend :
  exists m1 m2,
    (maybeGetClosestTransmissionEvent node child tbl res cols vis map offO missing extend).1
    = minBy
        (option_list (maybeConstructTransmissionEvent node child tbl res cols vis map
                        offO (-360) missing extend).1
         ++ option_list (maybeConstructTransmissionEvent node child tbl res cols vis map
                           offO 0 m1 extend).1
         ++ option_list (maybeConstructTransmissionEvent node child tbl res cols vis map
                           offO 360 m2 extend).1)
        screenDistance.
Proof.
  unfold maybeGetClosestTransmissionEvent. cbn [foldl].
  destruct (maybeConstructTransmissionEvent node child tbl res cols vis map offO (-360)
              missing extend) as [r1 m1] eqn:E1.
  destruct (maybeConstructTransmissionEvent node child tbl res cols vis map offO 0
              m1 extend) as [r2 m2] eqn:E2.
  exists m1, m2. rewrite E2.
  destruct (maybeConstructTransmissionEvent node child tbl res cols vis map offO 360
              m2 extend) as [r3 m3] eqn:E3.
  cbn [fst snd]. destruct r1, r2, r3; reflexivity.
Qed.

Lemma maybeGetClosest_Forall (P : Transmission.t -> Prop)
    node child tbl res cols vis map offO missing extend t missing' :
  (forall offD m t' m', offD ∈ [-360; 0; 360]%Q ->
     maybeConstructTransmissionEvent node child tbl res cols vis map offO offD m extend
       = (Some t', m') -> P t') ->
  maybeGetClosestTransmissionEvent node child tbl res cols vis map offO missing extend
    = (Some t, missing') ->
  P t.
Proof.
  intros HP Hrun.
  destruct (maybeGetClosest_events node child tbl res cols vis map offO missing extend)
    as (m1 & m2 & Hev).
  rewrite Hrun in Hev. cbn [fst] in Hev. symmetry in Hev. apply minBy_elem in Hev.
  rewrite !elem_of_app in Hev.
  destruct Hev as [Hin|[Hin|Hin]]; apply elem_of_option_list in Hin;
    match type of Hin with
    | (maybeConstructTransmissionEvent _ _ _ _ _ _ _ _ ?o ?m _).1 = Some _ =>
        destruct (maybeConstructTransmissionEvent node child tbl res cols vis map offO o m
                    extend) as [r m'] eqn:E; cbn [fst] in Hin; subst r;
        apply (HP o m t m'); [|exact E]
    end.
  - left.
  - right; left.
  - right; right; left.
Qed.

Lemma pushClosestEvents_Forall (P : Transmission.t -> Prop)
    n child tbl res cols vis map offsets extend data missing :
  (forall offO offD m t m', offO ∈ offsets -> offD ∈ [-360; 0; 360]%Q ->
     maybeConstructTransmissionEvent n child tbl res cols vis map offO offD m extend
       = (Some t, m') -> P t) ->
  Forall P data ->
  Forall P (pushClosestEvents n child tbl res cols vis map offsets extend data missing).1.
Proof.
  unfold pushClosestEvents. revert data missing.
  induction offsets as [|off offsets IH]; intros data missing HP Hdata; cbn [foldl];
    [exact Hdata|].
  destruct (maybeGetClosestTransmissionEvent n child tbl res cols vis map off missing extend)
    as [r m1] eqn:E1.
  apply IH.
  - intros offO offD m t m' Hoff. apply HP. right. exact Hoff.
  - destruct r as [t|]; [|exact Hdata]. apply Forall_app. split; [exact Hdata|].
    constructor; [|constructor].
    eapply maybeGetClosest_Forall; [|exact E1].
    intros offD m t' m' HoffD. apply HP; [left | exact HoffD].
Qed.

Lemma setupEdge_Forall (P : Transmission.t -> Prop) n tbl res cols vis map offsets st child :
  (forall offO offD m extend t m',
     crossesDemes res n child -> offO ∈ offsets -> offD ∈ [-360; 0; 360]%Q ->
     1 <= extend ->
     maybeConstructTransmissionEvent n child tbl res cols vis map offO offD m extend
       = (Some t, m') -> P t) ->
  Forall P (ts_data st) ->
  Forall P (ts_data (setupEdge n tbl res cols vis map offsets st child)).
Proof.
  intros HP Hst. unfold setupEdge.
  destruct (truthy (getTraitFromNode n res) && truthy (getTraitFromNode child res)
            && strict_ne (getTraitFromNode n res) (getTraitFromNode child res)) eqn:Hguard;
    [|exact Hst].
  assert (Hcross : crossesDemes res n child).
  { apply andb_true_iff in Hguard as [Hguard Hne'].
    apply andb_true_iff in Hguard as [Hn Hc].
    apply bool_decide_eq_true in Hne'. split; [|split]; assumption. }
  set (key := pairKey (getTraitFromNode n res) (getTraitFromNode child res)).
  set (counts := match ts_counts st !! key with Some _ => _ | None => _ end).
  assert (Hextend : 1 <= default 0 (counts !! key)).
  { subst counts. destruct (ts_counts st !! key); rewrite lookup_insert_eq; cbn; lia. }
  pose proof (pushClosestEvents_Forall P n child tbl res cols vis map offsets
                (default 0 (counts !! key)) (ts_data st) (ts_missing st)) as Hpush.
  destruct (pushClosestEvents n child tbl res cols vis map offsets _ (ts_data st)
              (ts_missing st)) as [data' missing'].
  cbn [ts_data fst] in *. apply Hpush; [|exact Hst].
  intros offO offD m t m' HoffO HoffD. apply HP; assumption.
Qed.

(** Every transmission of the build is a candidate that
    [maybeConstructTransmissionEvent] made for an edge of the tree that
    passes the guard, with an origin offset of the world-copy mode, a
    destination offset from {-360, 0, 360} and a positive [extend]. *)
Lemma setupTransmissionData_Forall (P : Transmission.t -> Prop)
    nodes vis res cols triplicate metadata map :
  (forall n cs child offO offD m extend t m',
     n ∈ nodes -> children n = Some cs -> child ∈ cs -> crossesDemes res n child ->
     offO ∈ offsetsOf triplicate -> offD ∈ [-360; 0; 360]%Q -> 1 <= extend ->
     maybeConstructTransmissionEvent n child (geographicInfo metadata) res cols vis map
       offO offD m extend = (Some t, m') -> P t) ->
  Forall P (transmissionData (setupTransmissionData nodes vis res cols triplicate metadata map)).
Proof.
  intros HP. unfold setupTransmissionData. cbn [transmissionData].
  assert (Hgen : forall l st, (forall n, n ∈ l -> n ∈ nodes) -> Forall P (ts_data st) ->
            Forall P (ts_data (foldl (setupNode (geographicInfo metadata) res cols vis map
                                        (offsetsOf triplicate)) st l))).
  { induction l as [|n l IH]; intros st Hsub Hst; cbn [foldl]; [exact Hst|].
    apply IH; [intros n' Hn'; apply Hsub; right; exact Hn'|].
    unfold setupNode. destruct (children n) as [cs|] eqn:Hcs; [|exact Hst].
    assert (Hcs' : forall child, child ∈ cs -> child ∈ cs) by auto.
    revert Hcs' Hst. generalize cs at 1 3. intros l'. revert st.
    induction l' as [|child l' IH']; intros st Hsub' Hst; cbn [foldl]; [exact Hst|].
    apply IH'; [intros c Hc; apply Hsub'; right; exact Hc|].
    apply setupEdge_Forall; [|exact Hst].
    intros offO offD m extend t m' Hcross HoffO HoffD Hext.
    apply (HP n cs child); auto. apply Hsub. left. apply Hsub'. left. }
  apply Hgen; [auto | constructor].
Qed.

End Provenance.

(** ** What the deme build returns *)

Section BuiltDemes.
Context `{Externals}.

Lemma foldl_appendDeme_lookup (P : nat -> Deme.t -> Prop) pieChart table map off l D :
  (forall e k d, e ∈ l -> demeAt pieChart table map off k e = Some d -> P k d) ->
  (forall i d, D !! i = Some d -> P i d) ->
  forall i d, foldl (appendDeme pieChart table map off) D l !! i = Some d -> P i d.
Proof.
  revert D. induction l as [|e l IH]; intros D Hl HD; cbn [foldl]; [exact HD|].
  apply IH; [intros e' k d He'; apply Hl; right; exact He'|].
  unfold appendDeme. destruct (demeAt pieChart table map off (length D) e) as [d|] eqn:Hd;
    [|exact HD].
  intros i d' Hi. apply lookup_app_Some in Hi as [Hi|[Hlen Hi]]; [apply HD, Hi|].
  apply list_lookup_singleton_Some in Hi as [Hi <-].
  replace i with (length D) by lia. apply (Hl e); [left | exact Hd].
Qed.

(** The deme at position [i] is what some offset gives for some location
    of the aggregation, made when the collection had [i] elements. *)
Lemma demeList_lookup pieChart table map offsets M i d :
  demeList pieChart table map offsets M !! i = Some d ->
  exists off e, off ∈ offsets /\ e ∈ entries M
                /\ demeAt pieChart table map off i e = Some d.
Proof.
  unfold demeList.
  assert (Hgen : forall l D,
            (forall off, off ∈ l -> off ∈ offsets) ->
            (forall i d, D !! i = Some d ->
               exists off e, off ∈ offsets /\ e ∈ entries M
                             /\ demeAt pieChart table map off i e = Some d) ->
            forall i d,
              foldl (fun D off => foldl (appendDeme pieChart table map off) D (entries M)) D l
                !! i = Some d ->
              exists off e, off ∈ offsets /\ e ∈ entries M
                            /\ demeAt pieChart table map off i e = Some d).
  { induction l as [|off l IH]; intros D Hsub HD; cbn [foldl]; [exact HD|].
    apply IH; [intros off' Hoff'; apply Hsub; right; exact Hoff'|].
    apply foldl_appendDeme_lookup; [|exact HD].
    intros e k d' He Hd'. exists off, e. split; [apply Hsub; left|]. auto. }
  apply Hgen; [auto|]. intros j d' Hj. discriminate Hj.
Qed.

(** What a completed build holds, whether or not the table of the
    resolution exists. *)
Lemma built_demes nodes vis res cols triplicate metadata map pieChart built :
  returned (createDemeAndTransmissionData nodes vis res cols triplicate metadata map pieChart)
    = Some built ->
  md_demeIndices built = indexBy Deme.name (md_demeData built)
  /\ md_transmissionData built
     = transmissionData (setupTransmissionData nodes vis res cols triplicate metadata map)
  /\ md_transmissionIndices built = indexBy Transmission.id (md_transmissionData built)
  /\ md_demesMissingLatLongs built
     = demesMissingLatLongs (setupTransmissionData nodes vis res cols triplicate metadata map)
  /\ forall i d, md_demeData built !! i = Some d ->
       exists table off e,
         geographicInfo metadata !! res = Some table
         /\ off ∈ offsetsOf triplicate
         /\ e ∈ entries (getColorsForAllDemes nodes vis res cols)
         /\ demeAt pieChart table map off i e = Some d.
Proof.
  intros Hb. destruct (geographicInfo metadata !! res) as [table|] eqn:Ht.
  - destruct (createDemeAndTransmissionData_eq nodes vis res cols triplicate metadata table
                map pieChart Ht) as (b & Hb' & _ & HD & HI & HT & HTI & HM).
    rewrite Hb in Hb'. injection Hb' as <-.
    split; [exact HI|]. split; [exact HT|]. split; [rewrite HTI, HT; reflexivity|].
    split; [exact HM|].
    intros i d Hd. rewrite HD in Hd. apply demeList_lookup in Hd as (off & e & Hoff & He & Hd).
    exists table, off, e. auto.
  - unfold createDemeAndTransmissionData in Hb.
    rewrite (setupDemeData_no_table nodes vis _ _ _ _ _ _ Ht) in Hb.
    destruct (entries (getColorsForAllDemes nodes vis res cols)) as [|e l];
      [|discriminate Hb].
    cbn in Hb. injection Hb as <-. cbn.
    split; [reflexivity|]. split; [reflexivity|]. split; [reflexivity|].
    split; [reflexivity|]. intros i d Hd. discriminate Hd.
Qed.

End BuiltDemes.

(** ** The index maps *)

Lemma positions_ge {A} (key : A -> string) (k : string) (l : list A) (i j : nat) :
  j ∈ positions key k l i -> i <= j.
Proof. intros Hj. apply elem_of_positions in Hj as (a & Hle & _). exact Hle. Qed.

Lemma positions_sorted {A} (key : A -> string) (k : string) (l : list A) (i : nat) :
  StronglySorted lt (positions key k l i).
Proof.
  revert i. induction l as [|a l IH]; intros i; cbn [positions]; [constructor|].
  case_bool_decide; cbn [app]; [|apply IH].
  constructor; [apply IH|]. apply Forall_forall. intros j Hj.
  apply positions_ge in Hj. lia.
Qed.

(** An index map holds, under each key, the positions of the elements
    with that key, in ascending order, and no entry for a key without
    elements. *)
Lemma indexBy_spec {A} (key : A -> string) (l : list A) (k : string) :
  match indexBy key l !! k with
  | Some indices =>
      indices ≠ [] /\ StronglySorted lt indices
      /\ forall i, i ∈ indices <-> exists a, l !! i = Some a /\ key a = k
  | None => forall a, a ∈ l -> key a ≠ k
  end.
Proof.
  rewrite indexBy_lookup.
  pose proof (positions_sorted key k l 0) as Hsorted.
  pose proof (elem_of_positions key k l 0) as Hmem.
  destruct (positions key k l 0) as [|p ps] eqn:Hpos.
  - intros a Ha Hk. apply list_elem_of_lookup in Ha as [i Hi].
    specialize (Hmem i). rewrite Nat.sub_0_r in Hmem.
    assert (Hin : i ∈ @nil nat) by (apply Hmem; exists a; split; [lia | auto]).
    inversion Hin.
  - split; [discriminate|]. split; [exact Hsorted|].
    intros i. rewrite Hmem, Nat.sub_0_r. split.
    + intros (a & _ & Ha & Hk). eauto.
    + intros (a & Ha & Hk). exists a. split; [lia | auto].
Qed.

Section IndexMaps.
Context `{Externals}.

(** X1.  In a completed build, [demeIndices] has an entry for a location
    exactly when some deme has that name, and the entry lists, in
    ascending order, exactly the positions of the demes of that name. *)
Theorem demeIndices_list_positions
    nodes vis res cols triplicate metadata map pieChart built location :
  returned (createDemeAndTransmissionData nodes vis res cols triplicate metadata map pieChart)
    = Some built ->
  match md_demeIndices built !! location with
  | Some indices =>
      indices ≠ [] /\ StronglySorted lt indices
      /\ forall i, i ∈ indices
                   <-> exists d, md_demeData built !! i = Some d /\ Deme.name d = location
  | None => forall d, d ∈ md_demeData built -> Deme.name d ≠ location
  end.
Proof.
  intros Hb. apply built_demes in Hb as (-> & _).
  apply (indexBy_spec Deme.name).
Qed.

(** X2.  [transmissionIndices] has an entry for an id exactly when some
    transmission has that id, and the entry lists, in ascending order,
    exactly the positions of the transmissions with that id. *)
Theorem transmissionIndices_list_positions
    nodes vis res cols triplicate metadata map id :
  let built := setupTransmissionData nodes vis res cols triplicate metadata map in
  match transmissionIndices built !! id with
  | Some indices =>
      indices ≠ [] /\ StronglySorted lt indices
      /\ forall i, i ∈ indices
                   <-> exists t, transmissionData built !! i = Some t
                                 /\ Transmission.id t = id
  | None => forall t, t ∈ transmissionData built -> Transmission.id t ≠ id
  end.
Proof. intros built. apply (indexBy_spec Transmission.id). Qed.

End IndexMaps.

(** ** The demes of a build *)

Lemma foldl_add_sum {A} (f : A -> nat) (l : list A) (a : nat) :
  foldl (fun acc e => acc + f e) a l = a + sum_list_with f l.
Proof.
  revert a. induction l as [|e l IH]; intros a; cbn [foldl sum_list_with]; [lia|].
  rewrite IH. lia.
Qed.

Lemma totalVisible_obj_set (cc : Obj ColorCount) (col : string) (c : ColorCount) :
  totalVisible (obj_set cc col c) + nVisible (default emptyCount (obj_get cc col))
  = totalVisible cc + nVisible c.
Proof.
  unfold totalVisible. induction cc as [|[k v] cc IH]; cbn [obj_set obj_get sum_list_with].
  - cbn. lia.
  - destruct (String.eqb_spec col k) as [->|Hk]; cbn [sum_list_with fst snd from_option id].
    + lia.
    + cbn [from_option id] in IH. lia.
Qed.

Section BuiltDemeFacts.
Context `{Externals}.

Lemma sumVisible_total (cc : Obj ColorCount) : sumVisible cc = totalVisible cc.
Proof.
  unfold sumVisible, totalVisible. rewrite foldl_add_sum, entries_perm. reflexivity.
Qed.

Lemma totalVisible_countTip vis res cols M i n location :
  totalVisible (default [] (obj_get (countTip vis res cols M i n) location))
  = totalVisible (default [] (obj_get M location))
    + (if tipAt res location n && isVisible vis i then 1 else 0).
Proof.
  unfold countTip, tipAt.
  destruct (children n) as [cs|] eqn:Hch.
  { rewrite bool_decide_eq_true_2 by eauto.
    rewrite bool_decide_eq_false_2 by discriminate. cbn [andb]. lia. }
  rewrite (bool_decide_eq_false_2 (is_Some None)) by (intros [? ?]; discriminate).
  rewrite (bool_decide_eq_true_2 (None = None)) by reflexivity. cbn [andb].
  destruct (truthy (getTraitFromNode n res)) eqn:Ht; cbn [negb andb]; [|lia].
  set (loc := ToString (getTraitFromNode n res)).
  set (col := colorKey (cols !! i)).
  rewrite obj_get_set.
  destruct (String.eqb_spec location loc) as [->|Hloc].
  - rewrite bool_decide_eq_true_2 by reflexivity. cbn [from_option id].
    destruct (isVisible vis i); cbn [andb];
      match goal with
      | |- context [obj_set ?cc ?k ?c] => pose proof (totalVisible_obj_set cc k c) as Hset
      end; cbn [nVisible nTotal from_option id] in Hset |- *; lia.
  - rewrite bool_decide_eq_false_2 by congruence. cbn [andb]. lia.
Qed.

Lemma totalVisible_forEachIdx vis res cols nodes i M location :
  totalVisible (default [] (obj_get (forEachIdx (countTip vis res cols) nodes i M) location))
  = totalVisible (default [] (obj_get M location))
    + tally (fun i n => tipAt res location n && isVisible vis i) nodes i.
Proof.
  revert i M. induction nodes as [|n nodes IH]; intros i M; cbn [forEachIdx tally]; [lia|].
  rewrite IH, totalVisible_countTip. lia.
Qed.

Lemma entries_obj_get {V} (o : Obj V) (e : string * V) :
  NoDup o.*1 -> e ∈ entries o -> obj_get o e.1 = Some e.2.
Proof.
  intros Hnd He. destruct e as [k v]. apply obj_get_elem; [exact Hnd|].
  rewrite <- (entries_perm o). exact He.
Qed.

Lemma demeAt_fields pieChart table map off k e d :
  demeAt pieChart table map off k e = Some d ->
  exists g,
    table !! e.1 = Some g
    /\ Deme.name d = e.1
    /\ Deme.latitude d = latitude g
    /\ Deme.longitude d = (longitude g + off)%Q
    /\ (-360 < longitude g + off /\ longitude g + off < 360)%Q
    /\ Deme.coords d
       = latLngToLayerPoint map (Num (latitude g)) (Num (longitude g + off))
    /\ Deme.count d = sumVisible e.2
    /\ d = newDeme pieChart e.1 e.2 (latitude g) (longitude g + off)
             (latLngToLayerPoint map (Num (latitude g)) (Num (longitude g + off))) k.
Proof.
  unfold demeAt. destruct (table !! e.1) as [g|]; [|discriminate].
  destruct (num_gt _ _ && num_lt _ _) eqn:Hwin; [|discriminate]. intros [= <-].
  apply andb_true_iff in Hwin as [Hw He]. unfold westBound, eastBound in Hw, He.
  cbn [num_gt num_lt] in Hw, He. apply Qltb_lt in Hw, He.
  exists g. split; [reflexivity|]. destruct pieChart; cbn; repeat split; assumption.
Qed.

(** X3.  Every deme of a completed build stands for a location of the
    colour aggregation that the table of the resolution lists: its raw
    latitude is the table's, its raw longitude the table's plus one of
    the offsets of the world-copy mode and strictly between -360 and
    360, its coords their projection, and its count the sum of the
    visible counts of that location. *)
Theorem built_deme_geometry
    nodes vis res cols triplicate metadata map pieChart built i d :
  returned (createDemeAndTransmissionData nodes vis res cols triplicate metadata map pieChart)
    = Some built ->
  md_demeData built !! i = Some d ->
  exists table g off colorCounts,
    geographicInfo metadata !! res = Some table
    /\ table !! Deme.name d = Some g
    /\ obj_get (getColorsForAllDemes nodes vis res cols) (Deme.name d) = Some colorCounts
    /\ off ∈ offsetsOf triplicate
    /\ Deme.latitude d = latitude g
    /\ Deme.longitude d = (longitude g + off)%Q
    /\ (-360 < Deme.longitude d /\ Deme.longitude d < 360)%Q
    /\ Deme.coords d = latLngToLayerPoint map (Num (Deme.latitude d)) (Num (Deme.longitude d))
    /\ Deme.count d = sumVisible colorCounts.
Proof.
  intros Hb Hd. apply built_demes in Hb as (_ & _ & _ & _ & Hdemes).
  destruct (Hdemes i d Hd) as (table & off & e & Ht & Hoff & He & Hat).
  apply demeAt_fields in Hat as (g & Hg & Hname & Hlat & Hlong & Hwin & Hcoords & Hcount & _).
  exists table, g, off, e.2. rewrite Hname, Hlat, Hlong.
  split; [exact Ht|]. split; [exact Hg|].
  split; [apply entries_obj_get; [apply getColorsForAllDemes_NoDup | exact He]|].
  auto 10.
Qed.

(** X4.  A deme built in blended mode has a colour, the blend of the
    counts of its location, and no slices.  A deme built in pie mode has
    no colour and the slices that [pie] returns for the visible counts
    of its location in key order: as many, each with the data, value,
    index, start and end angle and pad angle that [pie] gave it, and
    tagged with the colour key at its position, inner radius 0 and the
    position of the deme in the collection. *)
Theorem built_deme_visual
    nodes vis res cols triplicate metadata map pieChart built i d :
  returned (createDemeAndTransmissionData nodes vis res cols triplicate metadata map pieChart)
    = Some built ->
  md_demeData built !! i = Some d ->
  exists colorCounts,
    obj_get (getColorsForAllDemes nodes vis res cols) (Deme.name d) = Some colorCounts
    /\ if pieChart then
         Deme.color d = None
         /\ exists arcs,
              Deme.arcs d = Some arcs
              /\ length arcs
                 = length (pie ((fun e => nVisible e.2) <$> entries colorCounts))
              /\ forall j a, arcs !! j = Some a ->
                   Arc.color a = keys colorCounts !! j
                   /\ Arc.innerRadius a = Some 0%Q
                   /\ Arc.demeDataIdx a = Some i
                   /\ exists slice,
                        pie ((fun e => nVisible e.2) <$> entries colorCounts) !! j
                          = Some slice
                        /\ Arc.data a = Arc.data slice
                        /\ Arc.value a = Arc.value slice
                        /\ Arc.index a = Arc.index slice
                        /\ Arc.startAngle a = Arc.startAngle slice
                        /\ Arc.endAngle a = Arc.endAngle slice
                        /\ Arc.padAngle a = Arc.padAngle slice
       else
         Deme.arcs d = None /\ Deme.color d = Some (averageColorsDict colorCounts).
Proof.
  intros Hb Hd. apply built_demes in Hb as (_ & _ & _ & _ & Hdemes).
  destruct (Hdemes i d Hd) as (table & off & e & Ht & Hoff & He & Hat).
  apply demeAt_fields in Hat as (g & _ & Hname & _ & _ & _ & _ & _ & ->).
  exists e.2. split.
  { rewrite Hname. apply entries_obj_get; [apply getColorsForAllDemes_NoDup | exact He]. }
  destruct pieChart; cbn [newDeme Deme.color Deme.arcs]; [|auto].
  split; [reflexivity|]. eexists. split; [reflexivity|].
  unfold tagArcs. split; [apply length_imap|].
  intros j a Ha. rewrite list_lookup_imap in Ha.
  destruct (pie _ !! j) as [slice|] eqn:Hslice; [|discriminate Ha].
  cbn in Ha. injection Ha as <-. cbn. repeat split. exists slice. repeat split.
Qed.

(** X5.  The count of every deme of a completed build is the number of
    tips at its location (nodes without children whose trait is set
    and names it) that are not "not-visible". *)
Theorem built_deme_counts_visible_tips
    nodes vis res cols triplicate metadata map pieChart built d :
  returned (createDemeAndTransmissionData nodes vis res cols triplicate metadata map pieChart)
    = Some built ->
  d ∈ md_demeData built ->
  Deme.count d
  = tally (fun i n => tipAt res (Deme.name d) n && isVisible vis i) nodes 0.
Proof.
  intros Hb Hd. apply built_demes in Hb as (_ & _ & _ & _ & Hdemes).
  apply list_elem_of_lookup in Hd as [i Hd].
  destruct (Hdemes i d Hd) as (table & off & e & Ht & Hoff & He & Hat).
  apply demeAt_fields in Hat as (g & _ & Hname & _ & _ & _ & _ & Hcount & _).
  rewrite Hcount, sumVisible_total, Hname.
  pose proof (entries_obj_get _ e (getColorsForAllDemes_NoDup nodes vis res cols) He) as Hget.
  pose proof (totalVisible_forEachIdx vis res cols nodes 0 [] e.1) as Htotal.
  fold (getColorsForAllDemes nodes vis res cols) in Htotal.
  rewrite Hget in Htotal. cbn in Htotal. exact Htotal.
Qed.

Lemma omap_fst_NoDup {V W} (f : string * V -> option (string * W)) (l : list (string * V)) :
  (forall e p, f e = Some p -> p.1 = e.1) -> NoDup l.*1 -> NoDup (omap f l).*1.
Proof.
  intros Hf. induction l as [|e l IH]; intros Hnd; cbn [omap list_omap]; [constructor|].
  cbn [fmap list_fmap] in Hnd. apply NoDup_cons in Hnd as [Hnotin Hnd].
  destruct (f e) as [p|] eqn:Hp; [|apply IH, Hnd].
  cbn [fmap list_fmap]. apply NoDup_cons. split; [|apply IH, Hnd].
  rewrite (Hf e p Hp). intros Hin. apply Hnotin.
  apply list_elem_of_fmap in Hin as (q & Hq & Hin).
  apply list_elem_of_omap in Hin as (e' & He' & Hfe').
  apply list_elem_of_fmap. exists e'. split; [|exact He'].
  rewrite Hq. apply (Hf e' q Hfe').
Qed.

(** X6.  Without triplication a completed build has at most one deme per
    location: the names of its demes are pairwise distinct, and every
    entry of [demeIndices] is a single position. *)
Theorem single_copy_has_one_deme_per_location
    nodes vis res cols metadata map pieChart built :
  returned (createDemeAndTransmissionData nodes vis res cols false metadata map pieChart)
    = Some built ->
  NoDup (Deme.name <$> md_demeData built)
  /\ forall location indices,
       md_demeIndices built !! location = Some indices -> exists i, indices = [i].
Proof.
  intros Hb.
  assert (Hnd : NoDup (Deme.name <$> md_demeData built)).
  { destruct (geographicInfo metadata !! res) as [table|] eqn:Ht.
    - destruct (createDemeAndTransmissionData_eq nodes vis res cols false metadata table
                  map pieChart Ht) as (b & Hb' & _ & HD & _).
      rewrite Hb in Hb'. injection Hb' as <-.
      pose proof (demeList_places pieChart table map (offsetsOf false)
                    (getColorsForAllDemes nodes vis res cols)) as Hplaces.
      rewrite <- HD in Hplaces. cbn [offsetsOf] in Hplaces.
      rewrite bind_cons in Hplaces. cbn [mbind list_bind] in Hplaces.
      rewrite app_nil_r in Hplaces.
      replace (Deme.name <$> md_demeData built)
        with (((fun d => (Deme.name d, Deme.longitude d)) <$> md_demeData built).*1)
        by (rewrite <- list_fmap_compose; reflexivity).
      rewrite Hplaces. apply omap_fst_NoDup.
      + intros e p. unfold placeAt. destruct (table !! e.1); [|discriminate].
        case_match; [|discriminate]. intros [= <-]. reflexivity.
      + apply entries_NoDup, getColorsForAllDemes_NoDup.
    - apply built_demes in Hb as (_ & _ & _ & _ & Hdemes).
      destruct (md_demeData built) as [|d l]; [constructor|].
      destruct (Hdemes 0 d eq_refl) as (table & _ & _ & Habs & _). congruence. }
  split; [exact Hnd|].
  intros location indices Hidx.
  apply built_demes in Hb as (HI & _).
  pose proof (indexBy_spec Deme.name (md_demeData built) location) as Hspec.
  rewrite <- HI, Hidx in Hspec. destruct Hspec as (Hne & Hsorted & Hmem).
  destruct indices as [|i [|j rest]]; [congruence | eauto |].
  exfalso.
  destruct (proj1 (Hmem i) ltac:(left)) as (di & Hdi & Hni).
  destruct (proj1 (Hmem j) ltac:(right; left)) as (dj & Hdj & Hnj).
  apply StronglySorted_inv in Hsorted as [_ Hlt].
  apply Forall_cons in Hlt as [Hlt _].
  assert (Hij : i = j); [|lia].
  eapply NoDup_lookup; [exact Hnd| |].
  - rewrite list_lookup_fmap, Hdi. reflexivity.
  - rewrite list_lookup_fmap, Hdj. cbn. congruence.
Qed.

End BuiltDemeFacts.

(** ** The transmissions of a build *)

Section BuiltTransmissions.
Context `{Externals}.

Lemma maybeConstruct_inv node child tbl res cols vis map offO offD m extend t m' :
  maybeConstructTransmissionEvent node child tbl res cols vis map offO offD m extend
    = (Some t, m') ->
  exists gO gD,
    lookupLatLong tbl res (getTraitFromNode node res) = Some gO
    /\ lookupLatLong tbl res (getTraitFromNode child res) = Some gD
    /\ validPair (Num (longitude gO + offO)) (Num (longitude gD + offD)) = true
    /\ m' = m
    /\ t = {|
         Transmission.id := transmissionId node child;
         Transmission.originNode := node;
         Transmission.destinationNode := child;
         Transmission.bezierCurve :=
           bezier (latLngToLayerPoint map (Num (latitude gO)) (Num (longitude gO + offO)))
                  (latLngToLayerPoint map (Num (latitude gD)) (Num (longitude gD + offD)))
                  extend;
         Transmission.bezierDates := Transmission.bezierDates t;
         Transmission.originName := getTraitFromNode node res;
         Transmission.destinationName := getTraitFromNode child res;
         Transmission.originCoords :=
           latLngToLayerPoint map (Num (latitude gO)) (Num (longitude gO + offO));
         Transmission.destinationCoords :=
           latLngToLayerPoint map (Num (latitude gD)) (Num (longitude gD + offD));
         Transmission.originLatitude := Num (latitude gO);
         Transmission.destinationLatitude := Num (latitude gD);
         Transmission.originLongitude := Num (longitude gO + offO);
         Transmission.destinationLongitude := Num (longitude gD + offD);
         Transmission.originNumDate := num_date node;
         Transmission.destinationNumDate := num_date child;
         Transmission.color := cols !! arrayIdx node;
         Transmission.visible := visibleFlag vis (arrayIdx child);
         Transmission.extend := extend |}
    /\ length (Transmission.bezierDates t) = length (Transmission.bezierCurve t).
Proof.
  unfold maybeConstructTransmissionEvent.
  destruct (lookupLatLong tbl res (getTraitFromNode node res)) as [gO|] eqn:HO;
    destruct (lookupLatLong tbl res (getTraitFromNode child res)) as [gD|] eqn:HD;
    rewrite maybeGetTransmissionPair_eq;
    cbn [num_add]; rewrite ?validPair_NaN_l, ?validPair_NaN_r; try discriminate.
  destruct (validPair _ _) eqn:Hv; [|discriminate]. intros [= <- <-].
  exists gO, gD. cbn. rewrite length_imap. auto 10.
Qed.

(** X7.  Every transmission of the build belongs to an edge of the tree
    (a node of the node list and one of its children) whose two traits
    are set and distinct: it refers to the two nodes, carries the id
    "<parentArrayIdx>-<childArrayIdx>", the two traits as names, the two
    numeric dates, the parent's colour and "visible" or "hidden" after
    the child's visibility. *)
Theorem transmissions_belong_to_edges nodes vis res cols triplicate metadata map :
  Forall (fun t =>
            exists n cs child,
              n ∈ nodes /\ children n = Some cs /\ child ∈ cs
              /\ truthy (getTraitFromNode n res) = true
              /\ truthy (getTraitFromNode child res) = true
              /\ getTraitFromNode n res ≠ getTraitFromNode child res
              /\ Transmission.originNode t = n
              /\ Transmission.destinationNode t = child
              /\ Transmission.id t
                 = pretty (arrayIdx n) +:+ "-" +:+ pretty (arrayIdx child)
              /\ Transmission.originName t = getTraitFromNode n res
              /\ Transmission.destinationName t = getTraitFromNode child res
              /\ Transmission.originNumDate t = num_date n
              /\ Transmission.destinationNumDate t = num_date child
              /\ Transmission.color t = cols !! arrayIdx n
              /\ Transmission.visible t
                 = (if isVisible vis (arrayIdx child) then "visible" else "hidden"))
         (transmissionData
            (setupTransmissionData nodes vis res cols triplicate metadata map)).
Proof.
  apply setupTransmissionData_Forall.
  intros n cs child offO offD m extend t m' Hn Hcs Hchild (Htn & Htc & Hne) _ _ _ Hrun.
  apply maybeConstruct_inv in Hrun as (gO & gD & _ & _ & _ & _ & -> & _).
  exists n, cs, child. cbn. auto 20.
Qed.

(** X8.  Every transmission of the build joins two places that the
    table lists: its raw latitudes are the table's, its raw longitudes
    the table's plus an origin offset of the world-copy mode and a
    destination offset from {-360, 0, 360}; the two longitudes are less
    than 180 apart and one of them lies strictly between -360 and 360;
    its end points are the projections of the raw values, its curve is
    [bezier] of the end points with its [extend], which is at least 1,
    and it has one date per point of the curve. *)
Theorem transmissions_are_valid_pairs nodes vis res cols triplicate metadata map :
  Forall (fun t =>
            exists gO gD offO offD,
              lookupLatLong (geographicInfo metadata) res (Transmission.originName t)
                = Some gO
              /\ lookupLatLong (geographicInfo metadata) res (Transmission.destinationName t)
                 = Some gD
              /\ offO ∈ offsetsOf triplicate /\ offD ∈ [-360; 0; 360]%Q
              /\ Transmission.originLatitude t = Num (latitude gO)
              /\ Transmission.destinationLatitude t = Num (latitude gD)
              /\ Transmission.originLongitude t = Num (longitude gO + offO)
              /\ Transmission.destinationLongitude t = Num (longitude gD + offD)
              /\ (Qabs ((longitude gO + offO) - (longitude gD + offD)) < 180)%Q
              /\ ((-360 < longitude gO + offO /\ longitude gO + offO < 360)
                  \/ (-360 < longitude gD + offD /\ longitude gD + offD < 360))%Q
              /\ Transmission.originCoords t
                 = latLngToLayerPoint map (Transmission.originLatitude t)
                     (Transmission.originLongitude t)
              /\ Transmission.destinationCoords t
                 = latLngToLayerPoint map (Transmission.destinationLatitude t)
                     (Transmission.destinationLongitude t)
              /\ Transmission.bezierCurve t
                 = bezier (Transmission.originCoords t) (Transmission.destinationCoords t)
                     (Transmission.extend t)
              /\ 1 <= Transmission.extend t
              /\ length (Transmission.bezierDates t) = length (Transmission.bezierCurve t))
         (transmissionData
            (setupTransmissionData nodes vis res cols triplicate metadata map)).
Proof.
  apply setupTransmissionData_Forall.
  intros n cs child offO offD m extend t m' _ _ _ _ HoffO HoffD Hext Hrun.
  apply maybeConstruct_inv in Hrun as (gO & gD & HO & HD & Hv & _ & Ht & Hlen).
  exists gO, gD, offO, offD.
  apply validPair_Num in Hv as (Hw & He & Ha).
  assert (Habs : (Qabs (longitude gO + offO - (longitude gD + offD)) < 180)%Q)
    by (apply Qabs_lt_iff; lra).
  assert (Hwin : ((-360 < longitude gO + offO /\ longitude gO + offO < 360)
                  \/ (-360 < longitude gD + offD /\ longitude gD + offD < 360))%Q).
  { destruct (Qlt_le_dec (longitude gO + offO) 360),
      (Qlt_le_dec (-360) (longitude gO + offO)),
      (Qlt_le_dec (longitude gD + offD) 360),
      (Qlt_le_dec (-360) (longitude gD + offD));
      first [left; split; lra | right; split; lra | exfalso; lra]. }
  rewrite Ht in Hlen |- *. cbn in Hlen |- *. auto 20.
Qed.

End BuiltTransmissions.

(** ** The closest candidate *)

Section Closest.
Context `{Externals}.

(** X9.  For one origin offset, [maybeGetClosestTransmissionEvent]
    returns one of the candidates that [maybeConstructTransmissionEvent]
    makes over the destination offsets -360, 0 and 360, and none of the
    candidates has a smaller horizontal screen distance between its end
    points; it returns nothing exactly when none of the three destination
    offsets gives a candidate. *)
Theorem closest_event_minimises_screen_distance
    node child tbl res cols vis map offO missing extend :
  match (maybeGetClosestTransmissionEvent node child tbl res cols vis map offO missing
           extend).1 with
  | Some t =>
      (exists offD, offD ∈ [-360; 0; 360]%Q
         /\ (maybeConstructTransmissionEvent node child tbl res cols vis map offO offD
               missing extend).1 = Some t)
      /\ forall offD t', offD ∈ [-360; 0; 360]%Q ->
           (maybeConstructTransmissionEvent node child tbl res cols vis map offO offD
              missing extend).1 = Some t' ->
           (screenDistance t <= screenDistance t')%Q
  | None =>
      forall offD, offD ∈ [-360; 0; 360]%Q ->
        (maybeConstructTransmissionEvent node child tbl res cols vis map offO offD
           missing extend).1 = None
  end.
Proof.
  destruct (maybeGetClosest_events node child tbl res cols vis map offO missing extend)
    as (m1 & m2 & ->).
  rewrite (maybeConstruct_fst node child tbl res cols vis map offO 0 extend m1 missing).
  rewrite (maybeConstruct_fst node child tbl res cols vis map offO 360 extend m2 missing).
  set (c := fun offD => (maybeConstructTransmissionEvent node child tbl res cols vis map
                           offO offD missing extend).1).
  change (match minBy (option_list (c (-360)%Q) ++ option_list (c 0%Q)
                       ++ option_list (c 360%Q)) screenDistance with
          | Some t =>
              (exists offD, offD ∈ [-360; 0; 360]%Q /\ c offD = Some t)
              /\ forall offD t', offD ∈ [-360; 0; 360]%Q -> c offD = Some t' ->
                   (screenDistance t <= screenDistance t')%Q
          | None => forall offD, offD ∈ [-360; 0; 360]%Q -> c offD = None
          end).
  assert (Hmem : forall t, t ∈ option_list (c (-360)%Q) ++ option_list (c 0%Q)
                             ++ option_list (c 360%Q)
                           <-> exists offD, offD ∈ [-360; 0; 360]%Q /\ c offD = Some t).
  { intros t. rewrite !elem_of_app, !elem_of_option_list. split.
    - intros [Ht|[Ht|Ht]]; eexists; (split; [|exact Ht]);
        [left | right; left | right; right; left].
    - intros (offD & Hoff & Ht). rewrite !elem_of_cons, elem_of_nil in Hoff.
      destruct Hoff as [->|[->|[->|[]]]]; auto. }
  destruct (minBy _ screenDistance) as [t|] eqn:Hmin.
  - split; [apply Hmem; eapply minBy_elem; exact Hmin|].
    intros offD t' Hoff Ht'. eapply minBy_min; [exact Hmin|]. apply Hmem. eauto.
  - intros offD Hoff. destruct (c offD) as [t'|] eqn:Ht'; [|reflexivity]. exfalso.
    assert (Hin : t' ∈ option_list (c (-360)%Q) ++ option_list (c 0%Q)
                        ++ option_list (c 360%Q)) by (apply Hmem; eauto).
    destruct (option_list (c (-360)%Q) ++ option_list (c 0%Q) ++ option_list (c 360%Q));
      [inversion Hin | discriminate Hmin].
Qed.

End Closest.

(** ** The diagnostics of the transmission build *)

Lemma set_add_inv (P : JsVal -> Prop) (v : JsVal) (s : list JsVal) :
  P v -> Forall P s /\ NoDup s -> Forall P (set_add v s) /\ NoDup (set_add v s).
Proof.
  intros Hv [Hall Hnd]. unfold set_add. case_bool_decide as Hin; [auto|]. split.
  - apply Forall_app. split; [exact Hall | repeat constructor; exact Hv].
  - apply NoDup_app. split; [exact Hnd|]. split; [|apply NoDup_singleton].
    intros w Hw Hw'. apply list_elem_of_singleton in Hw'. subst w. contradiction.
Qed.

Section Diagnostics.
Context `{Externals}.

Lemma maybeConstruct_missing (P : JsVal -> Prop)
    node child tbl res cols vis map offO offD m extend :
  (lookupLatLong tbl res (getTraitFromNode node res) = None -> P (getTraitFromNode node res)) ->
  (lookupLatLong tbl res (getTraitFromNode child res) = None ->
   P (getTraitFromNode child res)) ->
  Forall P m /\ NoDup m ->
  let m' := (maybeConstructTransmissionEvent node child tbl res cols vis map offO offD m
               extend).2 in
  Forall P m' /\ NoDup m'.
Proof.
  intros HPn HPc Hm. unfold maybeConstructTransmissionEvent.
  destruct (lookupLatLong tbl res (getTraitFromNode node res)) as [gO|];
    destruct (lookupLatLong tbl res (getTraitFromNode child res)) as [gD|];
    cbv zeta iota beta; destruct (maybeGetTransmissionPair _ _ _ _ _) as [[? ?]|];
    cbn [snd]; auto using set_add_inv.
Qed.

Lemma maybeGetClosest_missing (P : JsVal -> Prop)
    n child tbl res cols vis map off m extend :
  (lookupLatLong tbl res (getTraitFromNode n res) = None -> P (getTraitFromNode n res)) ->
  (lookupLatLong tbl res (getTraitFromNode child res) = None ->
   P (getTraitFromNode child res)) ->
  Forall P m /\ NoDup m ->
  Forall P (maybeGetClosestTransmissionEvent n child tbl res cols vis map off m extend).2
  /\ NoDup (maybeGetClosestTransmissionEvent n child tbl res cols vis map off m extend).2.
Proof.
  intros HPn HPc Hm. unfold maybeGetClosestTransmissionEvent. cbn [foldl].
  pose proof (maybeConstruct_missing P n child tbl res cols vis map off (-360) m extend
                HPn HPc Hm) as H1. cbv zeta in H1.
  destruct (maybeConstructTransmissionEvent n child tbl res cols vis map off (-360) m extend)
    as [r1 m1]. cbn [snd] in H1.
  pose proof (maybeConstruct_missing P n child tbl res cols vis map off 0 m1 extend
                HPn HPc H1) as H2. cbv zeta in H2.
  destruct (maybeConstructTransmissionEvent n child tbl res cols vis map off 0 m1 extend)
    as [r2 m2]. cbn [snd] in H2.
  pose proof (maybeConstruct_missing P n child tbl res cols vis map off 360 m2 extend
                HPn HPc H2) as H3. cbv zeta in H3.
  destruct (maybeConstructTransmissionEvent n child tbl res cols vis map off 360 m2 extend)
    as [r3 m3]. cbn [snd] in H3 |- *. exact H3.
Qed.

Lemma pushClosestEvents_missing (P : JsVal -> Prop)
    n child tbl res cols vis map offsets extend data m :
  (lookupLatLong tbl res (getTraitFromNode n res) = None -> P (getTraitFromNode n res)) ->
  (lookupLatLong tbl res (getTraitFromNode child res) = None ->
   P (getTraitFromNode child res)) ->
  Forall P m /\ NoDup m ->
  Forall P (pushClosestEvents n child tbl res cols vis map offsets extend data m).2
  /\ NoDup (pushClosestEvents n child tbl res cols vis map offsets extend data m).2.
Proof.
  intros HPn HPc. unfold pushClosestEvents. revert data m.
  induction offsets as [|off offsets IH]; intros data m Hm; cbn [foldl]; [exact Hm|].
  pose proof (maybeGetClosest_missing P n child tbl res cols vis map off m extend
                HPn HPc Hm) as H1.
  destruct (maybeGetClosestTransmissionEvent n child tbl res cols vis map off m extend)
    as [r m1]. cbn [snd] in H1.
  apply IH. exact H1.
Qed.

Lemma setupEdge_missing (P : JsVal -> Prop) n tbl res cols vis map offsets st child :
  (crossesDemes res n child ->
   (lookupLatLong tbl res (getTraitFromNode n res) = None -> P (getTraitFromNode n res))
   /\ (lookupLatLong tbl res (getTraitFromNode child res) = None ->
       P (getTraitFromNode child res))) ->
  Forall P (ts_missing st) /\ NoDup (ts_missing st) ->
  Forall P (ts_missing (setupEdge n tbl res cols vis map offsets st child))
  /\ NoDup (ts_missing (setupEdge n tbl res cols vis map offsets st child)).
Proof.
  intros HP Hst. unfold setupEdge.
  destruct (truthy (getTraitFromNode n res) && truthy (getTraitFromNode child res)
            && strict_ne (getTraitFromNode n res) (getTraitFromNode child res)) eqn:Hguard;
    [|exact Hst].
  assert (Hcross : crossesDemes res n child).
  { apply andb_true_iff in Hguard as [Hguard Hne'].
    apply andb_true_iff in Hguard as [Hn Hc].
    apply bool_decide_eq_true in Hne'. split; [|split]; assumption. }
  destruct (HP Hcross) as [HPn HPc].
  match goal with
  | |- context [pushClosestEvents n child tbl res cols vis map offsets ?e ?d ?m] =>
      pose proof (pushClosestEvents_missing P n child tbl res cols vis map offsets e d m
                    HPn HPc Hst) as Hpush; cbn [snd] in Hpush;
      destruct (pushClosestEvents n child tbl res cols vis map offsets e d m)
        as [data' missing']
  end.
  exact Hpush.
Qed.

(** X10.  The returned set [demesMissingLatLongs] holds no value twice,
    and holds only traits that are set and that the lookup table does
    not list, each the trait of an end point of an edge of the tree (a
    listed node and one of its children) whose two traits are both set
    and distinct. *)
Theorem missing_set_holds_only_unlisted_endpoints
    nodes vis res cols triplicate metadata map :
  let missing :=
    demesMissingLatLongs (setupTransmissionData nodes vis res cols triplicate metadata map) in
  NoDup missing
  /\ Forall (fun v =>
               truthy v = true
               /\ lookupLatLong (geographicInfo metadata) res v = None
               /\ exists n cs child,
                    n ∈ nodes /\ children n = Some cs /\ child ∈ cs
                    /\ truthy (getTraitFromNode n res) = true
                    /\ truthy (getTraitFromNode child res) = true
                    /\ getTraitFromNode n res ≠ getTraitFromNode child res
                    /\ (v = getTraitFromNode n res \/ v = getTraitFromNode child res))
            missing.
Proof.
  intros missing. subst missing. unfold setupTransmissionData. cbn [demesMissingLatLongs].
  set (P := fun v => truthy v = true
               /\ lookupLatLong (geographicInfo metadata) res v = None
               /\ exists n cs child,
                    n ∈ nodes /\ children n = Some cs /\ child ∈ cs
                    /\ truthy (getTraitFromNode n res) = true
                    /\ truthy (getTraitFromNode child res) = true
                    /\ getTraitFromNode n res ≠ getTraitFromNode child res
                    /\ (v = getTraitFromNode n res \/ v = getTraitFromNode child res)).
  assert (Hgen : forall l st, (forall n, n ∈ l -> n ∈ nodes) ->
            Forall P (ts_missing st) /\ NoDup (ts_missing st) ->
            let st' := foldl (setupNode (geographicInfo metadata) res cols vis map
                                (offsetsOf triplicate)) st l in
            Forall P (ts_missing st') /\ NoDup (ts_missing st')).
  { induction l as [|n l IH]; intros st Hsub Hst; cbn [foldl]; [exact Hst|].
    apply IH; [intros n' Hn'; apply Hsub; right; exact Hn'|].
    unfold setupNode. destruct (children n) as [cs|] eqn:Hcs; [|exact Hst].
    assert (Hcs' : forall child, child ∈ cs -> child ∈ cs) by auto.
    revert Hcs' Hst. generalize cs at 1 3 4. intros l'. revert st.
    induction l' as [|child l' IH']; intros st Hsub' Hst; cbn [foldl]; [exact Hst|].
    apply IH'; [intros c Hc; apply Hsub'; right; exact Hc|].
    apply setupEdge_missing; [|exact Hst].
    intros (Htn & Htc & Hne). split; intros Hnone; (split; [assumption|]);
      (split; [exact Hnone|]); exists n, cs, child;
      (split; [apply Hsub; left|]); (split; [exact Hcs|]);
      (split; [apply Hsub'; left|]); auto 6. }
  destruct (Hgen nodes {| ts_data := []; ts_counts := ∅; ts_missing := [] |}) as [Hall Hnd].
  - auto.
  - split; constructor.
  - split; assumption.
Qed.

End Diagnostics.

(** ** Projection updates *)

Lemma fmap_id_Forall {A} (f : A -> A) (l : list A) :
  Forall (fun a => f a = a) l -> f <$> l = l.
Proof.
  induction 1 as [|a l Ha _ IH]; [reflexivity|]. cbn [fmap list_fmap].
  rewrite Ha. f_equal. exact IH.
Qed.

Lemma indexBy_map {A} (key : A -> string) (g : A -> A) (l : list A) :
  (forall a, key (g a) = key a) -> indexBy key (List.map g l) = indexBy key l.
Proof.
  intros Hg. unfold indexBy. generalize (∅ : gmap string (list nat)) 0.
  induction l as [|a l IH]; intros s i; cbn [forEachIdx List.map]; [reflexivity|].
  rewrite Hg. apply IH.
Qed.

Section Projection.
Context `{Externals}.

Lemma demeAt_reproject pieChart table map map' off k e :
  demeAt pieChart table map' off k e
  = (fun d => {| Deme.name := Deme.name d; Deme.count := Deme.count d;
                Deme.latitude := Deme.latitude d; Deme.longitude := Deme.longitude d;
                Deme.coords :=
                  leafletLatLongToLayerPoint (Num (Deme.latitude d))
                    (Num (Deme.longitude d)) map';
                Deme.arcs := Deme.arcs d; Deme.color := Deme.color d |})
    <$> demeAt pieChart table map off k e.
Proof.
  unfold demeAt. destruct (table !! e.1) as [g|]; [|reflexivity].
  case_match; [|reflexivity]. destruct pieChart; reflexivity.
Qed.

Lemma demeList_reproject pieChart table map map' offsets M :
  demeList pieChart table map' offsets M
  = updateDemeDataLatLong (demeList pieChart table map offsets M) map'.
Proof.
  unfold demeList.
  change (@nil Deme.t) with (updateDemeDataLatLong (@nil Deme.t) map') at 1.
  generalize (@nil Deme.t). induction offsets as [|off offsets IH]; intros D; cbn [foldl];
    [reflexivity|].
  rewrite <- IH. f_equal. clear IH. revert D.
  induction (entries M) as [|e l IH]; intros D; cbn [foldl]; [reflexivity|].
  rewrite <- IH. f_equal. unfold appendDeme, updateDemeDataLatLong.
  rewrite length_map, (demeAt_reproject pieChart table map map').
  destruct (demeAt pieChart table map off (length D) e) as [d|];
    cbn [fmap option_fmap option_map]; [|reflexivity].
  rewrite map_app. reflexivity.
Qed.

(** X11.  When only the map changes, the projection update of the demes
    of a completed build returns exactly the demes of a from-scratch
    rebuild under the new map. *)
Theorem projection_update_matches_rebuilt_demes
    nodes vis res cols triplicate metadata map map' pieChart built :
  returned (createDemeAndTransmissionData nodes vis res cols triplicate metadata map pieChart)
    = Some built ->
  exists rebuilt,
    returned (createDemeAndTransmissionData nodes vis res cols triplicate metadata map'
                pieChart) = Some rebuilt
    /\ updateDemeDataLatLong (md_demeData built) map' = md_demeData rebuilt
    /\ md_demeIndices built = md_demeIndices rebuilt.
Proof.
  intros Hb. destruct (geographicInfo metadata !! res) as [table|] eqn:Ht.
  - destruct (createDemeAndTransmissionData_eq nodes vis res cols triplicate metadata table
                map pieChart Ht) as (b & Hb' & _ & HD & HI & _).
    rewrite Hb in Hb'. injection Hb' as <-.
    destruct (createDemeAndTransmissionData_eq nodes vis res cols triplicate metadata table
                map' pieChart Ht) as (rebuilt & Hr & _ & HD' & HI' & _).
    exists rebuilt. split; [exact Hr|].
    assert (Heq : updateDemeDataLatLong (md_demeData built) map' = md_demeData rebuilt)
      by (rewrite HD, HD'; symmetry; apply demeList_reproject).
    split; [exact Heq|]. rewrite HI, HI', <- Heq.
    unfold updateDemeDataLatLong. symmetry. apply indexBy_map. reflexivity.
  - unfold createDemeAndTransmissionData in Hb |- *.
    rewrite (setupDemeData_no_table nodes vis _ _ _ _ map _ Ht) in Hb.
    rewrite (setupDemeData_no_table nodes vis _ _ _ _ map' _ Ht).
    destruct (entries (getColorsForAllDemes nodes vis res cols)) as [|e l];
      [|discriminate Hb].
    cbn in Hb. injection Hb as <-. cbn. eexists. split; [reflexivity|]. split; reflexivity.
Qed.

(** X12.  With the map the dataset was built with, the projection
    update changes nothing: it returns the demes and the transmissions
    of the build as they are. *)
Theorem projection_update_with_same_map
    nodes vis res cols triplicate metadata map pieChart built :
  returned (createDemeAndTransmissionData nodes vis res cols triplicate metadata map pieChart)
    = Some built ->
  updateDemeAndTransmissionDataLatLong (Some (md_demeData built))
    (Some (md_transmissionData built)) map
  = (Some (md_demeData built), Some (md_transmissionData built)).
Proof.
  intros Hb. pose proof (built_demes _ _ _ _ _ _ _ _ _ Hb) as (_ & HT & _ & _ & Hdemes).
  cbn [updateDemeAndTransmissionDataLatLong]. f_equal; f_equal.
  - apply (fmap_id_Forall _ (md_demeData built)). apply Forall_lookup. intros i d Hd.
    destruct (Hdemes i d Hd) as (table & off & e & _ & _ & _ & Hat).
    apply demeAt_fields in Hat as (g & _ & _ & Hlat & Hlong & _ & Hcoords & _).
    unfold leafletLatLongToLayerPoint. destruct d as [nm ct la lo co ar cl].
    cbn in Hlat, Hlong, Hcoords |- *. rewrite Hcoords, Hlat, Hlong. reflexivity.
  - rewrite HT. apply (fmap_id_Forall _ (transmissionData _)).
    apply setupTransmissionData_Forall.
    intros n cs child offO offD m extend t m' _ _ _ _ _ _ _ Hrun.
    apply maybeConstruct_inv in Hrun as (gO & gD & _ & _ & _ & _ & Ht & _).
    rewrite Ht. reflexivity.
Qed.

(** X13.  Projection updates do not accumulate: updating under one map
    and then under another gives what updating under the second map
    alone gives. *)
Theorem projection_updates_compose
    (demeData : list Deme.t) (transmissionData : list Transmission.t)
    (map1 map2 : LeafletMap) :
  updateDemeAndTransmissionDataLatLong
    (updateDemeAndTransmissionDataLatLong (Some demeData) (Some transmissionData) map1).1
    (updateDemeAndTransmissionDataLatLong (Some demeData) (Some transmissionData) map1).2
    map2
  = updateDemeAndTransmissionDataLatLong (Some demeData) (Some transmissionData) map2.
Proof.
  cbn [updateDemeAndTransmissionDataLatLong fst snd].
  unfold updateDemeDataLatLong, updateTransmissionDataLatLong.
  rewrite !map_map. reflexivity.
Qed.

End Projection.

(** ** The colour/visibility update of demes *)

Lemma bind_Normal {A B} (m : Eff A) (k : A -> Eff B) (out : list Diag) (b : B) :
  bind m k = (out, Normal b) ->
  exists out1 a out2, m = (out1, Normal a) /\ k a = (out2, Normal b) /\ out = out1 ++ out2.
Proof.
  unfold bind. destruct m as [out1 [a|e]]; [|discriminate].
  destruct (k a) as [out2 r] eqn:Hk. intros [= <- ->]. eauto 6.
Qed.

Lemma forEachM_rel {A St} (R : St -> St -> Prop) (f : St -> A -> Eff St)
    (l : list A) (s : St) (out : list Diag) (s' : St) :
  (forall s, R s s) -> (forall s1 s2 s3, R s1 s2 -> R s2 s3 -> R s1 s3) ->
  (forall s a out s', f s a = (out, Normal s') -> R s s') ->
  forEachM f l s = (out, Normal s') -> R s s'.
Proof.
  intros Hrefl Htrans Hstep. revert s out. induction l as [|a l IH]; intros s out.
  - intros [= _ <-]. apply Hrefl.
  - cbn [forEachM]. intros Hrun.
    apply bind_Normal in Hrun as (out1 & s1 & out2 & Hf & Hrest & _).
    eapply Htrans; [eapply Hstep; exact Hf | eapply IH; exact Hrest].
Qed.

Lemma Forall2_refl_rel {A} (R : A -> A -> Prop) (l : list A) :
  (forall a, R a a) -> Forall2 R l l.
Proof. intros Hrefl. induction l; constructor; auto. Qed.

Lemma Forall2_trans_rel {A} (R : A -> A -> Prop) (l1 l2 l3 : list A) :
  (forall a b c, R a b -> R b c -> R a c) ->
  Forall2 R l1 l2 -> Forall2 R l2 l3 -> Forall2 R l1 l3.
Proof.
  intros Htrans H12. revert l3. induction H12 as [|a b l1 l2 Hab _ IH]; intros l3 H23;
    inversion H23; subst; constructor; eauto.
Qed.

Lemma sliceKept_refl a : sliceKept a a.
Proof. repeat split. Qed.

Lemma sliceKept_trans a1 a2 a3 : sliceKept a1 a2 -> sliceKept a2 a3 -> sliceKept a1 a3.
Proof. unfold sliceKept. intuition congruence. Qed.

Lemma demeKept_refl pieChart d : demeKept pieChart d d.
Proof.
  unfold demeKept. repeat split. destruct pieChart; [|reflexivity].
  split; [reflexivity|]. destruct (Deme.arcs d) as [arcs|]; constructor.
  apply Forall2_refl_rel, sliceKept_refl.
Qed.

Lemma demeKept_trans pieChart d1 d2 d3 :
  demeKept pieChart d1 d2 -> demeKept pieChart d2 d3 -> demeKept pieChart d1 d3.
Proof.
  unfold demeKept. intros (Hn & Hla & Hlo & Hc & H12) (Hn' & Hla' & Hlo' & Hc' & H23).
  repeat split; try congruence. destruct pieChart; [|congruence].
  destruct H12 as [Hcol H12], H23 as [Hcol' H23]. split; [congruence|].
  destruct (Deme.arcs d1) as [l1|], (Deme.arcs d2) as [l2|], (Deme.arcs d3) as [l3|];
    inversion H12; inversion H23; subst; constructor.
  eapply Forall2_trans_rel; [|eassumption|eassumption].
  intros a1 a2 a3. apply sliceKept_trans.
Qed.

Section DemeUpdate.
Context `{Externals}.

Lemma updateArcs_kept cc colors total arcs i start out arcs' :
  updateArcs cc colors total arcs i start = (out, Normal arcs') ->
  Forall2 sliceKept arcs arcs'
  /\ contiguous start ((fun a => (Arc.startAngle a, Arc.endAngle a)) <$> arcs').
Proof.
  revert i start out arcs'. induction arcs as [|a arcs IH]; intros i start out arcs'.
  - intros [= _ <-]. split; constructor.
  - cbn [updateArcs]. intros Hrun.
    apply bind_Normal in Hrun as (out1 & [] & out2 & _ & Hrun & _).
    destruct (obj_get cc (colorKey (colors !! i))) as [c|]; [|discriminate Hrun].
    apply bind_Normal in Hrun as (out3 & rest & out4 & Hrest & [= _ <-] & _).
    apply IH in Hrest as [Hkept Hcont]. split.
    + constructor; [repeat split | exact Hkept].
    + cbn. split; [reflexivity | exact Hcont].
Qed.

Lemma updateDeme_kept pieChart cc nv data index out data' :
  updateDeme pieChart cc nv data index = (out, Normal data') ->
  exists d d',
    data !! index = Some d /\ data' = <[index := d']> data
    /\ demeKept pieChart d d' /\ Deme.count d' = nv
    /\ if pieChart then contiguous (Num 0) (arcAngles d')
       else Deme.color d' = Some (averageColorsDict cc).
Proof.
  unfold updateDeme. destruct (data !! index) as [d|] eqn:Hd; [|discriminate].
  destruct pieChart.
  - cbn [Deme.arcs setCount]. destruct (Deme.arcs d) as [arcs|] eqn:Harcs; [|discriminate].
    intros Hrun. apply bind_Normal in Hrun as (out1 & arcs' & out2 & Hrun & [= _ <-] & _).
    apply updateArcs_kept in Hrun as [Hkept Hcont].
    eexists d, _. split; [reflexivity|]. split; [reflexivity|].
    split; [|split; [reflexivity | exact Hcont]].
    unfold demeKept. cbn. rewrite Harcs. repeat split. constructor. exact Hkept.
  - intros [= _ <-]. eexists d, _. split; [reflexivity|]. split; [reflexivity|].
    split; [|split; reflexivity]. repeat split.
Qed.

Lemma Forall2_insert_r_kept pieChart (data : list Deme.t) index d d' :
  data !! index = Some d -> demeKept pieChart d d' ->
  Forall2 (demeKept pieChart) data (<[index := d']> data).
Proof.
  intros Hd Hkept. apply Forall2_same_length_lookup_2; [rewrite length_insert; reflexivity|].
  intros i a b Ha Hb. destruct (decide (i = index)) as [->|Hne].
  - rewrite list_lookup_insert_eq in Hb by (eapply lookup_lt_Some; exact Hd).
    injection Hb as <-. rewrite Hd in Ha. injection Ha as <-. exact Hkept.
  - rewrite list_lookup_insert_ne in Hb by congruence. rewrite Ha in Hb.
    injection Hb as <-. apply demeKept_refl.
Qed.

(** X14.  When the colour/visibility update of demes returns, the
    collection has the length it had and every deme keeps its name, raw
    latitude and longitude and coords; in blended mode it keeps its
    slices, in pie mode its colour, the number of its slices and
    everything of each slice but the two angles (so the slice colours
    too). *)
Theorem deme_update_keeps_geometry
    demeData demeIndices nodes vis res cols pieChart out newDemes :
  updateDemeDataColAndVis demeData demeIndices nodes vis res cols pieChart
    = (out, Normal newDemes) ->
  length newDemes = length demeData
  /\ Forall2 (fun d d' =>
                Deme.name d' = Deme.name d /\ Deme.latitude d' = Deme.latitude d
                /\ Deme.longitude d' = Deme.longitude d /\ Deme.coords d' = Deme.coords d
                /\ if pieChart then
                     Deme.color d' = Deme.color d
                     /\ arcColours d' = arcColours d
                     /\ option_Forall2 (Forall2 sliceKept) (Deme.arcs d) (Deme.arcs d')
                   else Deme.arcs d' = Deme.arcs d)
       demeData newDemes.
Proof.
  unfold updateDemeDataColAndVis. intros Hrun.
  assert (Hkept : Forall2 (demeKept pieChart) demeData newDemes).
  { revert Hrun. apply forEachM_rel.
    - intros s. apply Forall2_refl_rel, demeKept_refl.
    - intros s1 s2 s3 H12 H23. eapply Forall2_trans_rel; [|exact H12|exact H23].
      apply demeKept_trans.
    - intros s [location cc] out' s'. unfold updateLocation.
      destruct (demeIndices !! location) as [indices|]; [|discriminate].
      apply forEachM_rel.
      + intros s0. apply Forall2_refl_rel, demeKept_refl.
      + intros s1 s2 s3 H12 H23. eapply Forall2_trans_rel; [|exact H12|exact H23].
        apply demeKept_trans.
      + intros s0 index out0 s0' Hstep.
        apply updateDeme_kept in Hstep as (d & d' & Hd & -> & Hk & _).
        eapply Forall2_insert_r_kept; eassumption. }
  split; [symmetry; eapply Forall2_length; exact Hkept|].
  eapply Forall2_impl; [exact Hkept|].
  intros d d' (Hn & Hla & Hlo & Hc & Hmode). repeat (split; [assumption|]).
  destruct pieChart; [|exact Hmode]. destruct Hmode as [Hcol Harcs].
  assert (Hcolours : arcColours d' = arcColours d).
  { unfold arcColours. destruct Harcs as [l l' Hl|]; [|reflexivity]. cbn.
    induction Hl as [|a a' l l' Ha _ IH]; [reflexivity|]. cbn [fmap list_fmap].
    destruct Ha as (_ & _ & _ & _ & Ha & _). rewrite Ha. f_equal. exact IH. }
  split; [exact Hcol|]. split; assumption.
Qed.

(** X15.  When the pie-mode update of one deme returns, the deme has the
    new count and its slices are laid out from angle 0, each starting
    where the one before ends; every other deme is as it was. *)
Theorem pie_update_lays_slices_end_to_end cc nv data index out data' :
  updateDeme true cc nv data index = (out, Normal data') ->
  exists d',
    data' = <[index := d']> data /\ data' !! index = Some d'
    /\ Deme.count d' = nv /\ contiguous (Num 0) (arcAngles d').
Proof.
  intros Hrun. apply updateDeme_kept in Hrun as (d & d' & Hd & -> & _ & Hcount & Hcont).
  exists d'. split; [reflexivity|]. split; [|split; assumption].
  apply list_lookup_insert_eq. eapply lookup_lt_Some. exact Hd.
Qed.

Lemma updateArcs_no_visible cc colors arcs i start out arcs' :
  updateArcs cc colors 0 arcs i start = (out, Normal arcs') ->
  Forall (fun a => Arc.endAngle a = NaN) arcs'.
Proof.
  revert i start out arcs'. induction arcs as [|a arcs IH]; intros i start out arcs'.
  - intros [= _ <-]. constructor.
  - cbn [updateArcs]. intros Hrun.
    apply bind_Normal in Hrun as (out1 & [] & out2 & _ & Hrun & _).
    destruct (obj_get cc (colorKey (colors !! i))) as [c|]; [|discriminate Hrun].
    apply bind_Normal in Hrun as (out3 & rest & out4 & Hrest & [= _ <-] & _).
    constructor; [|eapply IH; exact Hrest].
    cbn. destruct start; reflexivity.
Qed.

(** X16.  When no tip of the location is visible, the pie-mode update of
    a deme divides by a zero total: every slice it returns ends at
    [NaN]. *)
Theorem pie_update_without_visible_tips cc nv data index out data' :
  sumVisible cc = 0 ->
  updateDeme true cc nv data index = (out, Normal data') ->
  exists d',
    data' !! index = Some d' /\ Forall (fun angles => angles.2 = NaN) (arcAngles d').
Proof.
  intros Hzero. unfold updateDeme. destruct (data !! index) as [d|] eqn:Hd; [|discriminate].
  cbn [Deme.arcs setCount]. destruct (Deme.arcs d) as [arcs|]; [|discriminate].
  rewrite Hzero. intros Hrun.
  apply bind_Normal in Hrun as (out1 & arcs' & out2 & Hrun & [= _ <-] & _).
  eexists. split; [apply list_lookup_insert_eq; eapply lookup_lt_Some; exact Hd|].
  unfold arcAngles. cbn. apply Forall_fmap. apply updateArcs_no_visible in Hrun.
  eapply Forall_impl; [exact Hrun|]. intros a Ha. exact Ha.
Qed.

Lemma updateArcs_throws cc colors total arcs i start :
  obj_get cc "undefined" = None ->
  i <= length colors < i + length arcs ->
  (updateArcs cc colors total arcs i start).2 = Throw TypeError.
Proof.
  intros Hundef. revert i start. induction arcs as [|a arcs IH]; intros i start Hlen.
  - cbn [length] in Hlen. lia.
  - cbn [updateArcs length] in *.
    assert (Hbind : forall (m : Eff unit) (k : Eff (list Arc.t)),
              (exists o, m = (o, Normal tt)) -> k.2 = Throw TypeError ->
              (bind m (fun _ => k)).2 = Throw TypeError).
    { intros m k [o ->] Hk. unfold bind. destruct k as [o' r]. cbn in *. exact Hk. }
    apply Hbind; [case_bool_decide; eexists; reflexivity|].
    destruct (colors !! i) as [k|] eqn:Hi; cbn [colorKey];
      [|rewrite Hundef; reflexivity].
    destruct (obj_get cc k) as [c|]; [|reflexivity].
    apply lookup_lt_Some in Hi.
    match goal with
    | |- (bind ?m _).2 = _ =>
        assert (Hm : m.2 = Throw TypeError) by (apply IH; lia);
        unfold bind; destruct m as [o [x|e]]; cbn in Hm |- *; congruence
    end.
Qed.

(** X17.  A deme with more slices than the location now has colours (and
    no colour key "undefined" to fall on) makes the pie-mode update
    throw a TypeError, at the first slice without a colour. *)
Theorem pie_update_throws_on_fewer_colours cc nv data index d arcs :
  data !! index = Some d ->
  Deme.arcs d = Some arcs ->
  length (keys cc) < length arcs ->
  obj_get cc "undefined" = None ->
  (updateDeme true cc nv data index).2 = Throw TypeError.
Proof.
  intros Hd Harcs Hlen Hundef. unfold updateDeme. rewrite Hd.
  cbn [Deme.arcs setCount]. rewrite Harcs.
  pose proof (updateArcs_throws cc (keys cc) (sumVisible cc) arcs 0 (Num 0) Hundef) as Hthrow.
  specialize (Hthrow ltac:(cbn; lia)).
  unfold bind. destruct (updateArcs cc (keys cc) (sumVisible cc) arcs 0 (Num 0)) as [o [x|e]];
    cbn in Hthrow |- *; congruence.
Qed.

Lemma updateArcs_returns cc total arcs i start :
  NoDup cc.*1 -> i + length arcs <= length (entries cc) ->
  exists arcs',
    updateArcs cc (keys cc) total arcs i start
    = (replicate (mismatches (keys cc) arcs i) (Error ["COLOR MISMATCH FATAL"]),
       Normal arcs')
    /\ length arcs' = length arcs.
Proof.
  intros Hnd. revert i start. induction arcs as [|a arcs IH]; intros i start Hlen.
  - exists []. split; reflexivity.
  - cbn [length] in Hlen.
    destruct (entries cc !! i) as [[k c]|] eqn:Hi;
      [|apply lookup_ge_None in Hi; lia].
    assert (Hk : keys cc !! i = Some k).
    { unfold keys. rewrite list_lookup_fmap, Hi. reflexivity. }
    assert (Hget : obj_get cc k = Some c).
    { apply (entries_obj_get cc (k, c) Hnd). eapply list_elem_of_lookup_2. exact Hi. }
    cbn [updateArcs mismatches]. rewrite Hk. cbn [colorKey]. rewrite Hget.
    match goal with
    | |- context [updateArcs cc (keys cc) total arcs (S i) ?e] =>
        destruct (IH (S i) e ltac:(lia)) as (arcs' & Hrun & Hlen')
    end.
    rewrite Hrun. eexists. unfold bind.
    case_bool_decide; cbn [console_error ret fst snd Nat.add replicate app];
      rewrite app_nil_r; (split; [reflexivity | cbn [length]; rewrite Hlen'; reflexivity]).
Qed.

(** X18.  When the deme has at most one slice per colour key of the
    location, the pie-mode update of the deme returns: nothing throws,
    the deme keeps the number of its slices, and the console gets
    "COLOR MISMATCH FATAL" once for each slice whose colour tag is not
    the colour key at its position, and nothing else. *)
Theorem pie_update_returns_and_logs_mismatches cc nv data index d arcs :
  data !! index = Some d ->
  Deme.arcs d = Some arcs ->
  length arcs <= length (keys cc) ->
  NoDup cc.*1 ->
  exists d',
    updateDeme true cc nv data index
    = (replicate (mismatches (keys cc) arcs 0) (Error ["COLOR MISMATCH FATAL"]),
       Normal (<[index := d']> data))
    /\ length (arcAngles d') = length arcs.
Proof.
  intros Hd Harcs Hlen Hnd.
  assert (Hlen' : 0 + length arcs <= length (entries cc)).
  { unfold keys in Hlen. rewrite length_fmap in Hlen. lia. }
  destruct (updateArcs_returns cc (sumVisible cc) arcs 0 (Num 0) Hnd Hlen')
    as (arcs' & Hrun & Hl).
  unfold updateDeme. rewrite Hd. cbn [Deme.arcs setCount]. rewrite Harcs, Hrun.
  eexists. split; [unfold bind; cbn [ret fst snd]; rewrite app_nil_r; reflexivity|].
  unfold arcAngles. cbn [Deme.arcs setArcs from_option id].
  rewrite length_fmap. exact Hl.
Qed.

(** X19.  The combined colour/visibility update is decided by its deme
    half: it logs what the deme update logs, throws exactly when the
    deme update throws, and otherwise returns the new demes beside the
    transmissions it was given, which the transmission half never
    changes.  Without one of the two collections nothing is computed. *)
Theorem combined_update_passes_transmissions_through
    demeData transmissionData demeIndices transmissionIndices nodes vis res cols pieChart :
  updateDemeAndTransmissionDataColAndVis (Some demeData) (Some transmissionData)
    demeIndices transmissionIndices nodes vis res cols pieChart
  = (let run := updateDemeDataColAndVis demeData demeIndices nodes vis res cols pieChart in
     (run.1,
      match run.2 with
      | Normal newDemes => Normal (Some newDemes, Some transmissionData)
      | Throw e => Throw e
      end))
  /\ updateDemeAndTransmissionDataColAndVis None (Some transmissionData)
       demeIndices transmissionIndices nodes vis res cols pieChart = ([], Normal (None, None))
  /\ updateDemeAndTransmissionDataColAndVis (Some demeData) None
       demeIndices transmissionIndices nodes vis res cols pieChart = ([], Normal (None, None)).
Proof.
  split; [|split; reflexivity].
  unfold updateDemeAndTransmissionDataColAndVis.
  rewrite updateTransmissionDataColAndVis_unchanged.
  destruct (updateDemeDataColAndVis demeData demeIndices nodes vis res cols pieChart)
    as [out [newDemes|e]]; cbn; [|reflexivity].
  rewrite !app_nil_r. reflexivity.
Qed.

End DemeUpdate.

(** ** The sample tree again: the build and its updates *)

Section SampleBuilds.
Import Sample.

(** The location A of the sample tree, built with triplication. *)
Lemma demeIndices_list_positions_witness :
  exists built indices,
    returned (createDemeAndTransmissionData tree visibility0 "country" colours0 true
                places flat false) = Some built
    /\ md_demeIndices built !! "A" = Some indices
    /\ indices ≠ [] /\ StronglySorted lt indices
    /\ forall i, i ∈ indices
                 <-> exists d, md_demeData built !! i = Some d /\ Deme.name d = "A".
Proof.
  destruct (returned (createDemeAndTransmissionData tree visibility0 "country" colours0
                        true places flat false)) as [built|] eqn:Hb;
    [|vm_compute in Hb; discriminate Hb].
  pose proof (demeIndices_list_positions tree visibility0 "country" colours0 true places
                flat false built "A" Hb) as Hidx.
  destruct (md_demeIndices built !! "A") as [indices|] eqn:Hi.
  - exists built, indices. split; [reflexivity|]. split; [exact Hi | exact Hidx].
  - exfalso. vm_compute in Hb. injection Hb as <-. vm_compute in Hi. discriminate Hi.
Defined.

(** The first deme of the sample tree, built with triplication. *)
Lemma built_deme_geometry_witness :
  exists built d g off,
    returned (createDemeAndTransmissionData tree visibility0 "country" colours0 true
                places flat false) = Some built
    /\ md_demeData built !! 0 = Some d
    /\ geographicInfo places !! "country"
         ≫= (fun table => table !! Deme.name d) = Some g
    /\ off ∈ offsetsOf true
    /\ Deme.latitude d = latitude g
    /\ Deme.longitude d = (longitude g + off)%Q
    /\ Deme.coords d = latLngToLayerPoint flat (Num (Deme.latitude d)) (Num (Deme.longitude d)).
Proof.
  destruct (returned (createDemeAndTransmissionData tree visibility0 "country" colours0
                        true places flat false)) as [built|] eqn:Hb;
    [|vm_compute in Hb; discriminate Hb].
  destruct (md_demeData built !! 0) as [d|] eqn:Hd.
  - destruct (built_deme_geometry tree visibility0 "country" colours0 true places flat
                false built 0 d Hb Hd)
      as (table & g & off & cc & Htable & Hg & _ & Hoff & Hlat & Hlong & _ & Hcoords & _).
    exists built, d, g, off. split; [reflexivity|]. split; [exact Hd|].
    split; [rewrite Htable; exact Hg|]. repeat split; assumption.
  - exfalso. vm_compute in Hb. injection Hb as <-. vm_compute in Hd. discriminate Hd.
Defined.

(** The first deme of the sample tree, built in pie mode. *)
Lemma built_deme_visual_witness :
  exists built d arcs,
    returned (createDemeAndTransmissionData tree visibility0 "country" colours0 false
                places flat true) = Some built
    /\ md_demeData built !! 0 = Some d
    /\ Deme.color d = None
    /\ Deme.arcs d = Some arcs
    /\ forall j a, arcs !! j = Some a ->
         Arc.innerRadius a = Some 0%Q /\ Arc.demeDataIdx a = Some 0.
Proof.
  destruct (returned (createDemeAndTransmissionData tree visibility0 "country" colours0
                        false places flat true)) as [built|] eqn:Hb;
    [|vm_compute in Hb; discriminate Hb].
  destruct (md_demeData built !! 0) as [d|] eqn:Hd.
  - destruct (built_deme_visual tree visibility0 "country" colours0 false places flat
                true built 0 d Hb Hd) as (cc & _ & Hcol & arcs & Harcs & _ & Hall).
    exists built, d, arcs. split; [reflexivity|]. split; [exact Hd|].
    split; [exact Hcol|]. split; [exact Harcs|].
    intros j a Ha. destruct (Hall j a Ha) as (_ & Hr & Hi & _). split; assumption.
  - exfalso. vm_compute in Hb. injection Hb as <-. vm_compute in Hd. discriminate Hd.
Defined.

(** The first deme of the sample tree: of the two tips at A one is
    visible. *)
Lemma built_deme_counts_visible_tips_witness :
  exists built d,
    returned (createDemeAndTransmissionData tree visibility0 "country" colours0 false
                places flat false) = Some built
    /\ md_demeData built !! 0 = Some d
    /\ Deme.count d
       = tally (fun i n => tipAt "country" (Deme.name d) n && isVisible visibility0 i) tree 0.
Proof.
  destruct (returned (createDemeAndTransmissionData tree visibility0 "country" colours0
                        false places flat false)) as [built|] eqn:Hb;
    [|vm_compute in Hb; discriminate Hb].
  destruct (md_demeData built !! 0) as [d|] eqn:Hd.
  - exists built, d. split; [reflexivity|]. split; [exact Hd|].
    apply (built_deme_counts_visible_tips tree visibility0 "country" colours0 false places
             flat false built d Hb).
    eapply list_elem_of_lookup_2. exact Hd.
  - exfalso. vm_compute in Hb. injection Hb as <-. vm_compute in Hd. discriminate Hd.
Defined.

(** The sample tree, built without triplication. *)
Lemma single_copy_has_one_deme_per_location_witness :
  exists built,
    returned (createDemeAndTransmissionData tree visibility0 "country" colours0 false
                places flat false) = Some built
    /\ NoDup (Deme.name <$> md_demeData built)
    /\ forall location indices,
         md_demeIndices built !! location = Some indices -> exists i, indices = [i].
Proof.
  destruct (returned (createDemeAndTransmissionData tree visibility0 "country" colours0
                        false places flat false)) as [built|] eqn:Hb;
    [|vm_compute in Hb; discriminate Hb].
  exists built. split; [reflexivity|].
  exact (single_copy_has_one_deme_per_location tree visibility0 "country" colours0 places
           flat false built Hb).
Defined.

(** The sample tree, built under the sample map and reprojected after
    zooming in. *)
Lemma projection_update_matches_rebuilt_demes_witness :
  exists built rebuilt,
    returned (createDemeAndTransmissionData tree visibility0 "country" colours0 true
                places flat false) = Some built
    /\ returned (createDemeAndTransmissionData tree visibility0 "country" colours0 true
                   places zoomed false) = Some rebuilt
    /\ updateDemeDataLatLong (md_demeData built) zoomed = md_demeData rebuilt.
Proof.
  destruct (returned (createDemeAndTransmissionData tree visibility0 "country" colours0
                        true places flat false)) as [built|] eqn:Hb;
    [|vm_compute in Hb; discriminate Hb].
  destruct (projection_update_matches_rebuilt_demes tree visibility0 "country" colours0
              true places flat zoomed false built Hb) as (rebuilt & Hr & Hupd & _).
  exists built, rebuilt. split; [reflexivity|]. split; [exact Hr | exact Hupd].
Defined.

Lemma projection_update_with_same_map_witness :
  exists built,
    returned (createDemeAndTransmissionData tree visibility0 "country" colours0 true
                places flat true) = Some built
    /\ updateDemeAndTransmissionDataLatLong (Some (md_demeData built))
         (Some (md_transmissionData built)) flat
       = (Some (md_demeData built), Some (md_transmissionData built)).
Proof.
  destruct (returned (createDemeAndTransmissionData tree visibility0 "country" colours0
                        true places flat true)) as [built|] eqn:Hb;
    [|vm_compute in Hb; discriminate Hb].
  exists built. split; [reflexivity|].
  exact (projection_update_with_same_map tree visibility0 "country" colours0 true places
           flat true built Hb).
Defined.

(** The sample tree, built in pie mode and updated to full visibility. *)
Lemma deme_update_keeps_geometry_witness :
  exists built newDemes,
    returned (createDemeAndTransmissionData tree visibility0 "country" colours0 false
                places flat true) = Some built
    /\ (updateDemeDataColAndVis (md_demeData built) (md_demeIndices built) tree
          visibility2 "country" colours0 true).2 = Normal newDemes
    /\ length newDemes = length (md_demeData built)
    /\ Forall2 (fun d d' => Deme.name d' = Deme.name d /\ Deme.coords d' = Deme.coords d
                            /\ arcColours d' = arcColours d)
         (md_demeData built) newDemes.
Proof.
  destruct (returned (createDemeAndTransmissionData tree visibility0 "country" colours0
                        false places flat true)) as [built|] eqn:Hb;
    [|vm_compute in Hb; discriminate Hb].
  destruct (updateDemeDataColAndVis (md_demeData built) (md_demeIndices built) tree
              visibility2 "country" colours0 true) as [out [newDemes|e]] eqn:Hrun.
  - destruct (deme_update_keeps_geometry (md_demeData built) (md_demeIndices built) tree
                visibility2 "country" colours0 true out newDemes Hrun) as [Hlen Hall].
    exists built, newDemes. split; [reflexivity|]. split; [rewrite Hrun; reflexivity|].
    split; [exact Hlen|]. eapply Forall2_impl; [exact Hall|].
    intros d d' (Hn & _ & _ & Hc & _ & Hcols & _). repeat split; assumption.
  - exfalso. vm_compute in Hb. injection Hb as <-. vm_compute in Hrun. discriminate Hrun.
Defined.

(** The deme at A, built in pie mode with one of its two tips visible,
    updated when both are. *)
Lemma pie_update_lays_slices_end_to_end_witness :
  exists built cc d',
    returned (createDemeAndTransmissionData tree visibility0 "country" colours0 false
                places flat true) = Some built
    /\ obj_get (getColorsForAllDemes tree visibility2 "country" colours0) "A" = Some cc
    /\ (updateDeme true cc (sumVisible cc) (md_demeData built) 0).2
       = Normal (<[0 := d']> (md_demeData built))
    /\ Deme.count d' = sumVisible cc
    /\ contiguous (Num 0) (arcAngles d').
Proof.
  destruct (returned (createDemeAndTransmissionData tree visibility0 "country" colours0
                        false places flat true)) as [built|] eqn:Hb;
    [|vm_compute in Hb; discriminate Hb].
  destruct (obj_get (getColorsForAllDemes tree visibility2 "country" colours0) "A")
    as [cc|] eqn:Hcc; [|vm_compute in Hcc; discriminate Hcc].
  destruct (updateDeme true cc (sumVisible cc) (md_demeData built) 0)
    as [out [data'|e]] eqn:Hrun.
  - destruct (pie_update_lays_slices_end_to_end cc (sumVisible cc) (md_demeData built) 0
                out data' Hrun) as (d' & Hdata & _ & Hcount & Hcont).
    exists built, cc, d'. split; [reflexivity|]. split; [reflexivity|].
    split; [rewrite Hrun, Hdata; reflexivity|]. split; assumption.
  - exfalso. vm_compute in Hb. injection Hb as <-. vm_compute in Hcc. injection Hcc as <-.
    vm_compute in Hrun. discriminate Hrun.
Defined.

(** The deme at A, updated when every tip is hidden. *)
Lemma pie_update_without_visible_tips_witness :
  exists built cc d',
    returned (createDemeAndTransmissionData tree visibility0 "country" colours0 false
                places flat true) = Some built
    /\ obj_get (getColorsForAllDemes tree [0; 0; 0; 0] "country" colours0) "A" = Some cc
    /\ (updateDeme true cc (sumVisible cc) (md_demeData built) 0).2
       = Normal (<[0 := d']> (md_demeData built))
    /\ d' ∈ <[0 := d']> (md_demeData built)
    /\ Forall (fun angles => angles.2 = NaN) (arcAngles d').
Proof.
  destruct (returned (createDemeAndTransmissionData tree visibility0 "country" colours0
                        false places flat true)) as [built|] eqn:Hb;
    [|vm_compute in Hb; discriminate Hb].
  destruct (obj_get (getColorsForAllDemes tree [0; 0; 0; 0] "country" colours0) "A")
    as [cc|] eqn:Hcc; [|vm_compute in Hcc; discriminate Hcc].
  assert (Hzero : sumVisible cc = 0).
  { vm_compute in Hcc. injection Hcc as <-. reflexivity. }
  destruct (updateDeme true cc (sumVisible cc) (md_demeData built) 0)
    as [out [data'|e]] eqn:Hrun.
  - destruct (pie_update_without_visible_tips cc (sumVisible cc) (md_demeData built) 0
                out data' Hzero Hrun) as (d' & Hd' & Hnan).
    destruct (updateDeme_kept true cc (sumVisible cc) (md_demeData built) 0 out data' Hrun)
      as (d0 & d1 & Hd0 & Hdata & _).
    assert (Heq : d1 = d').
    { rewrite Hdata in Hd'. rewrite list_lookup_insert_eq in Hd'
        by (eapply lookup_lt_Some; exact Hd0). congruence. }
    subst d1. exists built, cc, d'. split; [reflexivity|]. split; [reflexivity|].
    split; [rewrite Hrun, Hdata; reflexivity|].
    split; [|exact Hnan]. rewrite <- Hdata. eapply list_elem_of_lookup_2. exact Hd'.
  - exfalso. vm_compute in Hb. injection Hb as <-. vm_compute in Hcc. injection Hcc as <-.
    vm_compute in Hrun. discriminate Hrun.
Defined.

(** The deme at A, built with a red and a blue tip, updated when both
    tips are red. *)
Lemma pie_update_throws_on_fewer_colours_witness :
  exists built cc,
    returned (createDemeAndTransmissionData tree visibility0 "country" colours0 false
                places flat true) = Some built
    /\ obj_get (getColorsForAllDemes tree visibility0 "country" ["grey"; "red"; "red"; "red"])
         "A" = Some cc
    /\ (updateDeme true cc (sumVisible cc) (md_demeData built) 0).2 = Throw TypeError.
Proof.
  destruct (returned (createDemeAndTransmissionData tree visibility0 "country" colours0
                        false places flat true)) as [built|] eqn:Hb;
    [|vm_compute in Hb; discriminate Hb].
  destruct (obj_get (getColorsForAllDemes tree visibility0 "country"
                       ["grey"; "red"; "red"; "red"]) "A")
    as [cc|] eqn:Hcc; [|vm_compute in Hcc; discriminate Hcc].
  exists built, cc. split; [reflexivity|]. split; [reflexivity|].
  vm_compute in Hb. injection Hb as <-. vm_compute in Hcc. injection Hcc as <-.
  eapply pie_update_throws_on_fewer_colours.
  - reflexivity.
  - reflexivity.
  - vm_compute. lia.
  - reflexivity.
Defined.

(** The deme at A, built with a red and a blue tip, updated when the
    tips are green and yellow: both slices are reported. *)
Lemma pie_update_returns_and_logs_mismatches_witness :
  exists built cc d',
    returned (createDemeAndTransmissionData tree visibility0 "country" colours0 false
                places flat true) = Some built
    /\ obj_get (getColorsForAllDemes tree visibility2 "country" colours2) "A" = Some cc
    /\ updateDeme true cc (sumVisible cc) (md_demeData built) 0
       = ([Error ["COLOR MISMATCH FATAL"]; Error ["COLOR MISMATCH FATAL"]],
          Normal (<[0 := d']> (md_demeData built)))
    /\ length (arcAngles d') = 2.
Proof.
  destruct (returned (createDemeAndTransmissionData tree visibility0 "country" colours0
                        false places flat true)) as [built|] eqn:Hb;
    [|vm_compute in Hb; discriminate Hb].
  destruct (obj_get (getColorsForAllDemes tree visibility2 "country" colours2) "A")
    as [cc|] eqn:Hcc; [|vm_compute in Hcc; discriminate Hcc].
  destruct (md_demeData built !! 0) as [d|] eqn:Hd;
    [|exfalso; vm_compute in Hb; injection Hb as <-; discriminate Hd].
  destruct (Deme.arcs d) as [arcs|] eqn:Harcs;
    [|exfalso; vm_compute in Hb; injection Hb as <-; vm_compute in Hd; injection Hd as <-;
      discriminate Harcs].
  assert (Hfacts : length arcs = 2 /\ length (keys cc) = 2
                   /\ mismatches (keys cc) arcs 0 = 2 /\ cc.*1 = ["green"; "yellow"]).
  { vm_compute in Hb. injection Hb as <-. vm_compute in Hcc. injection Hcc as <-.
    vm_compute in Hd. injection Hd as <-. vm_compute in Harcs. injection Harcs as <-.
    repeat split. }
  destruct Hfacts as (Hn & Hk & Hm & Hkeys).
  destruct (pie_update_returns_and_logs_mismatches cc (sumVisible cc) (md_demeData built) 0
              d arcs Hd Harcs) as (d' & Hrun & Hlen).
  - lia.
  - rewrite Hkeys. repeat constructor; intros Hin;
      repeat (apply elem_of_cons in Hin as [Hin|Hin]; [discriminate Hin|]); inversion Hin.
  - exists built, cc, d'. split; [reflexivity|]. split; [reflexivity|].
    split; [rewrite Hrun, Hm; reflexivity | rewrite Hlen; exact Hn].
Defined.

End SampleBuilds.

(** ** The dates in double precision *)

Section DatesInBinary64.
Import Floats.
#[local] Set Warnings "-inexact-float".


End DatesInBinary64.

(** ** The update of demes against a rebuild, in either mode *)



Section UpdateInEitherMode.
Context `{Externals}.







End UpdateInEitherMode.

(** ** The update against a rebuild, on the sample tree *)


Section SampleUpdate.
Import Sample.


End SampleUpdate.
